(** * wow.export: the FBX writer (src/js/3D/writers/FBXWriter.js)

    A shallow embedding of the two-pass binary serializer: the node records
    and their identity-keyed sets, the builder of the document skeleton, the
    size pass ([calculateNodeTreeSize]), the write pass ([writeNode]) and the
    entry point ([write]), followed by the properties proved about them. *)

From Stdlib Require Import String Ascii ZArith Lia List.
From Stdlib Require Import PrimFloat FloatOps SpecFloat DecimalString.
From stdpp Require Import base list.
Open Scope Z_scope.

(** ** JavaScript data *)

(** A byte is an integer in [0, 255]. *)
Abbreviation byte := Z.

(** A JavaScript string is a sequence of UTF-16 code units. *)
Abbreviation jsstring := (list Z).

(** The code units of an ASCII literal of the source. *)
Definition js (s : string) : jsstring :=
  map (fun c => Z.of_N (N_of_ascii c)) (list_ascii_of_string s).

(** [s.length] counts UTF-16 code units. *)
Definition js_length (s : jsstring) : Z := Z.of_nat (length s).

Definition is_high_surrogate (c : Z) : bool := (55296 <=? c) && (c <=? 56319).
Definition is_low_surrogate (c : Z) : bool := (56320 <=? c) && (c <=? 57343).

Definition utf8_1 (c : Z) : list byte := [c].
Definition utf8_2 (c : Z) : list byte :=
  [Z.lor 192 (Z.shiftr c 6); Z.lor 128 (Z.land c 63)].
Definition utf8_3 (c : Z) : list byte :=
  [Z.lor 224 (Z.shiftr c 12); Z.lor 128 (Z.land (Z.shiftr c 6) 63);
   Z.lor 128 (Z.land c 63)].
Definition utf8_4 (c : Z) : list byte :=
  [Z.lor 240 (Z.shiftr c 18); Z.lor 128 (Z.land (Z.shiftr c 12) 63);
   Z.lor 128 (Z.land (Z.shiftr c 6) 63); Z.lor 128 (Z.land c 63)].

(** U+FFFD, which Node writes for a surrogate that has no partner. *)
Definition utf8_replacement : list byte := [239; 191; 189].

(** The UTF-8 encoding Node's Buffer gives a string. *)
Fixpoint utf8 (s : jsstring) : list byte :=
  match s with
  | [] => []
  | c :: rest =>
    if c <? 128 then utf8_1 c ++ utf8 rest
    else if c <? 2048 then utf8_2 c ++ utf8 rest
    else if is_high_surrogate c then
      match rest with
      | d :: rest' =>
        if is_low_surrogate d
        then utf8_4 (65536 + Z.shiftl (c - 55296) 10 + (d - 56320)) ++ utf8 rest'
        else utf8_replacement ++ utf8 rest
      | [] => utf8_replacement
      end
    else if is_low_surrogate c then utf8_replacement ++ utf8 rest
    else utf8_3 c ++ utf8 rest
  end.

(** [String(n)] for an integral number: its decimal digits. *)
Definition Number_toString (n : Z) : jsstring :=
  js (NilZero.string_of_int (Z.to_int n)).

(** [s.padStart(targetLength, padString)]. *)
Definition padStart (s : jsstring) (targetLength : nat) (padString : jsstring) : jsstring :=
  let missing := (targetLength - length s)%nat in
  take missing (concat (repeat padString missing)) ++ s.

(** An argument of [util.format]: a string or an integral number. *)
Inductive format_arg :=
  | FString (s : jsstring)
  | FNumber (n : Z).

Definition format_arg_text (a : format_arg) : jsstring :=
  match a with
  | FString s => s
  | FNumber n => Number_toString n
  end.

(** [util.format(fmt, ...args)] for the one placeholder the source uses,
    [%s] (code units 37, 115): each takes the next argument; placeholders
    without an argument stay, and arguments left over are appended after a
    space each. *)
Fixpoint util_format (fmt : jsstring) (args : list format_arg) : jsstring :=
  match fmt with
  | [] => concat (map (fun a => 32 :: format_arg_text a) args)
  | c :: rest =>
    match rest with
    | d :: rest' =>
      if (c =? 37) && (d =? 115) then
        match args with
        | a :: args' => format_arg_text a ++ util_format rest' args'
        | [] => c :: util_format rest args
        end
      else c :: util_format rest args
    | [] => c :: util_format rest args
    end
  end.

(** The integer part of a binary64 number (truncation towards zero); [None]
    for NaN and the infinities. *)
Definition float_trunc (f : float) : option Z :=
  match Prim2SF f with
  | S754_zero _ => Some 0
  | S754_finite s m e =>
    let a := Z.shiftl (Z.pos m) e in Some (if s then - a else a)
  | S754_infinity _ | S754_nan => None
  end.

(** Whether a binary64 number is an integer; [BigInt(value)] needs one. *)
Definition float_is_integer (f : float) : bool :=
  match Prim2SF f with
  | S754_zero _ => true
  | S754_finite _ m e => Z.shiftl (Z.shiftl (Z.pos m) e) (- e) =? Z.pos m
  | S754_infinity _ | S754_nan => false
  end.

Definition sign_bit (s : bool) (width : Z) : Z :=
  if s then Z.shiftl 1 (width - 1) else 0.

(** The IEEE 754 bit pattern of a number in a format of [mant] explicit
    mantissa bits and [ebits] exponent bits, [bias] being the exponent of
    the least normal mantissa unit. *)
Definition ieee_bits (mant ebits bias : Z) (x : spec_float) : Z :=
  let width := 1 + ebits + mant in
  let emax_field := Z.shiftl (Z.ones ebits) mant in
  match x with
  | S754_zero s => sign_bit s width
  | S754_infinity s => Z.lor (sign_bit s width) emax_field
  | S754_nan => Z.lor emax_field (Z.shiftl 1 (mant - 1))
  | S754_finite s m e =>
    if Z.pos m <? Z.shiftl 1 mant
    then Z.lor (sign_bit s width) (Z.pos m)
    else Z.lor (sign_bit s width)
           (Z.lor (Z.shiftl (e + bias) mant) (Z.pos m - Z.shiftl 1 mant))
  end.

(** binary64: 52 mantissa bits, 11 exponent bits. *)
Definition double_bits (f : float) : Z := ieee_bits 52 11 1075 (Prim2SF f).

(** binary32, after rounding the binary64 value to nearest even. *)
Definition single_of_double (f : float) : spec_float :=
  match Prim2SF f with
  | S754_finite s m e => binary_normalize 24 128 (if s then Z.neg m else Z.pos m) e s
  | x => x
  end.

Definition single_bits (f : float) : Z := ieee_bits 23 8 150 (single_of_double f).

(** The [n] low bytes of [v], least significant first (two's complement for
    a negative [v]). *)
Definition le_bytes (n : nat) (v : Z) : list byte :=
  map (fun i => Z.land (Z.shiftr v (8 * Z.of_nat i)) 255) (seq 0 n).

(** A property value as the builder can pass it. *)
Inductive JSValue :=
  | VNumber (f : float)
  | VString (s : jsstring)
  | VBuffer (b : list byte)
  | VBoolean (b : bool).

(** ** Outcomes *)

Inductive Exception :=
  | TypeError      (* a value of the wrong shape, or a field of [undefined] *)
  | RangeError     (* a number outside the range of the field it is written to *)
  | OutOfBounds    (* a write past the end of the allocated buffer *)
  | NotANumber.    (* arithmetic on [undefined]: a node that was never sized *)

(** What a call does: it returns, it throws, or (for the two recursive
    passes, which the source does not guard against cycles) the model's fuel
    ran out first. *)
Inductive Outcome (A : Type) :=
  | Ok (a : A)
  | Throw (e : Exception)
  | OutOfFuel.
Arguments Ok {A} a.
Arguments Throw {A} e.
Arguments OutOfFuel {A}.

#[global] Instance Outcome_ret : MRet Outcome := fun A a => Ok a.

#[global] Instance Outcome_bind : MBind Outcome := fun A B k m =>
  match m with
  | Ok a => k a
  | Throw e => Throw e
  | OutOfFuel => OutOfFuel
  end.

(** [ToNumber] on the values above; text is not parsed by the model. *)
Definition ToNumber (v : JSValue) : Outcome float :=
  match v with
  | VNumber f => Ok f
  | VBoolean b => Ok (if b then 1%float else 0%float)
  | VString _ | VBuffer _ => Throw TypeError
  end.

(** Truthiness, as the conditional operator tests it. *)
Definition truthy (v : JSValue) : bool :=
  match v with
  | VNumber f =>
    match Prim2SF f with
    | S754_zero _ | S754_nan => false
    | _ => true
    end
  | VString s => negb (bool_decide (s = []))
  | VBuffer _ => true
  | VBoolean b => b
  end.

(** [Buffer.byteLength(value)]: the UTF-8 length of a string, the length of
    a buffer, a TypeError otherwise. *)
Definition Buffer_byteLength (v : JSValue) : Outcome Z :=
  match v with
  | VString s => Ok (Z.of_nat (length (utf8 s)))
  | VBuffer b => Ok (Z.of_nat (length b))
  | VNumber _ | VBoolean _ => Throw TypeError
  end.

(** [value.byteLength]: a buffer has the field; on any other value it is
    [undefined], and the sum it enters is not a number. *)
Definition byteLength_field (v : JSValue) : Outcome Z :=
  match v with
  | VBuffer b => Ok (Z.of_nat (length b))
  | VString _ | VNumber _ | VBoolean _ => Throw NotANumber
  end.

(** ** The output buffer (buffer.js) *)

(** Modelled from the spec: [BufferWrapper] is not part of the sources at
    hand; the spec (section 6) asks for "a byte-buffer abstraction supporting
    little-endian fixed-width writes, raw-byte writes, and UTF-8 string
    writes", every write being fallible. The buffer is allocated once with a
    fixed capacity and zero-filled; the serializer only ever writes at the
    cursor, so the buffer is kept as the bytes written so far, the cursor
    being their count and the untouched rest being zeros. *)
Record BufferWrapper := {
  capacity : Z;
  written : list byte
}.

Definition offset (buf : BufferWrapper) : Z := Z.of_nat (length (written buf)).

(** [BufferWrapper.alloc(length, true)]. *)
Definition alloc (len : Z) : Outcome BufferWrapper :=
  if len <? 0 then Throw RangeError
  else Ok {| capacity := len; written := [] |}.

(** The whole buffer, as [writeToFile] flushes it. *)
Definition contents (buf : BufferWrapper) : list byte :=
  written buf ++ repeat 0 (Z.to_nat (capacity buf) - length (written buf)).

(** Store bytes at the cursor and advance it. *)
Definition put (bs : list byte) (buf : BufferWrapper) : Outcome BufferWrapper :=
  if offset buf + Z.of_nat (length bs) <=? capacity buf
  then Ok {| capacity := capacity buf; written := written buf ++ bs |}
  else Throw OutOfBounds.

(** An integral field of [n] bytes accepting the numbers of [lo, hi]. *)
Definition put_int (n : nat) (lo hi v : Z) (buf : BufferWrapper) : Outcome BufferWrapper :=
  if (v <? lo) || (hi <? v) then Throw RangeError else put (le_bytes n v) buf.

(** The same for a number that comes as a binary64 value: the range is
    checked on the number, its integer part is stored, NaN as zero. *)
Definition put_int_of_float (n : nat) (lo hi : float) (f : float) (buf : BufferWrapper)
  : Outcome BufferWrapper :=
  if (PrimFloat.ltb f lo || PrimFloat.ltb hi f)%bool then Throw RangeError
  else put (le_bytes n (default 0 (float_trunc f))) buf.

Definition writeUInt8 (v : Z) := put_int 1 0 255 v.
Definition writeUInt32LE (v : Z) := put_int 4 0 4294967295 v.
Definition writeInt16LE (f : float) := put_int_of_float 2 (-32768)%float 32767%float f.
Definition writeInt32LE (f : float) := put_int_of_float 4 (-2147483648)%float 2147483647%float f.
Definition writeInt64LE (v : Z) := put_int 8 (-9223372036854775808) 9223372036854775807 v.
Definition writeFloatLE (f : float) := put (le_bytes 4 (single_bits f)).
Definition writeDoubleLE (f : float) := put (le_bytes 8 (double_bits f)).
Definition writeString (s : jsstring) := put (utf8 s).
Definition writeBuffer (b : list byte) := put b.

(** [BigInt(value)] on a number: its value when it is an integer, a
    RangeError otherwise. *)
Definition BigInt (f : float) : Outcome Z :=
  if float_is_integer f then Ok (default 0 (float_trunc f)) else Throw RangeError.

(** ** Property types: the thirteen [PROPERTY_] descriptors *)

Inductive PropertyType :=
  | PROPERTY_INT_16
  | PROPERTY_INT_32
  | PROPERTY_INT_64
  | PROPERTY_FLOAT
  | PROPERTY_DOUBLE
  | PROPERTY_BOOLEAN
  | PROPERTY_STRING
  | PROPERTY_BINARY
  | PROPERTY_ARR_INT_32
  | PROPERTY_ARR_INT_64
  | PROPERTY_ARR_FLOAT
  | PROPERTY_ARR_DOUBLE
  | PROPERTY_ARR_BOOLEAN.

#[global] Instance PropertyType_eq_dec : EqDecision PropertyType.
Proof. solve_decision. Defined.

Definition type_code (t : PropertyType) : Z :=
  match t with
  | PROPERTY_INT_16 => 0x59
  | PROPERTY_INT_32 => 0x49
  | PROPERTY_INT_64 => 0x4C
  | PROPERTY_FLOAT => 0x46
  | PROPERTY_DOUBLE => 0x44
  | PROPERTY_BOOLEAN => 0x43
  | PROPERTY_STRING => 0x53
  | PROPERTY_BINARY => 0x52
  | PROPERTY_ARR_INT_32 => 0x69
  | PROPERTY_ARR_INT_64 => 0x6C
  | PROPERTY_ARR_FLOAT => 0x66
  | PROPERTY_ARR_DOUBLE => 0x64
  | PROPERTY_ARR_BOOLEAN => 0x62
  end.

Definition type_isArray (t : PropertyType) : bool :=
  match t with
  | PROPERTY_ARR_INT_32 | PROPERTY_ARR_INT_64 | PROPERTY_ARR_FLOAT
  | PROPERTY_ARR_DOUBLE | PROPERTY_ARR_BOOLEAN => true
  | _ => false
  end.

(** The descriptor's [size] field; the string and binary descriptors have
    none. *)
Definition type_size (t : PropertyType) : option Z :=
  match t with
  | PROPERTY_INT_16 => Some 2
  | PROPERTY_INT_32 => Some 4
  | PROPERTY_INT_64 => Some 8
  | PROPERTY_FLOAT => Some 4
  | PROPERTY_DOUBLE => Some 8
  | PROPERTY_BOOLEAN => Some 1
  | PROPERTY_STRING | PROPERTY_BINARY => None
  | PROPERTY_ARR_INT_32 => Some 4
  | PROPERTY_ARR_INT_64 => Some 8
  | PROPERTY_ARR_FLOAT => Some 4
  | PROPERTY_ARR_DOUBLE => Some 8
  | PROPERTY_ARR_BOOLEAN => Some 1
  end.

(** The descriptor's [value] field: no descriptor declares one, so reading
    it gives [undefined] (here [None]) whatever the descriptor. *)
Definition type_value (t : PropertyType) : option JSValue := None.

Definition FBX_VERSION : Z := 7400.

(** ** Node records and the object store *)

(** A reference to a node record object. *)
Abbreviation loc := nat.

(** A property object [{ type, value }]. Each evaluation of the object
    literal makes a new object; [pid] is that object's identity, which is
    what the [Set] holding it compares. *)
Record Property := {
  pid : nat;
  type : PropertyType;
  value : JSValue
}.

(** An [FBXNodeRecord] object. [properties] and [children] are the two
    [Set]s in insertion order; [size] and [propertySize] are [undefined]
    ([None]) until the size pass stores them. *)
Record FBXNodeRecord := {
  name : jsstring;
  properties : list Property;
  children : list loc;
  size : option Z;
  propertySize : option Z
}.

(** The node record objects allocated so far; a reference is an index. *)
Abbreviation Heap := (list FBXNodeRecord).

(** [set.add(x)] on a [Set] of node references: a reference the set already
    holds is not added again. *)
Definition Set_add (x : loc) (s : list loc) : list loc :=
  if decide (x ∈ s) then s else s ++ [x].

(** [set.add(p)] on the [Set] of property objects, compared by identity. *)
Definition Set_add_property (p : Property) (s : list Property) : list Property :=
  if decide (pid p ∈ map pid s) then s else s ++ [p].

(** [new Date()] as observed through the getters the builder calls. *)
Record Date := {
  getFullYear : Z;
  getMonth : Z;
  getDate : Z;
  getHours : Z;
  getMinutes : Z;
  getSeconds : Z;
  getMilliseconds : Z;
  getUTCFullYear : Z;
  getUTCMonth : Z;
  getUTCHours : Z;
  getUTCMinutes : Z;
  getUTCSeconds : Z;
  getUTCMilliseconds : Z
}.

(** The state of the JavaScript runtime the builder works in: the node
    records, the next fresh object identity, and how many times the clock
    and the random generator have been asked. *)
Record Runtime := {
  heap : Heap;
  nextId : nat;
  dateCalls : nat;
  randomCalls : nat
}.

(** A computation of the builder: it cannot fail, it changes the runtime. *)
Definition Build (A : Type) : Type := Runtime -> A * Runtime.

#[global] Instance Build_ret : MRet Build := fun A a r => (a, r).

#[global] Instance Build_bind : MBind Build := fun A B k m r =>
  let '(a, r') := m r in k a r'.

(** Run [f] on each element in order. *)
Fixpoint for_of {A} (xs : list A) (f : A -> Build unit) : Build unit :=
  match xs with
  | [] => mret tt
  | x :: xs' => f x ;; for_of xs' f
  end.

(** Allocate a node record object. *)
Definition new_object (nd : FBXNodeRecord) : Build loc := fun r =>
  (length (heap r),
   {| heap := heap r ++ [nd]; nextId := nextId r;
      dateCalls := dateCalls r; randomCalls := randomCalls r |}).

(** Evaluate the object literal [{ type, value }]. *)
Definition new_property (t : PropertyType) (v : JSValue) : Build Property := fun r =>
  ({| pid := nextId r; type := t; value := v |},
   {| heap := heap r; nextId := S (nextId r);
      dateCalls := dateCalls r; randomCalls := randomCalls r |}).

(** Assign to fields of the object at [l]. *)
Definition update (l : loc) (f : FBXNodeRecord -> FBXNodeRecord) : Build unit := fun r =>
  (tt,
   {| heap := alter f l (heap r); nextId := nextId r;
      dateCalls := dateCalls r; randomCalls := randomCalls r |}).

Definition add_property (p : Property) (nd : FBXNodeRecord) : FBXNodeRecord :=
  {| name := name nd; properties := Set_add_property p (properties nd);
     children := children nd; size := size nd; propertySize := propertySize nd |}.

Definition add_child (c : loc) (nd : FBXNodeRecord) : FBXNodeRecord :=
  {| name := name nd; properties := properties nd;
     children := Set_add c (children nd); size := size nd;
     propertySize := propertySize nd |}.

(** [addProperty(type, ...values)]. *)
Definition addProperty (this : loc) (t : PropertyType) (values : list JSValue) : Build unit :=
  for_of values (fun v => p ← new_property t v; update this (add_property p)).

(** [addChild(...children)]; the result is [children[0]]. *)
Definition addChild (this : loc) (cs : list loc) : Build (option loc) :=
  for_of cs (fun child => update this (add_child child));;
  mret (head cs).

(** [new FBXNodeRecord(name, singlePropertyType, ...singlePropertyValues)];
    [singlePropertyType] is [None] where the call leaves it out. *)
Definition new_FBXNodeRecord (nm : jsstring) (singlePropertyType : option PropertyType)
    (singlePropertyValues : list JSValue) : Build loc :=
  this ← new_object {| name := nm; properties := []; children := [];
                       size := None; propertySize := None |};
  match singlePropertyType with
  | Some t => addProperty this t singlePropertyValues
  | None => mret tt
  end;;
  mret this.

(** Literals of the builder. *)
Definition str (s : string) : JSValue := VString (js s).
Definition num (f : float) : JSValue := VNumber f.

(** The number whose value is the integer [n] (exact below 2^53). *)
Definition Number_of_Z (n : Z) : float := SF2Prim (binary_normalize 53 1024 n 0 false).
Definition int (n : Z) : JSValue := VNumber (Number_of_Z n).

(** The idiom [parent.addChild(new ...)]: the argument is built, then
    attached; the value is the child, as [addChild] returns its first
    argument. *)
Definition addChild_new (parent : loc) (make : Build loc) : Build loc :=
  child ← make;
  addChild parent [child];;
  mret child.

(** *** The [FBXProperty_] subclasses: a node ['P'] with a fixed property
    layout *)

Definition new_FBXProperty_Boolean (nm : jsstring) (state : bool) : Build loc :=
  this ← new_FBXNodeRecord (js "P") None [];
  addProperty this PROPERTY_STRING [VString nm; str "bool"; str ""; str ""];;
  addProperty this PROPERTY_INT_32 [num (if state then 1 else 0)];;
  mret this.

Definition new_FBXProperty_Vector3D (nm : jsstring) (x y z : float) : Build loc :=
  this ← new_FBXNodeRecord (js "P") None [];
  addProperty this PROPERTY_STRING [VString nm; str "Vector3D"; str "Vector"; str ""];;
  addProperty this PROPERTY_DOUBLE [num x; num y; num z];;
  mret this.

Definition new_FBXProperty_ColorRGB (nm : jsstring) (r g b : float) : Build loc :=
  this ← new_FBXNodeRecord (js "P") None [];
  addProperty this PROPERTY_STRING [VString nm; str "ColorRGB"; str "Color"; str ""];;
  addProperty this PROPERTY_DOUBLE [num r; num g; num b];;
  mret this.

Definition new_FBXProperty_URL (nm url : jsstring) : Build loc :=
  this ← new_FBXNodeRecord (js "P") None [];
  addProperty this PROPERTY_STRING [VString nm; str "KString"; str "Url"; VString url];;
  mret this.

Definition new_FBXProperty_Enum (nm : jsstring) (v : float) : Build loc :=
  this ← new_FBXNodeRecord (js "P") None [];
  addProperty this PROPERTY_STRING [VString nm; str "enum"; str ""; str ""];;
  addProperty this PROPERTY_INT_32 [num v];;
  mret this.

Definition new_FBXProperty_Double (nm : jsstring) (v : float) : Build loc :=
  this ← new_FBXNodeRecord (js "P") None [];
  addProperty this PROPERTY_STRING [VString nm; str "double"; str "Number"; str ""];;
  addProperty this PROPERTY_DOUBLE [num v];;
  mret this.

Definition new_FBXProperty_KTime (nm : jsstring) (v : float) : Build loc :=
  this ← new_FBXNodeRecord (js "P") None [];
  addProperty this PROPERTY_STRING [VString nm; str "KTime"; str "Time"; str ""];;
  addProperty this PROPERTY_INT_64 [num v];;
  mret this.

Definition new_FBXProperty_KString (nm v : jsstring) : Build loc :=
  this ← new_FBXNodeRecord (js "P") None [];
  addProperty this PROPERTY_STRING [VString nm; str "KString"; str ""; str ""; VString v];;
  mret this.

Definition new_FBXProperty_Integer (nm : jsstring) (v : float) : Build loc :=
  this ← new_FBXNodeRecord (js "P") None [];
  addProperty this PROPERTY_STRING [VString nm; str "int"; str "Integer"; str ""];;
  addProperty this PROPERTY_INT_32 [num v];;
  mret this.

Definition new_FBXProperty_Object (nm : jsstring) : Build loc :=
  this ← new_FBXNodeRecord (js "P") None [];
  addProperty this PROPERTY_STRING [VString nm; str "object"; str ""; str ""];;
  mret this.

Definition new_FBXProperty_LCLVector (nm : jsstring) (x y z : float) : Build loc :=
  this ← new_FBXNodeRecord (js "P") None [];
  addProperty this PROPERTY_STRING [VString nm; VString nm; str ""; str "A"];;
  addProperty this PROPERTY_DOUBLE [num x; num y; num z];;
  mret this.

(** *** The writer object and what it reads from its surroundings *)

(** The field of an [FBXWriter] that [write] and the builder read. *)
Record FBXWriter := {
  out : jsstring
}.

(** [nw.App.manifest]. *)
Record Manifest := {
  version : jsstring;
  flavour : jsstring
}.

(** One entry of the object given to [createCompound]. *)
Record CompoundField := {
  field_type : jsstring;
  field_value : jsstring
}.

(** An object literal with string keys, in insertion order. *)
Definition JSObject := list (jsstring * CompoundField).

(** [Object.assign(target, source)]: a key of [source] replaces the entry
    of [target] with that key where it is, and is appended otherwise. *)
Fixpoint Object_set (k : jsstring) (v : CompoundField) (o : JSObject) : JSObject :=
  match o with
  | [] => [(k, v)]
  | (k', v') :: o' =>
    if decide (k = k') then (k', v) :: o' else (k', v') :: Object_set k v o'
  end.

Definition Object_assign (target source : JSObject) : JSObject :=
  fold_left (fun o kv => Object_set (fst kv) (snd kv) o) source target.

(** [new Date()]: the next reading of the clock. *)
Definition new_Date (clock : nat -> Date) : Build Date := fun r =>
  (clock (dateCalls r),
   {| heap := heap r; nextId := nextId r;
      dateCalls := S (dateCalls r); randomCalls := randomCalls r |}).

(** [Math.random()]: the next number of the generator. *)
Definition Math_random (random : nat -> float) : Build float := fun r =>
  (random (randomCalls r),
   {| heap := heap r; nextId := nextId r;
      dateCalls := dateCalls r; randomCalls := S (randomCalls r) |}).

(** [Math.floor] as an integer; nothing for NaN and the infinities. *)
Definition Math_floor (f : float) : option Z :=
  match Prim2SF f with
  | S754_zero _ => Some 0
  | S754_finite s m e => Some (Z.shiftl (if s then Z.neg m else Z.pos m) e)
  | S754_infinity _ | S754_nan => None
  end.

(** [buf[i] = v] on a byte buffer keeps the low eight bits. *)
Definition to_byte (v : option Z) : byte := default 0 v mod 256.

(** Collect the results of a computation run [n] times. *)
Fixpoint repeatM {A} (n : nat) (m : Build A) : Build (list A) :=
  match n with
  | O => mret []
  | S n' => x ← m; xs ← repeatM n' m; mret (x :: xs)
  end.

(** Collect the results of [f] on each element in order. *)
Fixpoint map_of {A B} (xs : list A) (f : A -> Build B) : Build (list B) :=
  match xs with
  | [] => mret []
  | x :: xs' => y ← f x; ys ← map_of xs' f; mret (y :: ys)
  end.

(** ** The tree builder *)

Section Builder.

(** [path.basename] of the platform. *)
Variable path_basename : jsstring -> jsstring.
(** [nw.App.manifest]. *)
Variable manifest : Manifest.
(** What the k-th [new Date()] and the k-th [Math.random()] give. *)
Variable clock : nat -> Date.
Variable random : nat -> float.
(** The writer the methods are called on. *)
Variable this : FBXWriter.

Definition buildCreationTimeStampNode : Build loc :=
  now ← new_Date clock;
  nrStamp ← new_FBXNodeRecord (js "CreationTimeStamp") None [];
  addChild_new nrStamp (new_FBXNodeRecord (js "Version") (Some PROPERTY_INT_32) [num 1000]);;
  addChild_new nrStamp (new_FBXNodeRecord (js "Year") (Some PROPERTY_INT_32) [int (getFullYear now)]);;
  addChild_new nrStamp (new_FBXNodeRecord (js "Month") (Some PROPERTY_INT_32) [int (getMonth now + 1)]);;
  addChild_new nrStamp (new_FBXNodeRecord (js "Day") (Some PROPERTY_INT_32) [int (getDate now)]);;
  addChild_new nrStamp (new_FBXNodeRecord (js "Hour") (Some PROPERTY_INT_32) [int (getHours now)]);;
  addChild_new nrStamp (new_FBXNodeRecord (js "Minute") (Some PROPERTY_INT_32) [int (getMinutes now)]);;
  addChild_new nrStamp (new_FBXNodeRecord (js "Second") (Some PROPERTY_INT_32) [int (getSeconds now)]);;
  addChild_new nrStamp (new_FBXNodeRecord (js "Millisecond") (Some PROPERTY_INT_32) [int (getMilliseconds now)]);;
  mret nrStamp.

Definition createCompound (nm : jsstring) (props : JSObject) : Build (list loc) :=
  compound ← new_FBXNodeRecord (js "P") (Some PROPERTY_STRING)
               [VString nm; str "Compound"; str ""; str ""];
  rest ← map_of props (fun '(key, v) =>
           new_FBXNodeRecord (js "P") (Some PROPERTY_STRING)
             [VString (nm ++ js "|" ++ key); VString (field_type v); str ""; str "";
              VString (field_value v)]);
  mret (compound :: rest).

Definition buildSceneInfoNode : Build loc :=
  nrSceneInfo ← new_FBXNodeRecord (js "SceneInfo") None [];
  addProperty nrSceneInfo PROPERTY_STRING [str "GlobalInfoSceneInfo"];;
  addProperty nrSceneInfo PROPERTY_STRING [str "UserData"];;
  addChild_new nrSceneInfo (new_FBXNodeRecord (js "Type") (Some PROPERTY_STRING) [str "UserData"]);;
  addChild_new nrSceneInfo (new_FBXNodeRecord (js "Version") (Some PROPERTY_INT_32) [num 100]);;
  nrMeta ← addChild_new nrSceneInfo (new_FBXNodeRecord (js "MetaData") None []);
  addChild_new nrMeta (new_FBXNodeRecord (js "Version") (Some PROPERTY_INT_32) [num 100]);;
  for_of [js "Title"; js "Subject"; js "Author"; js "Keywords"; js "Revision"; js "Comment"]
    (fun key => addChild_new nrMeta (new_FBXNodeRecord key (Some PROPERTY_STRING) [str ""]);;
                mret tt);;
  let base := js "/" ++ path_basename (out this) in
  nrProps ← addChild_new nrSceneInfo (new_FBXNodeRecord (js "Properties70") None []);
  addChild_new nrProps (new_FBXProperty_URL (js "DocumentUrl") base);;
  addChild_new nrProps (new_FBXProperty_URL (js "SrcDocumentUrl") base);;
  now ← new_Date clock;
  let timeGMT := util_format (js "%s/%s/%s %s:%s:%s:%s")
    [FString (padStart (Number_toString (getDate now)) 2 (js "0"));
     FString (padStart (Number_toString (getUTCMonth now + 1)) 2 (js "0"));
     FNumber (getUTCFullYear now);
     FNumber (getUTCHours now);
     FString (padStart (Number_toString (getUTCMinutes now)) 2 (js "0"));
     FString (padStart (Number_toString (getUTCSeconds now)) 2 (js "0"));
     FString (padStart (Number_toString (getUTCMilliseconds now)) 3 (js "0"))] in
  let compoundLastSaved : JSObject :=
    [(js "ApplicationVendor", {| field_type := js "KString"; field_value := js "wow.export " |});
     (js "ApplicationName", {| field_type := js "KString"; field_value := js "wow.export" |});
     (js "ApplicationVersion", {| field_type := js "KString"; field_value := version manifest |});
     (js "DateTime_GMT", {| field_type := js "DateTime"; field_value := timeGMT |})] in
  original ← createCompound (js "Original")
    (Object_assign [(js "FileName", {| field_type := js "KString"; field_value := base |})]
                   compoundLastSaved);
  addChild nrProps original;;
  lastSaved ← createCompound (js "LastSaved") compoundLastSaved;
  addChild nrProps lastSaved;;
  mret nrSceneInfo.

Definition getApplicationString : jsstring :=
  util_format (js "wow.export v%s %s")
    [FString (version manifest); FString (flavour manifest)].

Definition buildExtendedHeaderNode : Build loc :=
  header ← new_FBXNodeRecord (js "FBXHeaderExtension") None [];
  addChild_new header (new_FBXNodeRecord (js "FBXHeaderVersion") (Some PROPERTY_INT_32) [num 1003]);;
  addChild_new header (new_FBXNodeRecord (js "FBXVersion") (Some PROPERTY_INT_32) [int FBX_VERSION]);;
  addChild_new header (new_FBXNodeRecord (js "EncryptionType") (Some PROPERTY_INT_32) [num 0]);;
  addChild_new header buildCreationTimeStampNode;;
  addChild_new header (new_FBXNodeRecord (js "Creator") (Some PROPERTY_STRING)
                         [VString getApplicationString]);;
  addChild_new header buildSceneInfoNode;;
  mret header.

(** The sixteen bytes are drawn one after the other. *)
Definition buildFileIDNode : Build loc :=
  buf ← repeatM 16 (r ← Math_random random;
                    mret (to_byte (Math_floor (PrimFloat.mul r 255))));
  new_FBXNodeRecord (js "FileId") (Some PROPERTY_BINARY) [VBuffer buf].

Definition buildCreationTimeNode : Build loc :=
  now ← new_Date clock;
  let timeGMT := util_format (js "%s/%s/%s %s:%s:%s:%s")
    [FNumber (getUTCFullYear now);
     FString (padStart (Number_toString (getUTCMonth now + 1)) 2 (js "0"));
     FString (padStart (Number_toString (getDate now)) 2 (js "0"));
     FNumber (getUTCHours now);
     FString (padStart (Number_toString (getUTCMinutes now)) 2 (js "0"));
     FString (padStart (Number_toString (getUTCSeconds now)) 2 (js "0"));
     FString (padStart (Number_toString (getUTCMilliseconds now)) 3 (js "0"))] in
  new_FBXNodeRecord (js "CreationTime") (Some PROPERTY_STRING) [VString timeGMT].

Definition buildCreatorNode : Build loc :=
  new_FBXNodeRecord (js "Creator") (Some PROPERTY_STRING) [VString getApplicationString].

Definition buildGlobalSettingsNode : Build loc :=
  node ← new_FBXNodeRecord (js "GlobalSettings") None [];
  addChild_new node (new_FBXNodeRecord (js "Version") (Some PROPERTY_INT_32) [num 1000]);;
  props ← addChild_new node (new_FBXNodeRecord (js "Properties70") None []);
  addChild_new props (new_FBXProperty_Integer (js "UpAxis") 1);;
  addChild_new props (new_FBXProperty_Integer (js "UpAxisSign") 1);;
  addChild_new props (new_FBXProperty_Integer (js "FrontAxis") 2);;
  addChild_new props (new_FBXProperty_Integer (js "FrontAxisSign") 1);;
  addChild_new props (new_FBXProperty_Integer (js "CoordAxis") 0);;
  addChild_new props (new_FBXProperty_Integer (js "CoordAxisSign") 1);;
  addChild_new props (new_FBXProperty_Integer (js "OriginalUpAxis") (-1));;
  addChild_new props (new_FBXProperty_Integer (js "OriginalUpAxisSign") 1);;
  addChild_new props (new_FBXProperty_Double (js "UnitScaleFactor") 1);;
  addChild_new props (new_FBXProperty_Double (js "OriginalUnitScaleFactor") 1);;
  addChild_new props (new_FBXProperty_ColorRGB (js "AmbientColor") 0 0 0);;
  addChild_new props (new_FBXProperty_KString (js "DefaultCamera") (js "Producer Perspective"));;
  addChild_new props (new_FBXProperty_Enum (js "TimeMode") 11);;
  addChild_new props (new_FBXProperty_KTime (js "TimeSpanStart") 0);;
  addChild_new props (new_FBXProperty_KTime (js "TimeSpanStop") 46186158000);;
  addChild_new props (new_FBXProperty_Double (js "CustomFrameFrame") 24);;
  mret node.

Definition buildDocumentsNode : Build loc :=
  node ← new_FBXNodeRecord (js "Documents") None [];
  addChild_new node (new_FBXNodeRecord (js "Count") (Some PROPERTY_INT_32) [num 0]);;
  mret node.

Definition buildDefinitionsNode : Build loc :=
  node ← new_FBXNodeRecord (js "Definitions") None [];
  addChild_new node (new_FBXNodeRecord (js "Version") (Some PROPERTY_INT_32) [num 100]);;
  addChild_new node (new_FBXNodeRecord (js "Count") (Some PROPERTY_INT_32) [num 3]);;
  (* Template 1: Global Settings. *)
  settings ← addChild_new node (new_FBXNodeRecord (js "ObjectType") None []);
  addProperty settings PROPERTY_STRING [str "GlobalSettings"];;
  addChild_new settings (new_FBXNodeRecord (js "Count") (Some PROPERTY_INT_32) [num 1]);;
  (* Template 2: Geometry *)
  geo ← addChild_new node (new_FBXNodeRecord (js "ObjectType") None []);
  addProperty geo PROPERTY_STRING [str "Geometry"];;
  addChild_new geo (new_FBXNodeRecord (js "Count") (Some PROPERTY_INT_32) [num 1]);;
  geoPropsTemplate ← addChild_new geo
    (new_FBXNodeRecord (js "PropertyTemplate") (Some PROPERTY_STRING) [str "FbxMesh"]);
  geoProps ← addChild_new geoPropsTemplate (new_FBXNodeRecord (js "Properties70") None []);
  addChild_new geoProps (new_FBXProperty_ColorRGB (js "Color") 0x1.999999999999ap-1 0x1.999999999999ap-1 0x1.999999999999ap-1);;
  addChild_new geoProps (new_FBXProperty_Vector3D (js "BBoxMin") 0 0 0);;
  addChild_new geoProps (new_FBXProperty_Vector3D (js "BBoxMax") 0 0 0);;
  addChild_new geoProps (new_FBXProperty_Boolean (js "Primary Visibility") true);;
  addChild_new geoProps (new_FBXProperty_Boolean (js "Casts Shadows") true);;
  addChild_new geoProps (new_FBXProperty_Boolean (js "Receive Shadows") true);;
  (* Template 3: Model *)
  model ← addChild_new node (new_FBXNodeRecord (js "ObjectType") None []);
  addProperty model PROPERTY_STRING [str "Model"];;
  addChild_new model (new_FBXNodeRecord (js "Count") (Some PROPERTY_INT_32) [num 1]);;
  modelPropsTemplate ← addChild_new model
    (new_FBXNodeRecord (js "PropertyTemplate") (Some PROPERTY_STRING) [str "FbxNode"]);
  modelProps ← addChild_new modelPropsTemplate (new_FBXNodeRecord (js "Properties70") None []);
  addChild_new modelProps (new_FBXProperty_Enum (js "QuaternionInterpolate") 0);;
  addChild_new modelProps (new_FBXProperty_Vector3D (js "RotationOffset") 0 0 0);;
  addChild_new modelProps (new_FBXProperty_Vector3D (js "RotationPivot") 0 0 0);;
  addChild_new modelProps (new_FBXProperty_Vector3D (js "ScalingOffset") 0 0 0);;
  addChild_new modelProps (new_FBXProperty_Vector3D (js "ScalingPivot") 0 0 0);;
  addChild_new modelProps (new_FBXProperty_Boolean (js "TranslationActive") false);;
  addChild_new modelProps (new_FBXProperty_Vector3D (js "TranslationMin") 0 0 0);;
  addChild_new modelProps (new_FBXProperty_Vector3D (js "TranslationMax") 0 0 0);;
  addChild_new modelProps (new_FBXProperty_Boolean (js "TranslationMinX") false);;
  addChild_new modelProps (new_FBXProperty_Boolean (js "TranslationMinY") false);;
  addChild_new modelProps (new_FBXProperty_Boolean (js "TranslationMinZ") false);;
  addChild_new modelProps (new_FBXProperty_Boolean (js "TranslationMaxX") false);;
  addChild_new modelProps (new_FBXProperty_Boolean (js "TranslationMaxY") false);;
  addChild_new modelProps (new_FBXProperty_Boolean (js "TranslationMaxZ") false);;
  addChild_new modelProps (new_FBXProperty_Boolean (js "RotationOrder") false);;
  addChild_new modelProps (new_FBXProperty_Boolean (js "RotationSpaceForLimitOnly") false);;
  addChild_new modelProps (new_FBXProperty_Boolean (js "RotationStiffnessX") false);;
  addChild_new modelProps (new_FBXProperty_Boolean (js "RotationStiffnessY") false);;
  addChild_new modelProps (new_FBXProperty_Boolean (js "RotationStiffnessZ") false);;
  addChild_new modelProps (new_FBXProperty_Boolean (js "AxisLen") false);;
  addChild_new modelProps (new_FBXProperty_Vector3D (js "PreRotation") 0 0 0);;
  addChild_new modelProps (new_FBXProperty_Vector3D (js "PostRotation") 0 0 0);;
  addChild_new modelProps (new_FBXProperty_Boolean (js "RotationActive") false);;
  addChild_new modelProps (new_FBXProperty_Vector3D (js "RotationMin") 0 0 0);;
  addChild_new modelProps (new_FBXProperty_Vector3D (js "RotationMax") 0 0 0);;
  addChild_new modelProps (new_FBXProperty_Boolean (js "RotationMinX") false);;
  addChild_new modelProps (new_FBXProperty_Boolean (js "RotationMinY") false);;
  addChild_new modelProps (new_FBXProperty_Boolean (js "RotationMinZ") false);;
  addChild_new modelProps (new_FBXProperty_Boolean (js "RotationMaxX") false);;
  addChild_new modelProps (new_FBXProperty_Boolean (js "RotationMaxY") false);;
  addChild_new modelProps (new_FBXProperty_Boolean (js "RotationMaxZ") false);;
  addChild_new modelProps (new_FBXProperty_Enum (js "InheritType") 0);;
  addChild_new modelProps (new_FBXProperty_Boolean (js "ScalingActive") false);;
  addChild_new modelProps (new_FBXProperty_Vector3D (js "ScalingMin") 0 0 0);;
  addChild_new modelProps (new_FBXProperty_Vector3D (js "ScalingMax") 1 1 1);;
  addChild_new modelProps (new_FBXProperty_Boolean (js "ScalingMinX") false);;
  addChild_new modelProps (new_FBXProperty_Boolean (js "ScalingMinY") false);;
  addChild_new modelProps (new_FBXProperty_Boolean (js "ScalingMinZ") false);;
  addChild_new modelProps (new_FBXProperty_Boolean (js "ScalingMaxX") false);;
  addChild_new modelProps (new_FBXProperty_Boolean (js "ScalingMaxY") false);;
  addChild_new modelProps (new_FBXProperty_Boolean (js "ScalingMaxZ") false);;
  addChild_new modelProps (new_FBXProperty_Vector3D (js "GeometricTranslation") 0 0 0);;
  addChild_new modelProps (new_FBXProperty_Vector3D (js "GeometricRotation") 0 0 0);;
  addChild_new modelProps (new_FBXProperty_Vector3D (js "GeometricScaling") 1 1 1);;
  addChild_new modelProps (new_FBXProperty_Double (js "MinDampRangeX") 0);;
  addChild_new modelProps (new_FBXProperty_Double (js "MinDampRangeY") 0);;
  addChild_new modelProps (new_FBXProperty_Double (js "MinDampRangeZ") 0);;
  addChild_new modelProps (new_FBXProperty_Double (js "MaxDampRangeX") 0);;
  addChild_new modelProps (new_FBXProperty_Double (js "MaxDampRangeY") 0);;
  addChild_new modelProps (new_FBXProperty_Double (js "MaxDampRangeZ") 0);;
  addChild_new modelProps (new_FBXProperty_Double (js "MinDampStrengthX") 0);;
  addChild_new modelProps (new_FBXProperty_Double (js "MinDampStrengthY") 0);;
  addChild_new modelProps (new_FBXProperty_Double (js "MinDampStrengthZ") 0);;
  addChild_new modelProps (new_FBXProperty_Double (js "MaxDampStrengthX") 0);;
  addChild_new modelProps (new_FBXProperty_Double (js "MaxDampStrengthY") 0);;
  addChild_new modelProps (new_FBXProperty_Double (js "MaxDampStrengthZ") 0);;
  addChild_new modelProps (new_FBXProperty_Double (js "PreferedAngleX") 0);;
  addChild_new modelProps (new_FBXProperty_Double (js "PreferedAngleY") 0);;
  addChild_new modelProps (new_FBXProperty_Double (js "PreferedAngleZ") 0);;
  addChild_new modelProps (new_FBXProperty_Object (js "LookAtProperty"));;
  addChild_new modelProps (new_FBXProperty_Object (js "UpVectorProperty"));;
  addChild_new modelProps (new_FBXProperty_Boolean (js "Show") true);;
  addChild_new modelProps (new_FBXProperty_Boolean (js "NegativePercentShapeSupport") true);;
  addChild_new modelProps (new_FBXProperty_Integer (js "DefaultAttributeIndex") (-1));;
  addChild_new modelProps (new_FBXProperty_Boolean (js "Freeze") false);;
  addChild_new modelProps (new_FBXProperty_Boolean (js "LODBox") false);;
  addChild_new modelProps (new_FBXProperty_LCLVector (js "Lcl Translation") 0 0 0);;
  addChild_new modelProps (new_FBXProperty_LCLVector (js "Lcl Rotation") 0 0 0);;
  addChild_new modelProps (new_FBXProperty_LCLVector (js "Lcl Scaling") 0 0 0);;
  visibility ← addChild_new modelProps (new_FBXNodeRecord (js "P") None []);
  addProperty visibility PROPERTY_STRING [str "Visibility"; str "Visibility"; str ""; str "A"];;
  addProperty visibility PROPERTY_DOUBLE [num 1];;
  visibilityInheritance ← addChild_new modelProps (new_FBXNodeRecord (js "P") None []);
  addProperty visibilityInheritance PROPERTY_STRING
    [str "Visibility Inheritance"; str "Visibility Inheritance"; str ""; str ""];;
  addProperty visibilityInheritance PROPERTY_INT_32 [num 1];;
  mret node.

Definition buildTakesNode : Build loc :=
  node ← new_FBXNodeRecord (js "Takes") None [];
  addChild_new node (new_FBXNodeRecord (js "Current") (Some PROPERTY_STRING) [str ""]);;
  mret node.

Definition buildConnectionsNode : Build loc :=
  new_FBXNodeRecord (js "Connections") None [].

Definition buildObjectsNode : Build loc :=
  new_FBXNodeRecord (js "Objects") None [].

(** [rootNodes.add(...)] on the local [Set] of roots. *)
Definition add_root (rootNodes : list loc) (make : Build loc) : Build (list loc) :=
  node ← make;
  mret (Set_add node rootNodes).

Definition buildNodeTree : Build (list loc) :=
  let rootNodes := [] in
  rootNodes ← add_root rootNodes buildExtendedHeaderNode;
  rootNodes ← add_root rootNodes buildFileIDNode;
  rootNodes ← add_root rootNodes buildCreationTimeNode;
  rootNodes ← add_root rootNodes buildCreatorNode;
  rootNodes ← add_root rootNodes buildGlobalSettingsNode;
  rootNodes ← add_root rootNodes buildDocumentsNode;
  rootNodes ← add_root rootNodes (new_FBXNodeRecord (js "References") None []);
  rootNodes ← add_root rootNodes buildDefinitionsNode;
  rootNodes ← add_root rootNodes buildObjectsNode;
  rootNodes ← add_root rootNodes buildConnectionsNode;
  rootNodes ← add_root rootNodes buildTakesNode;
  mret rootNodes.

End Builder.

(** ** The size pass *)

(** The argument of [calculateNodeTreeSize]: a node record, or the [Set] of
    root nodes. *)
Inductive NodeOrSet :=
  | ANode (node : loc)
  | ASet (nodes : list loc).

(** [v.length]: strings and buffers have it. *)
Definition length_field (v : JSValue) : Outcome Z :=
  match v with
  | VString s => Ok (js_length s)
  | VBuffer b => Ok (Z.of_nat (length b))
  | VNumber _ | VBoolean _ => Throw NotANumber
  end.

(** A number read from a field that may be [undefined]. *)
Definition number (field : option Z) : Outcome Z :=
  match field with
  | Some n => Ok n
  | None => Throw NotANumber
  end.

(** The body of the loop over [node.properties]: the running [size] after
    one property. *)
Definition size_property (size : Z) (property : Property) : Outcome Z :=
  let t := type property in
  let size := size + 1 in
  if decide (t = PROPERTY_STRING) then
    n ← Buffer_byteLength (value property);
    mret (size + (4 + n))
  else if decide (t = PROPERTY_BINARY) then
    n ← byteLength_field (value property);
    mret (size + (4 + n))
  else if type_isArray t then
    match type_value t with
    | None => Throw TypeError
    | Some v =>
      w ← number (type_size t);
      n ← length_field v;
      mret (size + w * n)
    end
  else
    w ← number (type_size t);
    mret (size + w).

Fixpoint size_properties (size : Z) (props : list Property) : Outcome Z :=
  match props with
  | [] => mret size
  | property :: rest =>
    size ← size_property size property;
    size_properties size rest
  end.

(** The loops [for (const child of ...) size += calculate(child)]; the
    recursive call is [calc], and each call may store sizes in the heap. *)
Fixpoint size_children (calc : loc -> Heap -> Outcome (Z * Heap))
    (size : Z) (nodes : list loc) (h : Heap) : Outcome (Z * Heap) :=
  match nodes with
  | [] => mret (size, h)
  | child :: rest =>
    '(s, h') ← calc child h;
    size_children calc (size + s) rest h'
  end.

(** [node.size = size; node.propertySize = propertySize]. *)
Definition store_sizes (sz psz : Z) (nd : FBXNodeRecord) : FBXNodeRecord :=
  {| name := name nd; properties := properties nd; children := children nd;
     size := Some sz; propertySize := Some psz |}.

(** [calculateNodeTreeSize(node)]. The pass assigns only the two size
    fields, so the name, properties and children read on entry are the ones
    any later read of the same node sees. The source recurses without a
    guard; [fuel] bounds the depth of the calls. *)
Fixpoint calculateNodeTreeSize (fuel : nat) (node : NodeOrSet) (h : Heap)
  : Outcome (Z * Heap) :=
  match fuel with
  | O => OutOfFuel
  | S fuel' =>
    let size := 0 in
    match node with
    | ASet nodes =>
      size_children (fun child => calculateNodeTreeSize fuel' (ANode child)) size nodes h
    | ANode l =>
      match h !! l with
      | None => Throw TypeError
      | Some nd =>
        (* endOffset, numProperties, propertyListLen, nameLen, name *)
        let size := size + (4 + 4 + 4 + 1 + js_length (name nd)) in
        (* Properties. *)
        let propertySize := size in
        size ← size_properties size (properties nd);
        let propertySize := size - propertySize in
        (* Child nodes. *)
        '(size, h') ← size_children
            (fun child => calculateNodeTreeSize fuel' (ANode child)) size (children nd) h;
        (* Unknown node list padding. *)
        let size := if decide (0 < length (children nd))%nat then size + 13 else size in
        (* Store data sizes for compilation. *)
        mret (size, alter (store_sizes size propertySize) l h')
      end
    end
  end.

(** ** The write pass *)

(** One property: the type code, then the payload the [switch] selects; the
    array types have no case. *)
Definition write_property (property : Property) (buf : BufferWrapper)
  : Outcome BufferWrapper :=
  let t := type property in
  let v := value property in
  buf ← writeUInt8 (type_code t) buf;
  match t with
  | PROPERTY_INT_16 => f ← ToNumber v; writeInt16LE f buf
  | PROPERTY_INT_32 => f ← ToNumber v; writeInt32LE f buf
  | PROPERTY_INT_64 => f ← ToNumber v; n ← BigInt f; writeInt64LE n buf
  | PROPERTY_FLOAT => f ← ToNumber v; writeFloatLE f buf
  | PROPERTY_DOUBLE => f ← ToNumber v; writeDoubleLE f buf
  | PROPERTY_BOOLEAN => writeUInt8 (if truthy v then 1 else 0) buf
  | PROPERTY_STRING =>
    n ← Buffer_byteLength v;
    buf ← writeUInt32LE n buf;
    match v with
    | VString s => writeString s buf
    | _ => Throw TypeError
    end
  | PROPERTY_BINARY =>
    n ← byteLength_field v;
    buf ← writeUInt32LE n buf;
    match v with
    | VBuffer b => writeBuffer b buf
    | _ => Throw TypeError
    end
  | PROPERTY_ARR_INT_32 | PROPERTY_ARR_INT_64 | PROPERTY_ARR_FLOAT
  | PROPERTY_ARR_DOUBLE | PROPERTY_ARR_BOOLEAN => mret buf
  end.

Fixpoint write_properties (props : list Property) (buf : BufferWrapper)
  : Outcome BufferWrapper :=
  match props with
  | [] => mret buf
  | property :: rest =>
    buf ← write_property property buf;
    write_properties rest buf
  end.

(** The loops [for (const child of ...) this.writeNode(child, buf)]. *)
Fixpoint write_children (write : loc -> BufferWrapper -> Outcome BufferWrapper)
    (nodes : list loc) (buf : BufferWrapper) : Outcome BufferWrapper :=
  match nodes with
  | [] => mret buf
  | child :: rest =>
    buf ← write child buf;
    write_children write rest buf
  end.

(** [for (let i = 0; i < n; i++) buf.writeUInt8(0x0)]. *)
Fixpoint write_padding (n : nat) (buf : BufferWrapper) : Outcome BufferWrapper :=
  match n with
  | O => mret buf
  | S n' =>
    buf ← writeUInt8 0 buf;
    write_padding n' buf
  end.

(** [writeNode(node, buf)], with [fuel] as in the size pass. *)
Fixpoint writeNode (fuel : nat) (h : Heap) (node : loc) (buf : BufferWrapper)
  : Outcome BufferWrapper :=
  match fuel with
  | O => OutOfFuel
  | S fuel' =>
    match h !! node with
    | None => Throw TypeError
    | Some nd =>
      (* Write node record header. *)
      sz ← number (size nd);
      buf ← writeUInt32LE (offset buf + sz) buf;
      buf ← writeUInt32LE (Z.of_nat (length (properties nd))) buf;
      psz ← number (propertySize nd);
      buf ← writeUInt32LE psz buf;
      buf ← writeUInt8 (Z.of_nat (length (utf8 (name nd)))) buf;
      buf ← writeString (name nd) buf;
      (* Write node record properties. *)
      buf ← write_properties (properties nd) buf;
      (* Write child node list. *)
      buf ← write_children (writeNode fuel' h) (children nd) buf;
      (* Node list padding. *)
      if decide (0 < length (children nd))%nat then write_padding 13 buf else mret buf
    end
  end.

(** The magic: 'Kaydara FBX Binary', two spaces and a NUL. *)
Definition FBX_MAGIC : jsstring := js "Kaydara FBX Binary  " ++ [0].

(** The preamble: the magic, two bytes of unknown purpose, the version. *)
Definition write_preamble (buf : BufferWrapper) : Outcome BufferWrapper :=
  (* FBX magic is 'Kaydara FBX Binary', two trailing spaces, and a NULL terminator. *)
  buf ← writeString FBX_MAGIC buf;
  (* The purpose of the following two bytes are unknown, but required. *)
  buf ← writeUInt8 0x1A buf;
  buf ← writeUInt8 0x00 buf;
  (* FBX version (7400 = 7.4). *)
  writeUInt32LE FBX_VERSION buf.

(** The part of [write] between [buildNodeTree] and [writeToFile]: size the
    tree, allocate, write the preamble and the root nodes. *)
Definition serialize (fuel : nat) (tree : list loc) (h : Heap)
  : Outcome (BufferWrapper * Heap) :=
  '(treeSize, h) ← calculateNodeTreeSize fuel (ASet tree) h;
  buf ← alloc (treeSize + 27);
  buf ← write_preamble buf;
  buf ← write_children (writeNode fuel h) tree buf;
  mret (buf, h).

(** ** The entry point *)

Section Write.

(** Modelled from the spec: [generics.fileExists], [generics.createDirectory]
    and [BufferWrapper.writeToFile] are not part of the sources at hand;
    the spec (section 6) names them as "does this path exist", "create
    parent directories" and "flush buffer to a path", all fallible. They
    and Node's [path] functions are taken as given, over any type of file
    system states. *)
Variable FileSystem : Type.
Variable fileExists : jsstring -> FileSystem -> bool.
Variable createDirectory : jsstring -> FileSystem -> Outcome FileSystem.
Variable writeToFile : jsstring -> list byte -> FileSystem -> Outcome FileSystem.
Variable path_dirname : jsstring -> jsstring.
Variable path_basename : jsstring -> jsstring.
Variable manifest : Manifest.
Variable clock : nat -> Date.
Variable random : nat -> float.
Variable this : FBXWriter.

(** Everything [write] can change: the runtime and the file system. *)
Record World := {
  runtime : Runtime;
  disk : FileSystem
}.

Definition with_heap (h : Heap) (r : Runtime) : Runtime :=
  {| heap := h; nextId := nextId r; dateCalls := dateCalls r;
     randomCalls := randomCalls r |}.

(** [write(overwrite)]. *)
Definition write (fuel : nat) (overwrite : bool) (w : World) : Outcome World :=
  (* If overwriting is disabled, check file existence. *)
  if negb overwrite && fileExists (out this) (disk w) then mret w
  else
    d ← createDirectory (path_dirname (out this)) (disk w);
    let '(tree, r) := buildNodeTree path_basename manifest clock random this (runtime w) in
    '(buf, h) ← serialize fuel tree (heap r);
    d ← writeToFile (out this) (contents buf) d;
    mret {| runtime := with_heap h r; disk := d |}.

End Write.

Arguments runtime {FileSystem} w.
Arguments disk {FileSystem} w.
Arguments write {FileSystem}.


(** ** Notions used in the statements *)

Definition Zsum (xs : list Z) : Z := foldr Z.add 0 xs.

(** Two records that differ at most in their stored sizes. *)
Definition same_shape (a b : FBXNodeRecord) : Prop :=
  name a = name b /\ properties a = properties b /\ children a = children b.

(** The bytes the size pass counts after the children of a node. *)
Definition trailer_size (nd : FBXNodeRecord) : Z :=
  if decide (0 < length (children nd))%nat then 13 else 0.

(** [sized n h l s]: the node at [l] and every node below it (to depth [n])
    carry stored sizes, and these are the sums the size pass computes from
    the names, properties and children: [s] is the stored size of [l]. *)
Fixpoint sized (n : nat) (h : Heap) (l : loc) (s : Z) : Prop :=
  match n with
  | O => False
  | S n' =>
    exists nd ps cs,
      h !! l = Some nd /\
      size_properties 0 (properties nd) = Ok ps /\
      Forall2 (sized n' h) (children nd) cs /\
      s = 13 + js_length (name nd) + ps + Zsum cs + trailer_size nd /\
      size nd = Some s /\
      propertySize nd = Some ps
  end.

(** The nodes of a tree: the roots and, transitively, their children. *)
Inductive reachable (h : Heap) (roots : list loc) : loc -> Prop :=
  | reachable_root l : l ∈ roots -> reachable h roots l
  | reachable_child p nd c :
      reachable h roots p -> h !! p = Some nd -> c ∈ children nd ->
      reachable h roots c.

(** The names of the allocated node records, by reference. *)
Definition names (h : Heap) : list jsstring := map name h.

(** A builder computation that returns a node it has just allocated under
    the name [nm], leaving the names of the older nodes alone. *)
Definition makes (nm : jsstring) (m : Build loc) : Prop :=
  forall r, (m r).1 = length (heap r) /\
    exists ext, names (heap (m r).2) = names (heap r) ++ nm :: ext.

(** A builder computation that leaves the names of existing nodes alone. *)
Definition grows {A} (m : Build A) : Prop :=
  forall r, exists ext, names (heap (m r).2) = names (heap r) ++ ext.

(** A builder computation that returns [l] whatever the runtime. *)
Definition returns (l : loc) (m : Build loc) : Prop :=
  forall r, (m r).1 = l.

(** A builder computation that leaves the node records alone. *)
Definition keeps_heap {A} (m : Build A) : Prop :=
  forall r, heap (m r).2 = heap r.

(** If [P] holds of the runtime before [m], [Q] holds of its result and the
    runtime after. *)
Definition hoare {A} (P : Runtime -> Prop) (m : Build A) (Q : A -> Runtime -> Prop) : Prop :=
  forall r, P r -> Q (m r).1 (m r).2.

(** The state of the local set [rootNodes] while the tree is built: distinct
    references to existing nodes whose names are, in order, [expected]. *)
Definition roots_ok (roots : list loc) (expected : list jsstring) (r : Runtime) : Prop :=
  NoDup roots /\
  Forall (fun l => (l < length (heap r))%nat) roots /\
  Forall2 (fun root nm => names (heap r) !! root = Some nm) roots expected.

(** The empty runtime. *)
Definition fresh_runtime : Runtime :=
  {| heap := []; nextId := 0; dateCalls := 0; randomCalls := 0 |}.

(** A buffer with [cap] bytes of room holding [bs]. *)
Definition buffer_of (cap : Z) (bs : list byte) : BufferWrapper :=
  {| capacity := cap; written := bs |}.

(** A plain file system for the examples: the files with their contents,
    and the directories. *)
Record SimpleFS := {
  files : list (jsstring * list byte);
  directories : list jsstring
}.

Definition simple_fileExists (p : jsstring) (fs : SimpleFS) : bool :=
  bool_decide (p ∈ map fst (files fs)) || bool_decide (p ∈ directories fs).

Definition simple_createDirectory (p : jsstring) (fs : SimpleFS) : Outcome SimpleFS :=
  Ok {| files := files fs; directories := p :: directories fs |}.

Definition simple_writeToFile (p : jsstring) (bs : list byte) (fs : SimpleFS)
  : Outcome SimpleFS :=
  Ok {| files := (p, bs) :: filter (fun f => f.1 <> p) (files fs);
        directories := directories fs |}.

(** The part of a path up to its last slash, and the part after it. *)
Fixpoint split_path (p : jsstring) : jsstring * jsstring :=
  match p with
  | [] => ([], [])
  | c :: rest =>
    let '(dir, base) := split_path rest in
    if decide (47 ∈ rest) then (c :: dir, base)
    else if c =? 47 then ([], rest) else ([], c :: rest)
  end.

Definition posix_dirname (p : jsstring) : jsstring := (split_path p).1.
Definition posix_basename (p : jsstring) : jsstring := (split_path p).2.

(** [buf'] is [buf] with the bytes [bs] written at its cursor. *)
Definition appended (buf buf' : BufferWrapper) (bs : list byte) : Prop :=
  buf' = buffer_of (capacity buf) (written buf ++ bs).

(** What the class maintains of each record: the two sets hold no
    duplicates, the children are references to existing records, and the
    property objects have identities already handed out. *)
Definition well_formed_node (records ids : nat) (nd : FBXNodeRecord) : Prop :=
  NoDup (children nd) /\
  Forall (fun c => (c < records)%nat) (children nd) /\
  NoDup (map pid (properties nd)) /\
  Forall (fun p => (pid p < ids)%nat) (properties nd).

Definition well_formed (r : Runtime) : Prop :=
  Forall (well_formed_node (length (heap r)) (nextId r)) (heap r).

(** A heap without cycles: every child exists and has a lower rank than
    its parent. *)
Definition ranked (rank : loc -> nat) (h : Heap) : Prop :=
  forall l nd c, h !! l = Some nd -> c ∈ children nd ->
    is_Some (h !! c) /\ (rank c < rank l)%nat.

(** A property whose value has the shape and the range its type asks for:
    the ones both passes accept. *)
Definition writable (p : Property) : bool :=
  match type p with
  | PROPERTY_INT_16 =>
    match ToNumber (value p) with
    | Ok f => negb (PrimFloat.ltb f (-32768)%float || PrimFloat.ltb 32767%float f)
    | _ => false
    end
  | PROPERTY_INT_32 =>
    match ToNumber (value p) with
    | Ok f => negb (PrimFloat.ltb f (-2147483648)%float || PrimFloat.ltb 2147483647%float f)
    | _ => false
    end
  | PROPERTY_INT_64 =>
    match ToNumber (value p) ≫= BigInt with
    | Ok n => (-9223372036854775808 <=? n) && (n <=? 9223372036854775807)
    | _ => false
    end
  | PROPERTY_FLOAT | PROPERTY_DOUBLE =>
    match ToNumber (value p) with
    | Ok _ => true
    | _ => false
    end
  | PROPERTY_BOOLEAN => true
  | PROPERTY_STRING =>
    match value p with
    | VString _ => true
    | _ => false
    end
  | PROPERTY_BINARY =>
    match value p with
    | VBuffer _ => true
    | _ => false
    end
  | PROPERTY_ARR_INT_32 | PROPERTY_ARR_INT_64 | PROPERTY_ARR_FLOAT
  | PROPERTY_ARR_DOUBLE | PROPERTY_ARR_BOOLEAN => false
  end.

(** A node the two passes treat alike: its name has as many UTF-8 bytes as
    code units, at most 255 of them, and its properties are writable. *)
Definition agreeable (nd : FBXNodeRecord) : Prop :=
  Z.of_nat (length (utf8 (name nd))) = js_length (name nd) /\
  js_length (name nd) <= 255 /\
  Forall (fun p => writable p = true) (properties nd).

(** A node with an array-typed property on it or somewhere below it. *)
Inductive has_array_property (h : Heap) : loc -> Prop :=
  | array_here l nd p :
      h !! l = Some nd -> p ∈ properties nd -> type_isArray (type p) = true ->
      has_array_property h l
  | array_below l nd c :
      h !! l = Some nd -> c ∈ children nd -> has_array_property h c ->
      has_array_property h l.

(** The bytes a first export leaves at [out this]: [write] run in the empty
    world over the plain file system, and the file read back. *)
Definition export (manifest : Manifest) (clock : nat -> Date) (random : nat -> float)
    (this : FBXWriter) (fuel : nat) : option (list byte) :=
  match write simple_fileExists simple_createDirectory simple_writeToFile
              posix_dirname posix_basename manifest clock random this fuel true
              {| runtime := fresh_runtime; disk := {| files := []; directories := [] |} |}
  with
  | Ok w => snd <$> head (files (disk w))
  | _ => None
  end.

(** A clock stopped at 2 November 2026, 5 minutes, 7 seconds and 12
    milliseconds past the hour [hour], local time being UTC. *)
Definition clock_at (hour : Z) : nat -> Date := fun _ =>
  {| getFullYear := 2026; getMonth := 10; getDate := 2; getHours := hour;
     getMinutes := 5; getSeconds := 7; getMilliseconds := 12;
     getUTCFullYear := 2026; getUTCMonth := 10; getUTCHours := hour;
     getUTCMinutes := 5; getUTCSeconds := 7; getUTCMilliseconds := 12 |}.

(** A clock stopped at 19 January 2031, 23:48:30.999, local time being UTC:
    every reading differs from those of [clock_at 10], none in its number
    of digits. *)
Definition clock_later : nat -> Date := fun _ =>
  {| getFullYear := 2031; getMonth := 0; getDate := 19; getHours := 23;
     getMinutes := 48; getSeconds := 30; getMilliseconds := 999;
     getUTCFullYear := 2031; getUTCMonth := 0; getUTCHours := 23;
     getUTCMinutes := 48; getUTCSeconds := 30; getUTCMilliseconds := 999 |}.

(** A payload in a file: the bytes that introduce it, where it starts and
    how long it is. *)
Record Field := {
  label : list byte;
  start : Z;
  extent : Z
}.

Definition in_field (i : Z) (f : Field) : bool :=
  (start f <=? i) && (i <? start f + extent f).

Fixpoint blank_from (i : Z) (fields : list Field) (bs : list byte) : list byte :=
  match bs with
  | [] => []
  | b :: bs' =>
    (if existsb (in_field i) fields then 0 else b) :: blank_from (i + 1) fields bs'
  end.

(** The file with the payloads of [fields] blanked. *)
Definition blank (fields : list Field) (bs : list byte) : list byte :=
  blank_from 0 fields bs.

(** The label of [f] stands right before its payload. *)
Definition labelled (bs : list byte) (f : Field) : Prop :=
  take (length (label f)) (drop (Z.to_nat (start f) - length (label f)) bs) = label f.

#[global] Instance labelled_dec bs f : Decision (labelled bs f).
Proof. unfold labelled. apply _. Defined.

(** The file-id and timestamp payloads of an export whose three timestamp
    strings have 23 bytes, with the manifest and destination of the
    examples: the seven Int32 readings of the clock under CreationTimeStamp,
    the two DateTime_GMT strings, the file id, the CreationTime string. *)
Definition timestamp_fields : list Field :=
  [ {| label := utf8 (js "Year") ++ [0x49]; start := 225; extent := 4 |};
    {| label := utf8 (js "Month") ++ [0x49]; start := 248; extent := 4 |};
    {| label := utf8 (js "Day") ++ [0x49]; start := 269; extent := 4 |};
    {| label := utf8 (js "Hour") ++ [0x49]; start := 291; extent := 4 |};
    {| label := utf8 (js "Minute") ++ [0x49]; start := 315; extent := 4 |};
    {| label := utf8 (js "Second") ++ [0x49]; start := 339; extent := 4 |};
    {| label := utf8 (js "Millisecond") ++ [0x49]; start := 368; extent := 4 |};
    {| label := utf8 (js "Original|DateTime_GMT") ++ [0x53] ++ le_bytes 4 8
                  ++ utf8 (js "DateTime") ++ [0x53] ++ le_bytes 4 0 ++ [0x53] ++ le_bytes 4 0
                  ++ [0x53] ++ le_bytes 4 23;
       start := 1349; extent := 23 |};
    {| label := utf8 (js "LastSaved|DateTime_GMT") ++ [0x53] ++ le_bytes 4 8
                  ++ utf8 (js "DateTime") ++ [0x53] ++ le_bytes 4 0 ++ [0x53] ++ le_bytes 4 0
                  ++ [0x53] ++ le_bytes 4 23;
       start := 1737; extent := 23 |};
    {| label := utf8 (js "FileId") ++ [0x52] ++ le_bytes 4 16; start := 1823; extent := 16 |};
    {| label := utf8 (js "CreationTime") ++ [0x53] ++ le_bytes 4 23;
       start := 1869; extent := 23 |} ].


(** ** Notions used in the further properties *)

(** [descendant h p d]: [d] is a child of [p], or a child of a child, and
    so on. A node that is its own descendant lies on a cycle. *)
Inductive descendant (h : Heap) : loc -> loc -> Prop :=
  | descendant_child p nd c :
      h !! p = Some nd -> c ∈ children nd -> descendant h p c
  | descendant_below p nd c d :
      h !! p = Some nd -> c ∈ children nd -> descendant h c d -> descendant h p d.

(** [buf'] is [buf] after some writes at the cursor: same capacity, the
    bytes written before still in place, and the cursor within the buffer
    if it was. *)
Definition grown (buf buf' : BufferWrapper) : Prop :=
  (exists bs, appended buf buf' bs) /\
  (offset buf <= capacity buf -> offset buf' <= capacity buf').

(** Node records the builder can go on from and the two passes accept:
    every record is agreeable, and every child was allocated after its
    parent and exists, so that no record is its own descendant. *)
Definition tidy (h : Heap) : Prop :=
  Forall agreeable h /\
  forall l nd c, h !! l = Some nd -> c ∈ children nd -> (l < c < length h)%nat.

(** A reading of the clock whose local date and time of day are those of a
    calendar: what [new Date()] gives. *)
Definition calendar (d : Date) : Prop :=
  0 <= getFullYear d <= 9999 /\ 0 <= getMonth d <= 11 /\ 1 <= getDate d <= 31 /\
  0 <= getHours d <= 23 /\ 0 <= getMinutes d <= 59 /\ 0 <= getSeconds d <= 59 /\
  0 <= getMilliseconds d <= 999.

(** A name the two passes count alike and the name-length byte can hold. *)
Definition short_ascii (nm : jsstring) : Prop :=
  Forall (fun c => c < 128) nm /\ js_length nm <= 255.

(** Judgements on builder computations run on tidy node records of which at
    least [n] exist. [allocates n m]: [m] leaves the records tidy and
    returns one it has allocated, not among the first [n]. *)
Definition allocates (n : nat) (m : Build loc) : Prop :=
  forall r, tidy (heap r) -> (n <= length (heap r))%nat ->
    tidy (heap (m r).2) /\ (n <= (m r).1 < length (heap (m r).2))%nat.

(** [allocates_all n m]: the same for a list of records. *)
Definition allocates_all (n : nat) (m : Build (list loc)) : Prop :=
  forall r, tidy (heap r) -> (n <= length (heap r))%nat ->
    tidy (heap (m r).2) /\ (n <= length (heap (m r).2))%nat /\
    Forall (fun c => (n <= c < length (heap (m r).2))%nat) (m r).1.

(** [proceeds n m]: [m] leaves the records tidy and removes none. *)
Definition proceeds {A} (n : nat) (m : Build A) : Prop :=
  forall r, tidy (heap r) -> (n <= length (heap r))%nat ->
    tidy (heap (m r).2) /\ (n <= length (heap (m r).2))%nat.

(** [hands_back l n m]: [m] proceeds and returns [l]. *)
Definition hands_back (l : loc) (n : nat) (m : Build loc) : Prop :=
  forall r, tidy (heap r) -> (n <= length (heap r))%nat ->
    tidy (heap (m r).2) /\ (m r).1 = l /\ (n <= length (heap (m r).2))%nat.

(** The state of the local set [rootNodes] while a tidy tree is built: the
    records are tidy, at least [n] of them exist, and the roots are among
    them. *)
Definition roots_tidy (n : nat) (roots : list loc) (r : Runtime) : Prop :=
  tidy (heap r) /\ (n <= length (heap r))%nat /\
  Forall (fun l => (l < length (heap r))%nat) roots.

(** A reading of the clock whose UTC date and time are those of a calendar
    with a four-digit year (and whose local day of the month, which the
    timestamp strings use, is one too). *)
Definition utc_calendar (d : Date) : Prop :=
  1000 <= getUTCFullYear d <= 9999 /\ 0 <= getUTCMonth d <= 11 /\ 1 <= getDate d <= 31 /\
  0 <= getUTCHours d <= 23 /\ 0 <= getUTCMinutes d <= 59 /\ 0 <= getUTCSeconds d <= 59 /\
  0 <= getUTCMilliseconds d <= 999.

(** The number of decimal digits of a number below 10000. *)
Definition digits (n : Z) : Z :=
  if n <? 10 then 1 else if n <? 100 then 2 else if n <? 1000 then 3 else 4.

(** [consumes dates randoms records ids m]: whatever the runtime, [m] reads
    the clock [dates] times, draws [randoms] random numbers, allocates
    [records] node records and makes [ids] property objects. *)
Definition consumes {A} (dates randoms records ids : nat) (m : Build A) : Prop :=
  forall r,
    dateCalls (m r).2 = (dateCalls r + dates)%nat /\
    randomCalls (m r).2 = (randomCalls r + randoms)%nat /\
    length (heap (m r).2) = (length (heap r) + records)%nat /\
    nextId (m r).2 = (nextId r + ids)%nat.

(** The number a reader finds in little-endian bytes. *)
Definition le_value (bs : list byte) : Z := foldr (fun b acc => b + 256 * acc) 0 bs.

(** The unsigned 32-bit integer a reader finds at offset [off] of a file. *)
Definition u32_at (bs : list byte) (off : Z) : Z :=
  le_value (take 4 (drop (Z.to_nat off) bs)).

(** * Properties *)

(** ** The buffer *)

Lemma put_ok bs buf :
  offset buf + Z.of_nat (length bs) <= capacity buf ->
  put bs buf = Ok (buffer_of (capacity buf) (written buf ++ bs)).
Proof.
  intros H. unfold put.
  destruct (Z.leb_spec (offset buf + Z.of_nat (length bs)) (capacity buf)); [done | lia].
Qed.

Lemma put_inv bs buf buf' :
  put bs buf = Ok buf' ->
  buf' = buffer_of (capacity buf) (written buf ++ bs) /\
  offset buf + Z.of_nat (length bs) <= capacity buf.
Proof.
  unfold put.
  destruct (Z.leb_spec (offset buf + Z.of_nat (length bs)) (capacity buf)); [|done].
  intros [= <-]. done.
Qed.

Lemma le_bytes_length n v : length (le_bytes n v) = n.
Proof. unfold le_bytes. by rewrite length_map, length_seq. Qed.

Lemma offset_buffer_of cap bs : offset (buffer_of cap bs) = Z.of_nat (length bs).
Proof. done. Qed.

(** ** The preamble *)

(** C5: for an empty sequence of root nodes the serializer returns a buffer
    of exactly 27 bytes: the 21 bytes of the magic ('Kaydara FBX Binary',
    two spaces, NUL), 0x1A, 0x00, and 7400 as four little-endian bytes. *)
Theorem serialize_empty_tree (fuel : nat) (h : Heap) :
  exists buf,
    serialize (S fuel) [] h = Ok (buf, h) /\
    contents buf =
      (utf8 (js "Kaydara FBX Binary") ++ [32; 32; 0]) ++ [0x1A] ++ [0x00] ++ le_bytes 4 7400 /\
    length (utf8 (js "Kaydara FBX Binary") ++ [32; 32; 0]) = 21%nat /\
    length (contents buf) = 27%nat.
Proof.
  eexists. split; [reflexivity|]. by vm_compute.
Qed.

(** ** Skipping an existing destination *)

(** C6: with overwriting disabled and the destination present, [write]
    returns normally and leaves the world as it found it: the runtime (no
    object allocated, no clock or random number read, no size stored) and
    the file system (no directory created, no byte written), whatever the
    file system operations would have done. *)
Theorem write_skips_existing
    (FileSystem : Type)
    (fileExists : jsstring -> FileSystem -> bool)
    (createDirectory : jsstring -> FileSystem -> Outcome FileSystem)
    (writeToFile : jsstring -> list byte -> FileSystem -> Outcome FileSystem)
    (path_dirname path_basename : jsstring -> jsstring)
    (manifest : Manifest) (clock : nat -> Date) (random : nat -> float)
    (this : FBXWriter) (fuel : nat) (w : World FileSystem) :
  fileExists (out this) (disk w) = true ->
  write fileExists createDirectory writeToFile path_dirname path_basename
        manifest clock random this fuel false w = Ok w.
Proof.
  intros Hexists. unfold write. by rewrite Hexists.
Qed.

Lemma write_skips_existing_witness :
  let this := {| out := js "out/model.fbx" |} in
  let w := {| runtime := fresh_runtime;
              disk := {| files := [(js "out/model.fbx", [1; 2; 3])]; directories := [] |} |} in
  simple_fileExists (out this) (disk w) = true /\
  write simple_fileExists simple_createDirectory simple_writeToFile
        posix_dirname posix_basename
        {| version := js "0.1.0"; flavour := js "win-x64" |}
        (fun _ => Build_Date 2020 0 1 0 0 0 0 2020 0 0 0 0 0) (fun _ => 0%float)
        this 8 false w = Ok w.
Proof.
  split; [by vm_compute | apply write_skips_existing; by vm_compute].
Defined.

(** ** Single writes *)

Lemma put_int_ok n lo hi v buf :
  lo <= v <= hi ->
  offset buf + Z.of_nat n <= capacity buf ->
  put_int n lo hi v buf = Ok (buffer_of (capacity buf) (written buf ++ le_bytes n v)).
Proof.
  intros Hv Hroom. unfold put_int.
  destruct (Z.ltb_spec v lo); [lia|]. destruct (Z.ltb_spec hi v); [lia|]. simpl.
  apply put_ok. by rewrite le_bytes_length.
Qed.

Lemma put_int_inv n lo hi v buf buf' :
  put_int n lo hi v buf = Ok buf' ->
  buf' = buffer_of (capacity buf) (written buf ++ le_bytes n v) /\
  lo <= v <= hi /\ offset buf + Z.of_nat n <= capacity buf.
Proof.
  unfold put_int.
  destruct (Z.ltb_spec v lo); [done|]. destruct (Z.ltb_spec hi v); [done|]. simpl.
  intros [-> Hroom]%put_inv. rewrite le_bytes_length in Hroom. repeat split; lia.
Qed.

Lemma put_int_of_float_inv n lo hi f buf buf' :
  put_int_of_float n lo hi f buf = Ok buf' ->
  exists bs, length bs = n /\
    buf' = buffer_of (capacity buf) (written buf ++ bs) /\
    offset buf + Z.of_nat n <= capacity buf.
Proof.
  unfold put_int_of_float. destruct (_ || _)%bool; [done|].
  intros [-> Hroom]%put_inv. rewrite le_bytes_length in Hroom.
  eexists. split; [apply le_bytes_length | done].
Qed.

Lemma writeUInt32LE_ok v buf :
  0 <= v <= 4294967295 ->
  offset buf + 4 <= capacity buf ->
  writeUInt32LE v buf = Ok (buffer_of (capacity buf) (written buf ++ le_bytes 4 v)).
Proof. intros. by apply put_int_ok. Qed.

Lemma writeUInt8_ok v buf :
  0 <= v <= 255 ->
  offset buf + 1 <= capacity buf ->
  writeUInt8 v buf = Ok (buffer_of (capacity buf) (written buf ++ [v mod 256])).
Proof.
  intros Hv Hroom. unfold writeUInt8. rewrite put_int_ok by done.
  do 3 f_equal. unfold le_bytes. simpl. rewrite Z.shiftr_0_r.
  change 255 with (Z.ones 8). by rewrite Z.land_ones.
Qed.

Lemma writeString_ok s buf :
  offset buf + Z.of_nat (length (utf8 s)) <= capacity buf ->
  writeString s buf = Ok (buffer_of (capacity buf) (written buf ++ utf8 s)).
Proof. apply put_ok. Qed.

Lemma length_app_Z {A} (xs ys : list A) :
  Z.of_nat (length (xs ++ ys)) = Z.of_nat (length xs) + Z.of_nat (length ys).
Proof. rewrite length_app. lia. Qed.

(** ** Allocation *)

Lemma alter_snoc {A} (f : A -> A) (xs : list A) (x : A) :
  alter f (length xs) (xs ++ [x]) = xs ++ [f x].
Proof.
  replace (length xs) with (length xs + 0)%nat by lia.
  by rewrite alter_app_r.
Qed.

Lemma lookup_snoc {A} (xs : list A) (x : A) : (xs ++ [x]) !! length xs = Some x.
Proof. by apply list_lookup_middle. Qed.

(** ** A leaf with one Int32 property *)

(** C4: for the leaf ['X'] with the one Int32 property 42, built on any
    runtime: the header cost is 4+4+4+1+1 = 14, the size pass returns 19 and
    stores size 19 and property size 5 (= 1+4), and the write pass, run at
    any cursor with room for 19 bytes, emits exactly: cursor+19 (u32 LE),
    1 (u32 LE), 5 (u32 LE), the length byte 1, 'X', the type code 0x49, and
    42 as four little-endian bytes; no trailer follows. *)
Theorem leaf_X_int32_42 (r : Runtime) (fuel : nat) (buf : BufferWrapper) :
  offset buf + 19 <= capacity buf ->
  offset buf + 19 <= 4294967295 ->
  let m := new_FBXNodeRecord (js "X") (Some PROPERTY_INT_32) [num 42] r in
  4 + 4 + 4 + 1 + js_length (js "X") = 14 /\
  exists h',
    calculateNodeTreeSize (S fuel) (ANode m.1) (heap m.2) = Ok (19, h') /\
    size <$> h' !! m.1 = Some (Some 19) /\
    propertySize <$> h' !! m.1 = Some (Some (1 + 4)) /\
    writeNode (S fuel) h' m.1 buf =
      Ok (buffer_of (capacity buf)
            (written buf ++ le_bytes 4 (offset buf + 19) ++ [1; 0; 0; 0] ++ [5; 0; 0; 0]
               ++ [1] ++ [88] ++ [0x49] ++ [42; 0; 0; 0])).
Proof.
  intros Hroom Hmax m. split; [done|].
  assert (0 <= offset buf) by (unfold offset; lia).
  unfold m, new_FBXNodeRecord, addProperty, new_object, new_property, update. simpl.
  rewrite alter_snoc. unfold add_property, Set_add_property. simpl.
  eexists. split.
  { rewrite lookup_snoc. simpl. rewrite alter_snoc. reflexivity. }
  rewrite lookup_snoc. simpl. do 2 (split; [done|]).
  rewrite (writeUInt32LE_ok (offset buf + 19)) by lia. simpl.
  rewrite writeUInt32LE_ok by (rewrite ?offset_buffer_of, ?length_app_Z, ?le_bytes_length; unfold offset in *; simpl; lia).
  simpl.
  rewrite writeUInt32LE_ok by (rewrite ?offset_buffer_of, ?length_app_Z, ?le_bytes_length; unfold offset in *; simpl; lia).
  simpl.
  rewrite writeUInt8_ok by (rewrite ?offset_buffer_of, ?length_app_Z, ?le_bytes_length; unfold offset in *; simpl; lia).
  simpl.
  rewrite writeString_ok by (rewrite ?offset_buffer_of, ?length_app_Z, ?le_bytes_length; unfold offset in *; simpl; lia).
  simpl. unfold write_property. simpl.
  rewrite writeUInt8_ok by (rewrite ?offset_buffer_of, ?length_app_Z, ?le_bytes_length; unfold offset in *; simpl; lia).
  simpl. unfold writeInt32LE, put_int_of_float.
  replace (_ || _)%bool with false by (by vm_compute).
  rewrite put_ok by (rewrite ?offset_buffer_of, ?length_app_Z, ?le_bytes_length; unfold offset in *; simpl; lia).
  simpl. unfold buffer_of. do 2 f_equal.
  rewrite <- !app_assoc. do 1 f_equal.
Qed.

Lemma leaf_X_int32_42_witness :
  let r := fresh_runtime in
  let buf := buffer_of 46 (repeat 0 27) in
  let m := new_FBXNodeRecord (js "X") (Some PROPERTY_INT_32) [num 42] r in
  offset buf + 19 <= capacity buf /\
  offset buf + 19 <= 4294967295 /\
  4 + 4 + 4 + 1 + js_length (js "X") = 14 /\
  exists h',
    calculateNodeTreeSize 1 (ANode m.1) (heap m.2) = Ok (19, h') /\
    size <$> h' !! m.1 = Some (Some 19) /\
    propertySize <$> h' !! m.1 = Some (Some (1 + 4)) /\
    writeNode 1 h' m.1 buf =
      Ok (buffer_of (capacity buf)
            (written buf ++ le_bytes 4 (offset buf + 19) ++ [1; 0; 0; 0] ++ [5; 0; 0; 0]
               ++ [1] ++ [88] ++ [0x49] ++ [42; 0; 0; 0])).
Proof.
  intros r buf m.
  assert (H1 : offset buf + 19 <= capacity buf) by (vm_compute; discriminate).
  assert (H2 : offset buf + 19 <= 4294967295) by (vm_compute; discriminate).
  split; [exact H1|]. split; [exact H2|].
  exact (leaf_X_int32_42 r 0 buf H1 H2).
Defined.

(** ** Outcomes *)

Lemma bind_Ok {A B} (m : Outcome A) (k : A -> Outcome B) (b : B) :
  m ≫= k = Ok b -> exists a, m = Ok a /\ k a = Ok b.
Proof. destruct m; simpl; [eauto | done | done]. Qed.

Ltac bind_inv H :=
  let a := fresh "x" in
  let Ha := fresh "Hx" in
  apply bind_Ok in H; destruct H as (a & Ha & H).

(** ** The size pass keeps the shape of the heap *)

Lemma same_shape_refl nd : same_shape nd nd.
Proof. done. Qed.

Lemma same_shape_trans a b c : same_shape a b -> same_shape b c -> same_shape a c.
Proof. unfold same_shape. intros (-> & -> & ->) (-> & -> & ->). done. Qed.

Lemma same_heap_refl (h : Heap) : Forall2 same_shape h h.
Proof. apply Forall2_same_length_lookup. split; [done|]. intros i x y Hx Hy. by simplify_eq. Qed.

Lemma same_heap_trans (h1 h2 h3 : Heap) :
  Forall2 same_shape h1 h2 -> Forall2 same_shape h2 h3 -> Forall2 same_shape h1 h3.
Proof.
  intros H12. revert h3. induction H12; intros h3 H23; inversion H23; subst; constructor;
    eauto using same_shape_trans.
Qed.

Lemma same_heap_store (h : Heap) l sz psz :
  Forall2 same_shape h (alter (store_sizes sz psz) l h).
Proof.
  revert l. induction h as [|nd h IH]; intros [|l]; simpl;
    repeat constructor; auto using same_heap_refl. apply IH.
Qed.

Lemma same_heap_lookup (h h' : Heap) l nd :
  Forall2 same_shape h h' -> h !! l = Some nd ->
  exists nd', h' !! l = Some nd' /\ same_shape nd nd'.
Proof. intros Hs Hl. by eapply Forall2_lookup_l. Qed.

Lemma size_children_shape calc a cs (h : Heap) s h' :
  (forall c (h1 : Heap) s1 h2, calc c h1 = Ok (s1, h2) -> Forall2 same_shape h1 h2) ->
  size_children calc a cs h = Ok (s, h') -> Forall2 same_shape h h'.
Proof.
  intros Hcalc. revert a h. induction cs as [|c cs IH]; intros a h; simpl.
  - intros [= _ <-]. apply same_heap_refl.
  - intros H. bind_inv H. destruct x as [s1 h1]. simpl in H.
    eapply same_heap_trans; eauto.
Qed.

Lemma calculateNodeTreeSize_shape fuel arg (h : Heap) s h' :
  calculateNodeTreeSize fuel arg h = Ok (s, h') -> Forall2 same_shape h h'.
Proof.
  revert arg h s h'. induction fuel as [|fuel IH]; intros arg h s h'; [done|].
  simpl. destruct arg as [l|nodes].
  - destruct (h !! l) as [nd|]; [|done]. intros H.
    bind_inv H. bind_inv H. destruct x0 as [s1 h1]. simpl in H. injection H as _ <-.
    eapply same_heap_trans; [|apply same_heap_store].
    eapply size_children_shape; [|done]. intros c h2 s2 h3. apply IH.
  - apply size_children_shape. intros c h2 s2 h3. apply IH.
Qed.

(** ** Sized trees *)

Lemma size_property_shift a p :
  size_property a p = size_property 0 p ≫= λ k, mret (a + k).
Proof.
  unfold size_property. repeat case_decide.
  - destruct (Buffer_byteLength (value p)); simpl; [f_equal; lia | done | done].
  - destruct (byteLength_field (value p)); simpl; [f_equal; lia | done | done].
  - destruct (type_isArray (type p)).
    + destruct (type_value (type p)); [|done].
      destruct (number (type_size (type p))); simpl; [|done|done].
      destruct (length_field j); simpl; [f_equal; lia | done | done].
    + destruct (number (type_size (type p))); simpl; [f_equal; lia | done | done].
Qed.

Lemma size_properties_shift a ps :
  size_properties a ps = size_properties 0 ps ≫= λ k, mret (a + k).
Proof.
  revert a. induction ps as [|p ps IH]; intros a; simpl.
  - unfold mret, Outcome_ret. f_equal. lia.
  - rewrite (size_property_shift a). destruct (size_property 0 p) as [k| |]; simpl; [|done|done].
    rewrite (IH (a + k)), (IH k).
    destruct (size_properties 0 ps); simpl; [|done|done].
    unfold mret, Outcome_ret. f_equal. lia.
Qed.

Lemma size_properties_from_zero a ps b :
  size_properties a ps = Ok b -> size_properties 0 ps = Ok (b - a).
Proof.
  rewrite size_properties_shift. destruct (size_properties 0 ps); simpl; [|done|done].
  intros [= <-]. f_equal. lia.
Qed.

Lemma sized_stored n (h : Heap) l s :
  sized n h l s -> exists nd, h !! l = Some nd /\ size nd = Some s.
Proof. destruct n; [done|]. intros (nd & ps & cs & ? & ? & ? & ? & ? & ?). eauto. Qed.

Lemma sized_functional n m (h : Heap) l s s' :
  sized n h l s -> sized m h l s' -> s = s'.
Proof.
  intros (nd & Hl & Hs)%sized_stored (nd' & Hl' & Hs')%sized_stored. congruence.
Qed.

Lemma Forall2_sized_functional n m (h : Heap) cs ss ss' :
  Forall2 (sized n h) cs ss -> Forall2 (sized m h) cs ss' -> ss = ss'.
Proof.
  intros H. revert ss'. induction H; intros ss' H'; inversion H'; subst; [done|].
  f_equal; eauto using sized_functional.
Qed.

Lemma sized_mono n m (h : Heap) l s :
  (n <= m)%nat -> sized n h l s -> sized m h l s.
Proof.
  revert m l s. induction n as [|n IH]; intros m l s Hle; [done|].
  destruct m as [|m]; [lia|].
  intros (nd & ps & cs & Hl & Hps & Hcs & Hs & Hsz & Hpsz).
  exists nd, ps, cs. repeat split; try done.
  eapply Forall2_impl; [done|]. intros c sc. apply IH. lia.
Qed.

(** Storing at [l] the sizes the pass has computed from the children of [l]
    keeps every sized node sized: a node already sized holds these very
    numbers. *)
Lemma sized_store (h : Heap) l nd ps ss m s :
  h !! l = Some nd ->
  size_properties 0 (properties nd) = Ok ps ->
  Forall2 (sized m h) (children nd) ss ->
  s = 13 + js_length (name nd) + ps + Zsum ss + trailer_size nd ->
  forall n l' s', sized n h l' s' -> sized n (alter (store_sizes s ps) l h) l' s'.
Proof.
  intros Hl Hps Hss Hs. induction n as [|n IH]; intros l' s'; [done|].
  intros (nd' & ps' & cs' & Hl' & Hps' & Hcs' & Hs' & Hsz' & Hpsz').
  assert (Hkids : Forall2 (sized n (alter (store_sizes s ps) l h)) (children nd') cs').
  { eapply Forall2_impl; [done|]. intros c sc. apply IH. }
  destruct (decide (l' = l)) as [->|Hne].
  - subst s s'. rewrite Hl in Hl'. injection Hl' as <-.
    assert (ps' = ps) as -> by congruence.
    assert (cs' = ss) as -> by eauto using Forall2_sized_functional.
    exists (store_sizes (13 + js_length (name nd) + ps + Zsum ss + trailer_size nd) ps nd), ps, ss.
    rewrite list_lookup_alter_eq, Hl. done.
  - exists nd', ps', cs'. rewrite list_lookup_alter_ne by done. done.
Qed.

Lemma size_children_sized fuel a cs (h : Heap) s h' :
  (forall c (h1 : Heap) s1 h2,
     calculateNodeTreeSize fuel (ANode c) h1 = Ok (s1, h2) ->
     sized fuel h2 c s1 /\ forall n l' s', sized n h1 l' s' -> sized n h2 l' s') ->
  size_children (fun child => calculateNodeTreeSize fuel (ANode child)) a cs h = Ok (s, h') ->
  exists ss, Forall2 (sized fuel h') cs ss /\ s = a + Zsum ss /\
    forall n l' s', sized n h l' s' -> sized n h' l' s'.
Proof.
  intros Hcalc. revert a h. induction cs as [|c cs IH]; intros a h; simpl.
  - intros [= <- <-]. exists []. split; [constructor|]. split; [simpl; lia | done].
  - intros H. bind_inv H. destruct x as [s1 h1]. simpl in H.
    destruct (Hcalc _ _ _ _ Hx) as [Hc Hkeep].
    destruct (IH _ _ H) as (ss & Hss & -> & Hkeep').
    exists (s1 :: ss). split; [constructor; auto|]. split; [simpl; lia | auto].
Qed.

(** The size pass leaves the node it was called on sized, and every node
    that was sized before stays so. *)
Lemma calculateNodeTreeSize_sized fuel l (h : Heap) s h' :
  calculateNodeTreeSize fuel (ANode l) h = Ok (s, h') ->
  sized fuel h' l s /\ forall n l' s', sized n h l' s' -> sized n h' l' s'.
Proof.
  revert l h s h'. induction fuel as [|fuel IH]; intros l h s h'; [done|].
  simpl. destruct (h !! l) as [nd|] eqn:Hl; [|done]. intros H.
  bind_inv H. rename x into size1. bind_inv H. destruct x as [s1 hk]. simpl in H.
  injection H as <- <-.
  apply size_properties_from_zero in Hx.
  pose proof (size_children_shape _ _ _ _ _ _
    (fun c h1 s1 h2 => calculateNodeTreeSize_shape fuel (ANode c) h1 s1 h2) Hx0) as Hshape.
  destruct (size_children_sized _ _ _ _ _ _ (fun c h1 s1 h2 => IH c h1 s1 h2) Hx0)
    as (ss & Hss & -> & Hkeep).
  destruct (same_heap_lookup _ _ _ _ Hshape Hl) as (ndk & Hlk & Hn & Hp & Hc).
  assert (Hs : (if decide (0 < length (children nd))%nat then size1 + Zsum ss + 13
                else size1 + Zsum ss)
               = 13 + js_length (name ndk) + (size1 - (0 + (4 + 4 + 4 + 1 + js_length (name nd))))
                 + Zsum ss + trailer_size ndk).
  { unfold trailer_size. rewrite <- Hn, <- Hc. case_decide; lia. }
  rewrite Hs. rewrite Hp in Hx. rewrite Hc in Hss.
  pose proof (sized_store hk l ndk _ ss fuel _ Hlk Hx Hss eq_refl) as Hstore.
  split; [|by auto].
  exists (store_sizes (13 + js_length (name ndk)
            + (size1 - (0 + (4 + 4 + 4 + 1 + js_length (name nd)))) + Zsum ss + trailer_size ndk)
            (size1 - (0 + (4 + 4 + 4 + 1 + js_length (name nd)))) ndk),
         (size1 - (0 + (4 + 4 + 4 + 1 + js_length (name nd)))), ss.
  rewrite list_lookup_alter_eq, Hlk. simpl. repeat split; try done.
  eapply Forall2_impl; [done|]. intros c sc. apply Hstore.
Qed.

(** ** What the write pass emits *)


Lemma appended_nil buf : appended buf buf [].
Proof. unfold appended, buffer_of. rewrite app_nil_r. by destruct buf. Qed.

Lemma appended_trans b1 b2 b3 xs ys :
  appended b1 b2 xs -> appended b2 b3 ys -> appended b1 b3 (xs ++ ys).
Proof. unfold appended. intros -> ->. simpl. by rewrite app_assoc. Qed.

Lemma appended_offset buf buf' bs :
  appended buf buf' bs -> offset buf' = offset buf + Z.of_nat (length bs).
Proof. intros ->. unfold offset. simpl. apply length_app_Z. Qed.

Lemma put_appended bs buf buf' : put bs buf = Ok buf' -> appended buf buf' bs.
Proof. by intros [-> _]%put_inv. Qed.

Lemma put_int_appended n lo hi v buf buf' :
  put_int n lo hi v buf = Ok buf' -> appended buf buf' (le_bytes n v).
Proof. by intros [-> _]%put_int_inv. Qed.

Lemma put_int_of_float_appended n lo hi f buf buf' :
  put_int_of_float n lo hi f buf = Ok buf' ->
  exists bs, length bs = n /\ appended buf buf' bs.
Proof. intros (bs & ? & -> & _)%put_int_of_float_inv. by exists bs. Qed.

(** A property that the size pass counts as [b - a] bytes is written as
    exactly that many, whenever both passes return. *)
Lemma write_property_size p a b buf buf' :
  size_property a p = Ok b ->
  write_property p buf = Ok buf' ->
  exists bs, appended buf buf' bs /\ Z.of_nat (length bs) = b - a.
Proof.
  unfold size_property, write_property. intros Hs Hw.
  bind_inv Hw. apply put_int_appended in Hx.
  destruct p as [i t v]; simpl in *.
  destruct (decide (t = PROPERTY_STRING)) as [->|Hstr].
  { bind_inv Hs. injection Hs as <-. bind_inv Hw. bind_inv Hw.
    apply put_int_appended in Hx2.
    destruct v as [f|s|bf|bl]; try done. apply put_appended in Hw.
    simpl in Hx0. injection Hx0 as <-.
    eexists. split; [eapply appended_trans; [|eapply appended_trans]; eauto|].
    rewrite !length_app_Z, !le_bytes_length. lia. }
  destruct (decide (t = PROPERTY_BINARY)) as [->|Hbin].
  { bind_inv Hs. injection Hs as <-. bind_inv Hw. bind_inv Hw.
    apply put_int_appended in Hx2.
    destruct v as [f|s|bf|bl]; try done. apply put_appended in Hw.
    simpl in Hx0. injection Hx0 as <-.
    eexists. split; [eapply appended_trans; [|eapply appended_trans]; eauto|].
    rewrite !length_app_Z, !le_bytes_length. lia. }
  destruct t; try done; simpl in Hs; injection Hs as <-.
  - bind_inv Hw. apply put_int_of_float_appended in Hw as (bs & Hn & Hw).
    eexists. split; [eapply appended_trans; eauto|].
    rewrite length_app_Z, le_bytes_length, Hn. lia.
  - bind_inv Hw. apply put_int_of_float_appended in Hw as (bs & Hn & Hw).
    eexists. split; [eapply appended_trans; eauto|].
    rewrite length_app_Z, le_bytes_length, Hn. lia.
  - bind_inv Hw. bind_inv Hw. apply put_int_appended in Hw.
    eexists. split; [eapply appended_trans; eauto|].
    rewrite length_app_Z, !le_bytes_length. lia.
  - bind_inv Hw. apply put_appended in Hw.
    eexists. split; [eapply appended_trans; eauto|].
    rewrite length_app_Z, !le_bytes_length. lia.
  - bind_inv Hw. apply put_appended in Hw.
    eexists. split; [eapply appended_trans; eauto|].
    rewrite length_app_Z, !le_bytes_length. lia.
  - apply put_int_appended in Hw.
    eexists. split; [eapply appended_trans; eauto|].
    rewrite length_app_Z, !le_bytes_length. lia.
Qed.

Lemma write_properties_size ps a b buf buf' :
  size_properties a ps = Ok b ->
  write_properties ps buf = Ok buf' ->
  exists bs, appended buf buf' bs /\ Z.of_nat (length bs) = b - a.
Proof.
  revert a buf. induction ps as [|p ps IH]; intros a buf; simpl.
  - intros [= <-] [= <-]. exists []. split; [apply appended_nil | simpl; lia].
  - intros Hs Hw. bind_inv Hs. bind_inv Hw.
    destruct (write_property_size _ _ _ _ _ Hx Hx0) as (bs1 & H1 & Hl1).
    destruct (IH _ _ Hs Hw) as (bs2 & H2 & Hl2).
    exists (bs1 ++ bs2). split; [eapply appended_trans; eauto|].
    rewrite length_app_Z. lia.
Qed.

Lemma write_padding_appended n buf buf' :
  write_padding n buf = Ok buf' -> appended buf buf' (repeat 0 n).
Proof.
  revert buf. induction n as [|n IH]; intros buf; simpl.
  - intros [= <-]. apply appended_nil.
  - intros H. bind_inv H. apply put_int_appended in Hx. apply IH in H.
    change (0 :: repeat 0 n) with (le_bytes 1 0 ++ repeat 0 n).
    eapply appended_trans; eauto.
Qed.

Lemma write_children_appended write cs ss buf buf' (P : loc -> Z -> Prop) :
  (forall c s b b', P c s -> write c b = Ok b' ->
     exists bs, appended b b' bs /\ Z.of_nat (length bs) = s) ->
  Forall2 P cs ss ->
  write_children write cs buf = Ok buf' ->
  exists bs, appended buf buf' bs /\ Z.of_nat (length bs) = Zsum ss.
Proof.
  intros Hwrite Hcs. revert buf. induction Hcs as [|c s cs ss Hc Hcs IH]; intros buf; simpl.
  - intros [= <-]. exists []. split; [apply appended_nil | done].
  - intros H. bind_inv H.
    destruct (Hwrite _ _ _ _ Hc Hx) as (bs1 & H1 & Hl1).
    destruct (IH _ H) as (bs2 & H2 & Hl2).
    exists (bs1 ++ bs2). split; [eapply appended_trans; eauto|].
    rewrite length_app_Z. lia.
Qed.

(** The UTF-8 encoding has at least one byte per code unit, and exactly one
    when the string is ASCII. *)
Lemma utf8_ascii (s : jsstring) : Forall (fun c => c < 128) s -> utf8 s = s.
Proof.
  induction 1 as [|c s Hc Hs IH]; [done|]. simpl.
  destruct (Z.ltb_spec c 128); [|lia]. by rewrite IH.
Qed.

(** Sizes agree where names are counted alike: on a sized tree whose names
    have as many UTF-8 bytes as code units, a write pass that returns has
    written, for the node it was called on, exactly as many bytes as the
    size pass stored, and these start with the end offset: the cursor before
    the node plus the stored size, which is the cursor after the node. *)
Lemma writeNode_emits_size n (h : Heap) :
  Forall (fun nd => Z.of_nat (length (utf8 (name nd))) = js_length (name nd)) h ->
  forall l s buf buf',
    sized n h l s ->
    writeNode n h l buf = Ok buf' ->
    exists bs, appended buf buf' bs /\ Z.of_nat (length bs) = s /\
      take 4 bs = le_bytes 4 (offset buf + s) /\
      offset buf' = offset buf + s.
Proof.
  intros Hnames. induction n as [|n IH]; intros l s buf buf'; [done|].
  intros (nd & ps & cs & Hl & Hps & Hcs & Hs & Hsz & Hpsz). simpl. rewrite Hl, Hsz, Hpsz. simpl.
  intros H. bind_inv H. apply put_int_appended in Hx.
  bind_inv H. apply put_int_appended in Hx0.
  bind_inv H. apply put_int_appended in Hx1.
  bind_inv H. apply put_int_appended in Hx2.
  bind_inv H. apply put_appended in Hx3.
  bind_inv H. destruct (write_properties_size _ 0 _ _ _ Hps Hx4) as (pbs & Hpbs & Hplen).
  bind_inv H.
  destruct (write_children_appended _ _ _ _ _ (sized n h)
              (fun c s b b' Hc Hw =>
                 match IH c s b b' Hc Hw with
                 | ex_intro _ bs (conj Ha (conj Hlen _)) => ex_intro _ bs (conj Ha Hlen)
                 end) Hcs Hx5) as (cbs & Hcbs & Hclen).
  assert (Hname : Z.of_nat (length (utf8 (name nd))) = js_length (name nd)).
  { eapply Forall_lookup_1 in Hnames; eauto. }
  assert (exists tbs, appended x5 buf' tbs /\ Z.of_nat (length tbs) = trailer_size nd)
    as (tbs & Htbs & Htlen).
  { unfold trailer_size. case_decide.
    - apply (write_padding_appended 13) in H. eexists. split; [done|]. by rewrite repeat_length.
    - injection H as <-. exists []. split; [apply appended_nil | done]. }
  pose proof (appended_trans _ _ _ _ _ Hx (appended_trans _ _ _ _ _ Hx0
    (appended_trans _ _ _ _ _ Hx1 (appended_trans _ _ _ _ _ Hx2
    (appended_trans _ _ _ _ _ Hx3 (appended_trans _ _ _ _ _ Hpbs
    (appended_trans _ _ _ _ _ Hcbs Htbs))))))) as Hall.
  eexists. split; [exact Hall|].
  assert (Hlen : Z.of_nat (length (le_bytes 4 (offset buf + s) ++
      le_bytes 4 (Z.of_nat (length (properties nd))) ++ le_bytes 4 ps ++
      le_bytes 1 (Z.of_nat (length (utf8 (name nd)))) ++ utf8 (name nd) ++ pbs ++ cbs ++ tbs)) = s).
  { rewrite !length_app_Z, !le_bytes_length. lia. }
  split; [exact Hlen|]. split.
  - rewrite take_app_length'; [done | by rewrite le_bytes_length].
  - rewrite (appended_offset _ _ _ Hall). lia.
Qed.

(** ** The trailer *)

Lemma sized_succ n (h : Heap) l s : sized n h l s -> exists m, n = S m.
Proof. destruct n; [done|]. eauto. Qed.

(** Once the roots are sized, so is every node of the tree. *)
Lemma reachable_sized n (h h' : Heap) roots ss l :
  Forall2 same_shape h h' ->
  Forall2 (sized n h') roots ss ->
  reachable h roots l ->
  exists m s, sized (S m) h' l s.
Proof.
  intros Hshape Hroots. induction 1 as [l Hl|p nd c _ IH Hp Hc].
  - apply list_elem_of_lookup_1 in Hl as [i Hi].
    destruct (Forall2_lookup_l _ _ _ _ _ Hroots Hi) as (s & _ & Hs).
    destruct (sized_succ _ _ _ _ Hs) as [m ->]. eauto.
  - destruct IH as (m & s & nd' & ps & cs & Hl' & _ & Hkids & _).
    destruct (same_heap_lookup _ _ _ _ Hshape Hp) as (nd'' & Hl'' & _ & _ & Hsame).
    rewrite Hl' in Hl''. injection Hl'' as <-. rewrite Hsame in Hc.
    apply list_elem_of_lookup_1 in Hc as [i Hi].
    destruct (Forall2_lookup_l _ _ _ _ _ Hkids Hi) as (sc & _ & Hsc).
    destruct (sized_succ _ _ _ _ Hsc) as [m' ->]. eauto.
Qed.




(** ** Array-typed properties *)

Lemma type_code_byte t : 0 <= type_code t <= 255.
Proof. destruct t; simpl; lia. Qed.

Lemma size_property_array a p :
  type_isArray (type p) = true -> size_property a p = Throw TypeError.
Proof.
  unfold size_property. intros Harr. destruct (type p); try done.
Qed.

Lemma size_properties_array a ps p r :
  p ∈ ps -> type_isArray (type p) = true -> size_properties a ps <> Ok r.
Proof.
  intros Hin Harr. revert a. induction Hin as [p ps|p q ps Hin IH]; intros a; simpl.
  - by rewrite size_property_array.
  - destruct (size_property a q); simpl; [by apply IH | done | done].
Qed.

Lemma has_array_property_shape (h h' : Heap) l :
  Forall2 same_shape h h' -> has_array_property h l -> has_array_property h' l.
Proof.
  intros Hshape. induction 1 as [l nd p Hl Hp Harr|l nd c Hl Hc _ IH].
  - destruct (same_heap_lookup _ _ _ _ Hshape Hl) as (nd' & Hl' & _ & Hprops & _).
    eapply array_here; eauto. by rewrite <- Hprops.
  - destruct (same_heap_lookup _ _ _ _ Hshape Hl) as (nd' & Hl' & _ & _ & Hkids).
    eapply array_below; eauto. by rewrite <- Hkids.
Qed.

Lemma size_children_array calc a cs (h : Heap) c r :
  (forall c (h1 : Heap) s1 h2, calc c h1 = Ok (s1, h2) -> Forall2 same_shape h1 h2) ->
  (forall c (h1 : Heap) r, has_array_property h1 c -> calc c h1 <> Ok r) ->
  c ∈ cs -> has_array_property h c ->
  size_children calc a cs h <> Ok r.
Proof.
  intros Hshape Hfail Hin. revert a h.
  induction Hin as [c cs|c d cs Hin IH]; intros a h Harr; simpl.
  - destruct (calc c h) as [[s1 h1]| |] eqn:Hcalc; simpl; [|done|done].
    by apply Hfail in Hcalc.
  - destruct (calc d h) as [[s1 h1]| |] eqn:Hcalc; simpl; [|done|done].
    apply IH. eapply has_array_property_shape; eauto.
Qed.

Lemma calculateNodeTreeSize_array fuel (h : Heap) l r :
  has_array_property h l -> calculateNodeTreeSize fuel (ANode l) h <> Ok r.
Proof.
  revert h l r. induction fuel as [|fuel IH]; intros h l r Harr; [done|].
  simpl. destruct Harr as [l nd p Hl Hp Harr|l nd c Hl Hc Harr]; rewrite Hl.
  - destruct (size_properties _ (properties nd)) eqn:Hps; simpl; [|done|done].
    by eapply size_properties_array in Hps.
  - destruct (size_properties _ (properties nd)); simpl; [|done|done].
    destruct (size_children _ _ _ _) as [[s1 h1]| |] eqn:Hkids; simpl; [|done|done].
    eapply size_children_array in Hkids; eauto.
    intros c' h1' s1' h2'. apply calculateNodeTreeSize_shape.
Qed.

Lemma reachable_array (h : Heap) roots l :
  reachable h roots l -> has_array_property h l ->
  exists root, root ∈ roots /\ has_array_property h root.
Proof.
  induction 1 as [l Hl|p nd c _ IH Hp Hc]; intros Harr; [by eauto|].
  apply IH. eapply array_below; eauto.
Qed.

(** C7: for a property whose type is an array type, the size pass reads the
    length of the descriptor's own [value] field, which does not exist, so
    the step fails with a TypeError whatever the property's value (its
    element count plays no part); the write pass emits the one-byte type
    code and no payload; and the size pass returns no size for any tree that
    holds such a property, at any depth and with any amount of fuel. *)
Theorem array_properties_unsupported (p : Property) :
  type_isArray (type p) = true ->
  type_value (type p) = None /\
  (forall a, size_property a p = Throw TypeError) /\
  (forall a v, size_property a {| pid := pid p; type := type p; value := v |}
               = size_property a p) /\
  (forall buf, offset buf + 1 <= capacity buf ->
     write_property p buf
     = Ok (buffer_of (capacity buf) (written buf ++ [type_code (type p)]))) /\
  (forall (h : Heap) roots l nd fuel r,
     reachable h roots l -> h !! l = Some nd -> p ∈ properties nd ->
     calculateNodeTreeSize fuel (ASet roots) h <> Ok r).
Proof.
  intros Harr. split; [done|]. split; [intros a; by apply size_property_array|].
  split; [intros a v; by rewrite !size_property_array|]. split.
  - intros buf Hroom. unfold write_property.
    rewrite writeUInt8_ok by auto using type_code_byte. simpl.
    pose proof (type_code_byte (type p)).
    rewrite Z.mod_small by lia. destruct (type p); done.
  - intros h roots l nd fuel r Hreach Hl Hp.
    destruct (reachable_array h roots l Hreach) as (root & Hroot & Hbad).
    { eapply array_here; eauto. }
    destruct fuel as [|fuel]; [done|]. simpl.
    eapply size_children_array; eauto.
    + intros c h1 s1 h2. apply calculateNodeTreeSize_shape.
    + intros c h1 r1. apply calculateNodeTreeSize_array.
Qed.

Lemma array_properties_unsupported_witness :
  let p := {| pid := 0; type := PROPERTY_ARR_INT_32; value := VBuffer [1; 2; 3; 4] |} in
  type_isArray (type p) = true /\
  (forall (h : Heap) roots l nd fuel r,
     reachable h roots l -> h !! l = Some nd -> p ∈ properties nd ->
     calculateNodeTreeSize fuel (ASet roots) h <> Ok r).
Proof.
  intros p. split; [reflexivity|].
  exact (proj2 (proj2 (proj2 (proj2 (array_properties_unsupported p eq_refl))))).
Defined.

(** ** The two sets of a node record *)


Lemma Set_add_new c s : c ∉ s -> Set_add c s = s ++ [c].
Proof. intros. unfold Set_add. by rewrite decide_False. Qed.


Lemma Set_add_NoDup c s : NoDup s -> NoDup (Set_add c s).
Proof.
  intros Hs. unfold Set_add. case_decide; [done|].
  apply NoDup_app. split; [done|]. split; [|apply NoDup_singleton].
  intros x Hx ->%list_elem_of_singleton. done.
Qed.



Lemma Set_add_property_new p s :
  pid p ∉ map pid s -> Set_add_property p s = s ++ [p].
Proof. intros. unfold Set_add_property. by rewrite decide_False. Qed.

Lemma addChild_heap this cs r :
  heap (addChild this cs r).2 = foldl (fun h c => alter (add_child c) this h) (heap r) cs.
Proof.
  unfold addChild. revert r. induction cs as [|c cs IH]; intros r; [done|].
  simpl. specialize (IH (update this (add_child c) r).2). simpl in IH.
  unfold mbind, Build_bind in *. simpl.
  destruct (for_of cs _ _) as [u r'] eqn:E. simpl in *. done.
Qed.

Lemma addChild_result this cs r : (addChild this cs r).1 = head cs.
Proof.
  unfold addChild, mbind, Build_bind. by destruct (for_of cs _ r).
Qed.








(** ** The class keeps its records well formed *)

Lemma well_formed_node_mono records ids records' ids' nd :
  (records <= records')%nat -> (ids <= ids')%nat ->
  well_formed_node records ids nd -> well_formed_node records' ids' nd.
Proof.
  intros Hr Hi (H1 & H2 & H3 & H4). repeat split; [done| |done|].
  - eapply Forall_impl; [done|]. simpl. lia.
  - eapply Forall_impl; [done|]. simpl. lia.
Qed.

Lemma well_formed_fresh : well_formed fresh_runtime.
Proof. constructor. Qed.

Lemma well_formed_new_FBXNodeRecord nm r :
  well_formed r -> well_formed (new_FBXNodeRecord nm None [] r).2.
Proof.
  intros Hwf. unfold well_formed. simpl. rewrite length_app. simpl.
  apply Forall_app. split.
  - eapply Forall_impl; [exact Hwf|]. intros nd. apply well_formed_node_mono; lia.
  - repeat constructor.
Qed.

Lemma well_formed_addProperty this t vs r :
  well_formed r -> well_formed (addProperty this t vs r).2.
Proof.
  unfold addProperty. revert r. induction vs as [|v vs IH]; intros r Hwf; [done|].
  simpl. unfold mbind, Build_bind. simpl.
  match goal with |- context [for_of vs ?f ?r1] => specialize (IH r1) end.
  destruct (for_of vs _ _) as [u r2]. simpl in *. apply IH. clear IH.
  unfold well_formed. simpl. rewrite length_alter.
  apply Forall_alter.
  - eapply Forall_impl; [exact Hwf|]. intros nd. apply well_formed_node_mono; lia.
  - intros nd _ (H1 & H2 & H3 & H4). repeat split; simpl; [done|done| |].
    + unfold Set_add_property. simpl. case_decide; [done|].
      rewrite map_app. apply NoDup_app. split; [done|]. split; [|apply NoDup_singleton].
      intros x Hx ->%list_elem_of_singleton. done.
    + unfold Set_add_property. simpl. case_decide; [done|].
      apply Forall_app. split; [done|]. repeat constructor.
Qed.

Lemma well_formed_addChild this cs r :
  well_formed r -> Forall (fun c => (c < length (heap r))%nat) cs ->
  well_formed (addChild this cs r).2.
Proof.
  intros Hwf Hcs. unfold well_formed. rewrite addChild_heap.
  replace (nextId (addChild this cs r).2) with (nextId r).
  2:{ unfold addChild, mbind, Build_bind. clear. revert r.
      induction cs as [|c cs IH]; intros r; [done|]. simpl.
      unfold mbind, Build_bind. simpl.
      match goal with |- context [for_of cs ?f ?r1] => specialize (IH r1) end.
      by destruct (for_of cs _ _). }
  unfold well_formed in Hwf. revert Hwf Hcs. generalize (nextId r). generalize (heap r).
  induction cs as [|c cs IH]; intros h ids Hwf Hcs; [done|]. simpl.
  apply Forall_cons in Hcs as [Hc Hcs]. apply IH.
  - rewrite length_alter. apply Forall_alter; [done|].
    intros nd _ (H1 & H2 & H3 & H4). repeat split; simpl; [|  |done|done].
    + by apply Set_add_NoDup.
    + unfold Set_add. case_decide; [done|]. apply Forall_app. split; [done|].
      by repeat constructor.
  - by rewrite length_alter.
Qed.

(** ** The builder only adds *)

Lemma names_alter f l (h : Heap) :
  (forall nd, name (f nd) = name nd) -> names (alter f l h) = names h.
Proof.
  intros Hf. unfold names. revert l. induction h as [|nd h IH]; intros [|l]; simpl; [done|done| |].
  - by rewrite Hf.
  - f_equal. apply IH.
Qed.

Lemma grows_ret {A} (a : A) : grows (mret a).
Proof. intros r. exists []. by rewrite app_nil_r. Qed.

Lemma grows_bind {A B} (m : Build A) (k : A -> Build B) :
  grows m -> (forall a, grows (k a)) -> grows (m ≫= k).
Proof.
  intros Hm Hk r. unfold mbind, Build_bind. destruct (Hm r) as [e1 H1].
  destruct (m r) as [a r1]. simpl in *. destruct (Hk a r1) as [e2 H2].
  exists (e1 ++ e2). by rewrite H2, H1, app_assoc.
Qed.

Lemma keeps_heap_grows {A} (m : Build A) : keeps_heap m -> grows m.
Proof. intros Hm r. exists []. by rewrite Hm, app_nil_r. Qed.

Lemma makes_grows nm m : makes nm m -> grows m.
Proof. intros Hm r. destruct (Hm r) as [_ [ext H]]. eauto. Qed.

Lemma grows_update l f : (forall nd, name (f nd) = name nd) -> grows (update l f).
Proof. intros Hf r. exists []. simpl. by rewrite names_alter, app_nil_r. Qed.

Lemma keeps_heap_new_property t v : keeps_heap (new_property t v).
Proof. done. Qed.

Lemma keeps_heap_new_Date clock : keeps_heap (new_Date clock).
Proof. done. Qed.

Lemma keeps_heap_Math_random random : keeps_heap (Math_random random).
Proof. done. Qed.

Lemma keeps_heap_ret {A} (a : A) : keeps_heap (mret a).
Proof. done. Qed.

Lemma keeps_heap_bind {A B} (m : Build A) (k : A -> Build B) :
  keeps_heap m -> (forall a, keeps_heap (k a)) -> keeps_heap (m ≫= k).
Proof.
  intros Hm Hk r. unfold mbind, Build_bind. specialize (Hm r).
  destruct (m r) as [a r1]. simpl in *. by rewrite Hk.
Qed.

Lemma keeps_heap_repeatM {A} n (m : Build A) : keeps_heap m -> keeps_heap (repeatM n m).
Proof.
  intros Hm. induction n as [|n IH]; simpl; [apply keeps_heap_ret|].
  apply keeps_heap_bind; [done|]. intros x.
  apply keeps_heap_bind; [done|]. intros xs. apply keeps_heap_ret.
Qed.

Lemma grows_for_of {A} (xs : list A) (f : A -> Build unit) :
  (forall x, grows (f x)) -> grows (for_of xs f).
Proof.
  intros Hf. induction xs as [|x xs IH]; simpl; [apply grows_ret|].
  apply grows_bind; [apply Hf | by intros _].
Qed.

Lemma grows_map_of {A B} (xs : list A) (f : A -> Build B) :
  (forall x, grows (f x)) -> grows (map_of xs f).
Proof.
  intros Hf. induction xs as [|x xs IH]; simpl; [apply grows_ret|].
  apply grows_bind; [apply Hf|]. intros y.
  apply grows_bind; [apply IH|]. intros ys. apply grows_ret.
Qed.

Lemma grows_addProperty this t vs : grows (addProperty this t vs).
Proof.
  apply grows_for_of. intros v. apply grows_bind.
  - apply keeps_heap_grows, keeps_heap_new_property.
  - intros p. by apply grows_update.
Qed.

Lemma grows_addChild this cs : grows (addChild this cs).
Proof.
  apply grows_bind; [|intros; apply grows_ret].
  apply grows_for_of. intros c. by apply grows_update.
Qed.

Lemma makes_new_object nd : makes (name nd) (new_object nd).
Proof.
  intros r. split; [done|]. exists []. simpl. unfold names. by rewrite map_app.
Qed.

Lemma returns_ret l : returns l (mret l).
Proof. done. Qed.

Lemma returns_bind {A} l (m : Build A) (k : A -> Build loc) :
  (forall a, returns l (k a)) -> returns l (m ≫= k).
Proof.
  intros Hk r. unfold mbind, Build_bind. destruct (m r) as [a r1]. apply Hk.
Qed.

(** A node made first and returned last, whatever is built in between. *)
Lemma makes_bind nm (m : Build loc) (k : loc -> Build loc) :
  makes nm m -> (forall l, grows (k l)) -> (forall l, returns l (k l)) ->
  makes nm (m ≫= k).
Proof.
  intros Hm Hk Hret r. unfold mbind, Build_bind.
  destruct (Hm r) as [Hl [e1 H1]]. destruct (m r) as [l r1]. simpl in *.
  destruct (Hk l r1) as [e2 H2]. split.
  - by rewrite Hret.
  - exists (e1 ++ e2). rewrite H2, H1. by rewrite <- app_assoc.
Qed.

(** A node made after steps that leave the node records alone. *)
Lemma makes_after {A} nm (m : Build A) (k : A -> Build loc) :
  keeps_heap m -> (forall a, makes nm (k a)) -> makes nm (m ≫= k).
Proof.
  intros Hm Hk r. unfold mbind, Build_bind. specialize (Hm r).
  destruct (m r) as [a r1]. simpl in *. rewrite <- Hm. apply Hk.
Qed.

Lemma makes_new_FBXNodeRecord nm t vs : makes nm (new_FBXNodeRecord nm t vs).
Proof.
  unfold new_FBXNodeRecord. apply makes_bind.
  - apply (makes_new_object {| name := nm; properties := []; children := [];
                               size := None; propertySize := None |}).
  - intros l. apply grows_bind; [|intros; apply grows_ret].
    destruct t; [apply grows_addProperty | apply grows_ret].
  - intros l. apply returns_bind. intros _. apply returns_ret.
Qed.

Lemma grows_addChild_new parent m : grows m -> grows (addChild_new parent m).
Proof.
  intros Hm. apply grows_bind; [done|]. intros c.
  apply grows_bind; [apply grows_addChild|]. intros _. apply grows_ret.
Qed.

(** Walk a straight-line builder body. *)
Ltac grows_step :=
  lazymatch goal with
  | |- grows (mret _) => apply grows_ret
  | |- grows (mbind _ _) => apply grows_bind; [|intros ?]
  | |- grows (addProperty _ _ _) => apply grows_addProperty
  | |- grows (addChild _ _) => apply grows_addChild
  | |- grows (addChild_new _ _) => apply grows_addChild_new
  | |- grows (new_FBXNodeRecord _ _ _) => eapply makes_grows, makes_new_FBXNodeRecord
  | |- grows (new_Date _) => apply keeps_heap_grows, keeps_heap_new_Date
  | |- grows (for_of _ _) => apply grows_for_of; intros ?
  | |- grows (map_of _ _) => apply grows_map_of; intros ?
  end.

Ltac grows_steps := repeat grows_step.

Ltac returns_steps :=
  repeat lazymatch goal with
         | |- returns _ (mret _) => apply returns_ret
         | |- returns _ (mbind _ _) => apply returns_bind; intros ?
         end.

(** The shape shared by the [FBXProperty_] constructors and most builders:
    make the node, fill it, return it. *)
Ltac makes_node :=
  apply makes_bind;
    [ apply makes_new_FBXNodeRecord
    | intros ?; grows_steps
    | intros ?; returns_steps ].

Section BuilderFacts.

Variable path_basename : jsstring -> jsstring.
Variable manifest : Manifest.
Variable clock : nat -> Date.
Variable random : nat -> float.
Variable this : FBXWriter.

Lemma grows_FBXProperty_Boolean nm state : grows (new_FBXProperty_Boolean nm state).
Proof. eapply makes_grows. unfold new_FBXProperty_Boolean. makes_node. Qed.

Lemma grows_FBXProperty_Vector3D nm x y z : grows (new_FBXProperty_Vector3D nm x y z).
Proof. eapply makes_grows. unfold new_FBXProperty_Vector3D. makes_node. Qed.

Lemma grows_FBXProperty_ColorRGB nm x y z : grows (new_FBXProperty_ColorRGB nm x y z).
Proof. eapply makes_grows. unfold new_FBXProperty_ColorRGB. makes_node. Qed.

Lemma grows_FBXProperty_URL nm url : grows (new_FBXProperty_URL nm url).
Proof. eapply makes_grows. unfold new_FBXProperty_URL. makes_node. Qed.

Lemma grows_FBXProperty_Enum nm v : grows (new_FBXProperty_Enum nm v).
Proof. eapply makes_grows. unfold new_FBXProperty_Enum. makes_node. Qed.

Lemma grows_FBXProperty_Double nm v : grows (new_FBXProperty_Double nm v).
Proof. eapply makes_grows. unfold new_FBXProperty_Double. makes_node. Qed.

Lemma grows_FBXProperty_KTime nm v : grows (new_FBXProperty_KTime nm v).
Proof. eapply makes_grows. unfold new_FBXProperty_KTime. makes_node. Qed.

Lemma grows_FBXProperty_KString nm v : grows (new_FBXProperty_KString nm v).
Proof. eapply makes_grows. unfold new_FBXProperty_KString. makes_node. Qed.

Lemma grows_FBXProperty_Integer nm v : grows (new_FBXProperty_Integer nm v).
Proof. eapply makes_grows. unfold new_FBXProperty_Integer. makes_node. Qed.

Lemma grows_FBXProperty_Object nm : grows (new_FBXProperty_Object nm).
Proof. eapply makes_grows. unfold new_FBXProperty_Object. makes_node. Qed.

Lemma grows_FBXProperty_LCLVector nm x y z : grows (new_FBXProperty_LCLVector nm x y z).
Proof. eapply makes_grows. unfold new_FBXProperty_LCLVector. makes_node. Qed.

Ltac builder_step :=
  lazymatch goal with
  | |- grows (new_FBXProperty_Boolean _ _) => apply grows_FBXProperty_Boolean
  | |- grows (new_FBXProperty_Vector3D _ _ _ _) => apply grows_FBXProperty_Vector3D
  | |- grows (new_FBXProperty_ColorRGB _ _ _ _) => apply grows_FBXProperty_ColorRGB
  | |- grows (new_FBXProperty_URL _ _) => apply grows_FBXProperty_URL
  | |- grows (new_FBXProperty_Enum _ _) => apply grows_FBXProperty_Enum
  | |- grows (new_FBXProperty_Double _ _) => apply grows_FBXProperty_Double
  | |- grows (new_FBXProperty_KTime _ _) => apply grows_FBXProperty_KTime
  | |- grows (new_FBXProperty_KString _ _) => apply grows_FBXProperty_KString
  | |- grows (new_FBXProperty_Integer _ _) => apply grows_FBXProperty_Integer
  | |- grows (new_FBXProperty_Object _) => apply grows_FBXProperty_Object
  | |- grows (new_FBXProperty_LCLVector _ _ _ _) => apply grows_FBXProperty_LCLVector
  | |- _ => grows_step
  end.

Ltac builder_steps := repeat builder_step.

Lemma grows_createCompound nm props : grows (createCompound nm props).
Proof.
  unfold createCompound. apply grows_bind; [builder_steps|]. intros compound.
  apply grows_bind; [|intros; apply grows_ret].
  apply grows_map_of. intros [key v]. builder_steps.
Qed.

Lemma makes_buildCreationTimeStampNode :
  makes (js "CreationTimeStamp") (buildCreationTimeStampNode clock).
Proof.
  unfold buildCreationTimeStampNode.
  apply makes_after; [apply keeps_heap_new_Date|]. intros now.
  apply makes_bind; [apply makes_new_FBXNodeRecord | intros ?; builder_steps
                    | intros ?; returns_steps].
Qed.

Lemma makes_buildSceneInfoNode :
  makes (js "SceneInfo") (buildSceneInfoNode path_basename manifest clock this).
Proof.
  unfold buildSceneInfoNode.
  apply makes_bind; [apply makes_new_FBXNodeRecord | intros ?; builder_steps
                    | intros ?; returns_steps];
    apply grows_createCompound.
Qed.

Lemma makes_buildExtendedHeaderNode :
  makes (js "FBXHeaderExtension")
        (buildExtendedHeaderNode path_basename manifest clock this).
Proof.
  unfold buildExtendedHeaderNode.
  apply makes_bind; [apply makes_new_FBXNodeRecord | intros ?; builder_steps
                    | intros ?; returns_steps].
  - eapply makes_grows, makes_buildCreationTimeStampNode.
  - eapply makes_grows, makes_buildSceneInfoNode.
Qed.

Lemma makes_buildFileIDNode : makes (js "FileId") (buildFileIDNode random).
Proof.
  unfold buildFileIDNode. apply makes_after; [|intros; apply makes_new_FBXNodeRecord].
  apply keeps_heap_repeatM, keeps_heap_bind; [apply keeps_heap_Math_random|].
  intros x. apply keeps_heap_ret.
Qed.

Lemma makes_buildCreationTimeNode : makes (js "CreationTime") (buildCreationTimeNode clock).
Proof.
  unfold buildCreationTimeNode. apply makes_after; [apply keeps_heap_new_Date|].
  intros now. apply makes_new_FBXNodeRecord.
Qed.

Lemma makes_buildCreatorNode : makes (js "Creator") (buildCreatorNode manifest).
Proof. apply makes_new_FBXNodeRecord. Qed.

Lemma makes_buildGlobalSettingsNode : makes (js "GlobalSettings") buildGlobalSettingsNode.
Proof.
  unfold buildGlobalSettingsNode.
  apply makes_bind; [apply makes_new_FBXNodeRecord | intros ?; builder_steps
                    | intros ?; returns_steps].
Qed.

Lemma makes_buildDocumentsNode : makes (js "Documents") buildDocumentsNode.
Proof.
  unfold buildDocumentsNode.
  apply makes_bind; [apply makes_new_FBXNodeRecord | intros ?; builder_steps
                    | intros ?; returns_steps].
Qed.

Lemma makes_buildDefinitionsNode : makes (js "Definitions") buildDefinitionsNode.
Proof.
  unfold buildDefinitionsNode.
  apply makes_bind; [apply makes_new_FBXNodeRecord | intros ?; builder_steps
                    | intros ?; returns_steps].
Qed.

Lemma makes_buildObjectsNode : makes (js "Objects") buildObjectsNode.
Proof. apply makes_new_FBXNodeRecord. Qed.

Lemma makes_buildConnectionsNode : makes (js "Connections") buildConnectionsNode.
Proof. apply makes_new_FBXNodeRecord. Qed.

Lemma makes_buildTakesNode : makes (js "Takes") buildTakesNode.
Proof.
  unfold buildTakesNode.
  apply makes_bind; [apply makes_new_FBXNodeRecord | intros ?; builder_steps
                    | intros ?; returns_steps].
Qed.

End BuilderFacts.

(** ** The root nodes *)

Lemma hoare_bind {A B} (P : Runtime -> Prop) (m : Build A) (Q : A -> Runtime -> Prop)
    (k : A -> Build B) (R : B -> Runtime -> Prop) :
  hoare P m Q -> (forall a, hoare (Q a) (k a) R) -> hoare P (m ≫= k) R.
Proof.
  intros Hm Hk r HP. unfold mbind, Build_bind. specialize (Hm r HP).
  destruct (m r) as [a r1]. by apply Hk.
Qed.

Lemma hoare_ret {A} (a : A) (Q : A -> Runtime -> Prop) : hoare (Q a) (mret a) Q.
Proof. by intros r. Qed.

(** Adding a node that was just made: it is new to the set, so it is
    appended, and the older roots keep their names. *)
Lemma add_root_ok nm make roots expected :
  makes nm make ->
  hoare (roots_ok roots expected) (add_root roots make)
        (fun roots' => roots_ok roots' (expected ++ [nm])).
Proof.
  intros Hmake r (Hnodup & Hvalid & Hnames). unfold add_root, mbind, Build_bind.
  destruct (Hmake r) as [Hl [ext Hext]]. destruct (make r) as [l r1]. simpl in *. subst l.
  assert (Hlen : (length (heap r) < length (heap r1))%nat).
  { apply (f_equal length) in Hext. unfold names in Hext.
    rewrite length_app, !length_map in Hext. simpl in Hext. lia. }
  assert (Hnew : length (heap r) ∉ roots).
  { intros Hin. eapply Forall_forall in Hvalid; [|done]. lia. }
  rewrite Set_add_new by done. split; [|split].
  - apply NoDup_app. split; [done|]. split; [|apply NoDup_singleton].
    intros x Hx ->%list_elem_of_singleton. done.
  - apply Forall_app. split; [|by repeat constructor].
    eapply Forall_impl; [done|]. simpl. lia.
  - apply Forall2_app.
    + eapply Forall2_impl; [done|]. intros root n Hroot. simpl in *.
      rewrite Hext. by apply lookup_app_l_Some.
    + repeat constructor. rewrite Hext.
      replace (length (heap r)) with (length (names (heap r)))
        by (unfold names; apply length_map).
      by apply list_lookup_middle.
Qed.

(** C8: on any runtime, [buildNodeTree] returns exactly eleven root nodes,
    distinct, whose names are in order FBXHeaderExtension, FileId,
    CreationTime, Creator, GlobalSettings, Documents, References,
    Definitions, Objects, Connections, Takes. *)
Theorem buildNodeTree_roots (path_basename : jsstring -> jsstring) (manifest : Manifest)
    (clock : nat -> Date) (random : nat -> float) (this : FBXWriter) (r : Runtime) :
  let m := buildNodeTree path_basename manifest clock random this r in
  length m.1 = 11%nat /\
  NoDup m.1 /\
  Forall2 (fun root nm => name <$> heap m.2 !! root = Some nm) m.1
    [js "FBXHeaderExtension"; js "FileId"; js "CreationTime"; js "Creator";
     js "GlobalSettings"; js "Documents"; js "References"; js "Definitions";
     js "Objects"; js "Connections"; js "Takes"].
Proof.
  assert (H : hoare (roots_ok [] [])
                (buildNodeTree path_basename manifest clock random this)
                (fun roots => roots_ok roots
                   [js "FBXHeaderExtension"; js "FileId"; js "CreationTime"; js "Creator";
                    js "GlobalSettings"; js "Documents"; js "References"; js "Definitions";
                    js "Objects"; js "Connections"; js "Takes"])).
  { unfold buildNodeTree.
    eapply hoare_bind; [apply add_root_ok, makes_buildExtendedHeaderNode|]. intros ?.
    eapply hoare_bind; [apply add_root_ok, makes_buildFileIDNode|]. intros ?.
    eapply hoare_bind; [apply add_root_ok, makes_buildCreationTimeNode|]. intros ?.
    eapply hoare_bind; [apply add_root_ok, makes_buildCreatorNode|]. intros ?.
    eapply hoare_bind; [apply add_root_ok, makes_buildGlobalSettingsNode|]. intros ?.
    eapply hoare_bind; [apply add_root_ok, makes_buildDocumentsNode|]. intros ?.
    eapply hoare_bind; [apply add_root_ok, makes_new_FBXNodeRecord|]. intros ?.
    eapply hoare_bind; [apply add_root_ok, makes_buildDefinitionsNode|]. intros ?.
    eapply hoare_bind; [apply add_root_ok, makes_buildObjectsNode|]. intros ?.
    eapply hoare_bind; [apply add_root_ok, makes_buildConnectionsNode|]. intros ?.
    eapply hoare_bind; [apply add_root_ok, makes_buildTakesNode|]. intros ?.
    apply hoare_ret. }
  intros m. unfold m. clear m.
  destruct (H r) as (Hnodup & _ & Hnames).
  { split; [constructor|]. split; constructor. }
  destruct (buildNodeTree path_basename manifest clock random this r) as [roots r1].
  simpl in *. split; [|split; [exact Hnodup|]].
  - exact (Forall2_length _ _ _ Hnames).
  - eapply Forall2_impl; [exact Hnames|]. intros root nm. unfold names.
    rewrite list_lookup_fmap. exact id.
Qed.

(** ** Names outside ASCII *)

(** C2 (the code departs from it): for the node named U+00E9, whose name is
    one code unit and two UTF-8 bytes, the size pass counts a header of
    4+4+4+1+1 = 14 bytes, while the write pass emits a header of 15: the
    length byte says 2 and two name bytes follow. *)
Theorem header_cost_counts_code_units :
  let m := new_FBXNodeRecord [233] None [] fresh_runtime in
  js_length [233] = 1 /\
  Z.of_nat (length (utf8 [233])) = 2 /\
  exists h',
    calculateNodeTreeSize 1 (ANode m.1) (heap m.2) = Ok (4 + 4 + 4 + 1 + 1, h') /\
    propertySize <$> h' !! m.1 = Some (Some 0) /\
    writeNode 1 h' m.1 (buffer_of 64 [])
    = Ok (buffer_of 64 (le_bytes 4 14 ++ le_bytes 4 0 ++ le_bytes 4 0 ++ [2] ++ [195; 169])).
Proof.
  intros m. split; [reflexivity|]. split; [reflexivity|].
  destruct (calculateNodeTreeSize 1 (ANode m.1) (heap m.2)) as [[s h']| |] eqn:Hcalc;
    [|by vm_compute in Hcalc|by vm_compute in Hcalc].
  vm_compute in Hcalc. injection Hcalc as <- <-.
  eexists. split; [reflexivity|]. split; vm_compute; reflexivity.
Qed.

(** C1 (the code departs from it): for the node named U+00E9 with one child
    named U+00FC, the size pass stores 41 for the parent and 14 for the
    child, and the write pass, started at offset 27, writes the end offset
    68 = 27 + 41 in the parent's header and then emits 43 bytes, ending at
    offset 70; the buffer [write] allocates from the computed size cannot
    hold them. *)
Theorem non_ascii_names_overrun :
  let m := (parent ← new_FBXNodeRecord [233] None [];
            addChild_new parent (new_FBXNodeRecord [252] None []);;
            mret parent) fresh_runtime in
  let buf := buffer_of 128 (repeat 0 27) in
  exists h' buf',
    calculateNodeTreeSize 2 (ANode m.1) (heap m.2) = Ok (41, h') /\
    size <$> h' !! m.1 = Some (Some 41) /\
    size <$> h' !! 1%nat = Some (Some 14) /\
    writeNode 2 h' m.1 buf = Ok buf' /\
    take 4 (drop 27 (written buf')) = le_bytes 4 (offset buf + 41) /\
    offset buf' = offset buf + 43 /\
    serialize 3 [m.1] (heap m.2) = Throw OutOfBounds.
Proof.
  intros m buf.
  destruct (calculateNodeTreeSize 2 (ANode m.1) (heap m.2)) as [[s h']| |] eqn:Hcalc;
    [|by vm_compute in Hcalc|by vm_compute in Hcalc].
  vm_compute in Hcalc. injection Hcalc as <- <-.
  eexists _, _. split; [reflexivity|]. split; [reflexivity|]. split; [reflexivity|].
  split; [vm_compute; reflexivity|]. repeat split; vm_compute; reflexivity.
Qed.

(** ** Two exports *)

(** C9 (the code departs from it): two exports with the same manifest, the
    same destination and the same random numbers, one at 09:05:07.012 and
    one at 10:05:07.012 UTC of the same day. The hour is formatted without
    padding, so the three timestamp strings of the second export are one
    byte longer each: the second file is three bytes longer, and the files
    differ already at offset 27, in the end offset of the first root record,
    which is neither a file-id nor a timestamp byte. *)
Theorem exports_differ_outside_timestamps :
  let manifest := {| version := js "0.1.20"; flavour := js "win-x64" |} in
  let this := {| out := js "export/model.fbx" |} in
  let random := fun _ : nat => 0x1p-1%float in
  exists a b,
    export manifest (clock_at 9) random this 8 = Some a /\
    export manifest (clock_at 10) random this 8 = Some b /\
    length b = (length a + 3)%nat /\
    take 27 a = take 27 b /\
    take 4 (drop 27 a) = le_bytes 4 1797 /\
    take 4 (drop 27 b) = le_bytes 4 1799.
Proof.
  intros manifest this random.
  assert (H : match export manifest (clock_at 9) random this 8,
                    export manifest (clock_at 10) random this 8 with
              | Some a, Some b =>
                bool_decide (length b = (length a + 3)%nat /\
                             take 27 a = take 27 b /\
                             take 4 (drop 27 a) = le_bytes 4 1797 /\
                             take 4 (drop 27 b) = le_bytes 4 1799)
              | _, _ => false
              end = true) by (vm_compute; reflexivity).
  destruct (export manifest (clock_at 9) random this 8) as [a|]; [|discriminate].
  destruct (export manifest (clock_at 10) random this 8) as [b|]; [|discriminate].
  exists a, b. split; [reflexivity|]. split; [reflexivity|].
  exact (bool_decide_eq_true_1 _ H).
Qed.

(** Where the hours have as many digits, the exception list of C9 is
    complete: at 10:05:07.012 on 2 November 2026 and at 23:48:30.999 on
    19 January 2031, with different random numbers, the two files are equal
    once the file-id and timestamp payloads are blanked, and these payloads
    sit in both files where their labels say. *)
Lemma exports_agree_outside_timestamps :
  let manifest := {| version := js "0.1.20"; flavour := js "win-x64" |} in
  let this := {| out := js "export/model.fbx" |} in
  exists a b,
    export manifest (clock_at 10) (fun _ => 0x1p-1%float) this 8 = Some a /\
    export manifest clock_later (fun _ => 0x1p-2%float) this 8 = Some b /\
    a <> b /\
    blank timestamp_fields a = blank timestamp_fields b /\
    Forall (labelled a) timestamp_fields /\
    Forall (labelled b) timestamp_fields.
Proof.
  intros manifest this.
  assert (H : match export manifest (clock_at 10) (fun _ => 0x1p-1%float) this 8,
                    export manifest clock_later (fun _ => 0x1p-2%float) this 8 with
              | Some a, Some b =>
                bool_decide (a <> b /\
                             blank timestamp_fields a = blank timestamp_fields b /\
                             Forall (labelled a) timestamp_fields /\
                             Forall (labelled b) timestamp_fields)
              | _, _ => false
              end = true) by (vm_compute; reflexivity).
  destruct (export manifest (clock_at 10) _ this 8) as [a|]; [|discriminate].
  destruct (export manifest clock_later _ this 8) as [b|]; [|discriminate].
  exists a, b. split; [reflexivity|]. split; [reflexivity|].
  exact (bool_decide_eq_true_1 _ H).
Qed.

(** ** Both passes return on well-formed trees *)

Lemma size_property_writable a p :
  writable p = true -> exists k, 0 <= k /\ size_property a p = Ok (a + 1 + k).
Proof.
  unfold writable, size_property. destruct p as [i t v]. simpl.
  destruct t; simpl; try done; intros Hw;
    try (destruct v; try done; simpl; eexists; split; [|reflexivity]; lia);
    try (eexists; split; [|reflexivity]; lia).
Qed.

Lemma size_properties_writable a ps :
  Forall (fun p => writable p = true) ps ->
  exists k, 0 <= k /\ size_properties a ps = Ok (a + k).
Proof.
  intros Hps. revert a. induction Hps as [|p ps Hp Hps IH]; intros a; simpl.
  - exists 0. split; [lia|]. unfold mret, Outcome_ret. f_equal. lia.
  - destruct (size_property_writable a p Hp) as (k1 & Hk1 & ->). simpl.
    destruct (IH (a + 1 + k1)) as (k2 & Hk2 & ->).
    exists (1 + k1 + k2). split; [lia|]. f_equal. lia.
Qed.

Lemma agreeable_shape nd nd' : same_shape nd nd' -> agreeable nd -> agreeable nd'.
Proof. intros (Hn & Hp & Hc) (H1 & H2 & H3). unfold agreeable. by rewrite <- Hn, <- Hp. Qed.

Lemma Forall_agreeable_shape (h h' : Heap) :
  Forall2 same_shape h h' -> Forall agreeable h -> Forall agreeable h'.
Proof.
  induction 1 as [|nd nd' h h' Hs _ IH]; [done|].
  intros [Hnd Hh]%Forall_cons. constructor; eauto using agreeable_shape.
Qed.

Lemma ranked_shape rank (h h' : Heap) :
  Forall2 same_shape h h' -> ranked rank h -> ranked rank h'.
Proof.
  intros Hs Hr l nd' c Hl' Hc.
  destruct (Forall2_lookup_r _ _ _ _ _ Hs Hl') as (nd & Hl & _ & _ & Hkids).
  rewrite <- Hkids in Hc. destruct (Hr l nd c Hl Hc) as [[ndc Hndc] Hlt]. split; [|done].
  destruct (same_heap_lookup _ _ _ _ Hs Hndc) as (ndc' & -> & _). eauto.
Qed.

Lemma size_children_returns calc (rank : loc -> nat) (bound : nat) a cs (h : Heap) :
  (forall c (h1 : Heap) s1 h2, calc c h1 = Ok (s1, h2) -> Forall2 same_shape h1 h2) ->
  (forall c (h1 : Heap), ranked rank h1 -> Forall agreeable h1 -> is_Some (h1 !! c) ->
     (rank c < bound)%nat -> exists s1 h2, calc c h1 = Ok (s1, h2)) ->
  ranked rank h -> Forall agreeable h ->
  Forall (fun c => is_Some (h !! c) /\ (rank c < bound)%nat) cs ->
  exists s h', size_children calc a cs h = Ok (s, h').
Proof.
  intros Hshape Hcalc. revert a h.
  induction cs as [|c cs IH]; intros a h Hr Ha Hcs; simpl; [by eauto|].
  apply Forall_cons in Hcs as [[Hc Hlt] Hcs].
  destruct (Hcalc c h Hr Ha Hc Hlt) as (s1 & h1 & Hc1). rewrite Hc1. simpl.
  pose proof (Hshape _ _ _ _ Hc1) as Hs1.
  apply IH; eauto using ranked_shape, Forall_agreeable_shape.
  eapply Forall_impl; [done|]. intros d [[ndd Hd] Hdlt]. split; [|done].
  destruct (same_heap_lookup _ _ _ _ Hs1 Hd) as (ndd' & -> & _). eauto.
Qed.

(** On a heap without cycles whose nodes are agreeable, the size pass
    returns for every node once the fuel exceeds the node's rank. *)
Lemma calculateNodeTreeSize_returns rank fuel (h : Heap) l :
  ranked rank h -> Forall agreeable h -> is_Some (h !! l) -> (rank l < fuel)%nat ->
  exists s h', calculateNodeTreeSize fuel (ANode l) h = Ok (s, h').
Proof.
  revert h l. induction fuel as [|fuel IH]; intros h l Hr Ha [nd Hl] Hlt; [lia|].
  simpl. rewrite Hl.
  assert (Hnd : agreeable nd) by (eapply Forall_lookup_1; eauto).
  destruct Hnd as (_ & _ & Hprops).
  destruct (size_properties_writable (0 + (4 + 4 + 4 + 1 + js_length (name nd))) _ Hprops)
    as (k & _ & ->). simpl.
  destruct (size_children_returns
              (fun child => calculateNodeTreeSize fuel (ANode child)) rank fuel
              (0 + (4 + 4 + 4 + 1 + js_length (name nd)) + k) (children nd) h)
    as (s & h' & ->); try done.
  - intros c h1 s1 h2. apply calculateNodeTreeSize_shape.
  - intros c h1 Hr1 Ha1 Hc Hc'. by apply IH.
  - apply Forall_forall. intros c Hc. destruct (Hr l nd c Hl Hc). split; [done|lia].
  - simpl. eauto.
Qed.

Lemma put_int_of_float_ok n lo hi f buf :
  (PrimFloat.ltb f lo || PrimFloat.ltb hi f)%bool = false ->
  offset buf + Z.of_nat n <= capacity buf ->
  exists buf', put_int_of_float n lo hi f buf = Ok buf'.
Proof.
  intros Hrange Hroom. unfold put_int_of_float. rewrite Hrange.
  rewrite put_ok by (by rewrite le_bytes_length). eauto.
Qed.

Lemma offset_nonneg buf : 0 <= offset buf.
Proof. unfold offset. lia. Qed.

Lemma size_property_grows a p b : size_property a p = Ok b -> a + 1 <= b.
Proof.
  unfold size_property. destruct p as [i t v]. simpl.
  destruct (decide (t = PROPERTY_STRING)) as [->|].
  { destruct v; simpl; try done; intros [= <-]; lia. }
  destruct (decide (t = PROPERTY_BINARY)) as [->|].
  { destruct v; simpl; try done; intros [= <-]; lia. }
  destruct t; simpl; try done; intros [= <-]; lia.
Qed.

Lemma size_properties_grows a ps b :
  size_properties a ps = Ok b -> a + Z.of_nat (length ps) <= b.
Proof.
  revert a. induction ps as [|p ps IH]; intros a; simpl.
  - intros [= <-]. lia.
  - intros H. bind_inv H. apply size_property_grows in Hx. apply IH in H. lia.
Qed.

Lemma write_property_returns p a b buf :
  writable p = true ->
  size_property a p = Ok b ->
  offset buf + (b - a) <= capacity buf ->
  offset buf + (b - a) <= 4294967295 ->
  exists buf', write_property p buf = Ok buf'.
Proof.
  intros Hw Hs Hroom Hmax. pose proof (offset_nonneg buf) as Hpos.
  pose proof (size_property_grows _ _ _ Hs) as Hgrow.
  unfold write_property. pose proof (type_code_byte (type p)).
  rewrite writeUInt8_ok by (auto; lia). simpl.
  unfold writable in Hw. unfold size_property in Hs.
  set (buf1 := buffer_of _ _).
  assert (Hoff : offset buf1 = offset buf + 1).
  { unfold buf1. rewrite offset_buffer_of, length_app_Z. unfold offset. simpl. lia. }
  assert (Hcap : capacity buf1 = capacity buf) by done.
  clearbody buf1. destruct p as [i t v]. simpl in *.
  destruct t; simpl in *; try done.
  - destruct (ToNumber v) as [f| |]; [|done|done]. simpl. injection Hs as <-.
    apply put_int_of_float_ok; [by apply negb_true_iff in Hw | simpl; lia].
  - destruct (ToNumber v) as [f| |]; [|done|done]. simpl. injection Hs as <-.
    apply put_int_of_float_ok; [by apply negb_true_iff in Hw | simpl; lia].
  - destruct (ToNumber v) as [f| |]; [|done|done]. simpl in *.
    destruct (BigInt f) as [n| |]; [|done|done]. simpl. injection Hs as <-.
    apply andb_true_iff in Hw as [Hlo%Z.leb_le Hhi%Z.leb_le].
    unfold writeInt64LE. rewrite put_int_ok by (simpl; lia). eauto.
  - destruct (ToNumber v) as [f| |]; [|done|done]. simpl. injection Hs as <-.
    unfold writeFloatLE. rewrite put_ok by (rewrite le_bytes_length; lia). eauto.
  - destruct (ToNumber v) as [f| |]; [|done|done]. simpl. injection Hs as <-.
    unfold writeDoubleLE. rewrite put_ok by (rewrite le_bytes_length; lia). eauto.
  - injection Hs as <-. rewrite writeUInt8_ok by (destruct (truthy v); lia). eauto.
  - destruct v as [f|s|bf|bl]; try done. simpl in *. injection Hs as <-.
    rewrite writeUInt32LE_ok by lia. simpl.
    rewrite writeString_ok; [eauto|].
    rewrite offset_buffer_of, length_app_Z, le_bytes_length. unfold offset in *. simpl. lia.
  - destruct v as [f|s|bf|bl]; try done. simpl in *. injection Hs as <-.
    rewrite writeUInt32LE_ok by lia. simpl.
    unfold writeBuffer. rewrite put_ok; [eauto|].
    rewrite offset_buffer_of, length_app_Z, le_bytes_length. unfold offset in *. simpl. lia.
Qed.

Lemma write_properties_returns ps a b buf :
  Forall (fun p => writable p = true) ps ->
  size_properties a ps = Ok b ->
  offset buf + (b - a) <= capacity buf ->
  offset buf + (b - a) <= 4294967295 ->
  exists buf', write_properties ps buf = Ok buf'.
Proof.
  intros Hps. revert a buf. induction Hps as [|p ps Hp Hps IH]; intros a buf; simpl; [by eauto|].
  intros Hs Hroom Hmax. bind_inv Hs.
  pose proof (size_properties_grows _ _ _ Hs) as Hgrow.
  destruct (write_property_returns p a x buf Hp Hx) as [buf1 Hbuf1]; [lia|lia|].
  rewrite Hbuf1. simpl.
  destruct (write_property_size _ _ _ _ _ Hx Hbuf1) as (bs & Hbs & Hlen).
  pose proof (appended_offset _ _ _ Hbs) as Hoff.
  assert (capacity buf1 = capacity buf) as Hcap by (by rewrite Hbs).
  eapply IH; eauto; lia.
Qed.

Lemma write_padding_returns n buf :
  offset buf + Z.of_nat n <= capacity buf ->
  exists buf', write_padding n buf = Ok buf'.
Proof.
  revert buf. induction n as [|n IH]; intros buf Hroom; simpl; [by eauto|].
  rewrite writeUInt8_ok by lia. simpl. apply IH.
  rewrite offset_buffer_of, length_app_Z. unfold offset in *. simpl. lia.
Qed.

Lemma sized_positive n (h : Heap) l s : sized n h l s -> 13 <= s.
Proof.
  revert l s. induction n as [|n IH]; intros l s; [done|].
  intros (nd & ps & cs & Hl & Hps & Hcs & -> & _ & _).
  apply size_properties_grows in Hps.
  assert (0 <= Zsum cs).
  { clear -Hcs IH. induction Hcs as [|c sc cs' scs Hc _ IHcs]; simpl; [lia|].
    apply IH in Hc. lia. }
  unfold trailer_size, js_length. case_decide; lia.
Qed.

Lemma write_children_returns n (h : Heap) cs ss buf :
  (forall c s b, sized n h c s -> offset b + s <= capacity b ->
     offset b + s <= 4294967295 ->
     exists b', writeNode n h c b = Ok b' /\ offset b' = offset b + s /\
       capacity b' = capacity b) ->
  Forall2 (sized n h) cs ss ->
  offset buf + Zsum ss <= capacity buf ->
  offset buf + Zsum ss <= 4294967295 ->
  exists buf', write_children (writeNode n h) cs buf = Ok buf' /\
    offset buf' = offset buf + Zsum ss /\ capacity buf' = capacity buf.
Proof.
  intros Hwrite Hcs. revert buf.
  induction Hcs as [|c s cs ss Hc Hcs IH]; intros buf Hroom Hmax; simpl.
  - exists buf. split; [done|]. split; [lia|done].
  - simpl in Hroom, Hmax.
    assert (0 <= Zsum ss).
    { clear -Hcs. induction Hcs as [|c' s' cs' ss' Hc' _ IHcs]; simpl; [lia|].
      apply sized_positive in Hc'. lia. }
    destruct (Hwrite c s buf Hc) as (b1 & Hb1 & Hoff1 & Hcap1); [lia|lia|].
    rewrite Hb1. simpl.
    destruct (IH b1) as (b2 & Hb2 & Hoff2 & Hcap2); [lia|lia|].
    exists b2. split; [done|]. split; [lia | congruence].
Qed.

(** On a sized tree of agreeable nodes the write pass returns, given room
    for the stored size and an end offset that fits 32 bits; it advances the
    cursor by exactly the stored size. *)
Lemma writeNode_returns n (h : Heap) :
  Forall agreeable h ->
  forall l s buf,
    sized n h l s ->
    offset buf + s <= capacity buf ->
    offset buf + s <= 4294967295 ->
    exists buf', writeNode n h l buf = Ok buf' /\ offset buf' = offset buf + s /\
      capacity buf' = capacity buf.
Proof.
  intros Hagree.
  assert (Hnames : Forall (fun nd => Z.of_nat (length (utf8 (name nd))) = js_length (name nd)) h).
  { eapply Forall_impl; [done|]. by intros nd (? & _). }
  induction n as [|n IH]; intros l s buf Hsized Hroom Hmax; [done|].
  cut (exists buf', writeNode (S n) h l buf = Ok buf').
  { intros [buf' Hbuf']. exists buf'. split; [done|].
    destruct (writeNode_emits_size _ _ Hnames _ _ _ _ Hsized Hbuf') as (bs & Hbs & _ & _ & Hoff).
    split; [done|]. by rewrite Hbs. }
  pose proof (sized_positive _ _ _ _ Hsized) as Hpos.
  destruct Hsized as (nd & ps & cs & Hl & Hps & Hcs & Hs & Hsz & Hpsz).
  pose proof (offset_nonneg buf) as Hoff0.
  assert (Hnd : agreeable nd) by (eapply Forall_lookup_1; eauto).
  destruct Hnd as (Hname & Hname255 & Hprops).
  pose proof (size_properties_grows _ _ _ Hps) as Hpsgrow.
  assert (Hkids : 0 <= Zsum cs).
  { clear -Hcs. induction Hcs as [|c' s' cs' ss' Hc' _ IHcs]; simpl; [lia|].
    apply sized_positive in Hc'. lia. }
  assert (Htrail : 0 <= trailer_size nd) by (unfold trailer_size; case_decide; lia).
  assert (Hnamepos : 0 <= js_length (name nd)) by (unfold js_length; lia).
  simpl. rewrite Hl, Hsz, Hpsz. simpl.
  rewrite writeUInt32LE_ok by lia. simpl.
  set (b1 := buffer_of _ _).
  assert (Ho1 : offset b1 = offset buf + 4)
    by (unfold b1; rewrite offset_buffer_of, length_app_Z, le_bytes_length; unfold offset; lia).
  rewrite writeUInt32LE_ok by (simpl; lia). simpl.
  set (b2 := buffer_of _ _).
  assert (Ho2 : offset b2 = offset buf + 8)
    by (unfold b2; rewrite offset_buffer_of, length_app_Z, le_bytes_length; unfold offset in *; simpl in *; lia).
  rewrite writeUInt32LE_ok by (simpl; lia). simpl.
  set (b3 := buffer_of _ _).
  assert (Ho3 : offset b3 = offset buf + 12)
    by (unfold b3; rewrite offset_buffer_of, length_app_Z, le_bytes_length; unfold offset in *; simpl in *; lia).
  rewrite writeUInt8_ok by (simpl; lia). simpl.
  set (b4 := buffer_of _ _).
  assert (Ho4 : offset b4 = offset buf + 13)
    by (unfold b4; rewrite offset_buffer_of, length_app_Z; unfold offset in *; simpl in *; lia).
  rewrite writeString_ok by (simpl; lia). simpl.
  set (b5 := buffer_of _ _).
  assert (Ho5 : offset b5 = offset buf + 13 + js_length (name nd))
    by (unfold b5; rewrite offset_buffer_of, length_app_Z; unfold offset in *; simpl in *; lia).
  assert (Hc5 : capacity b5 = capacity buf) by done.
  clearbody b5. clear b1 b2 b3 b4 Ho1 Ho2 Ho3 Ho4.
  destruct (write_properties_returns _ 0 ps b5 Hprops Hps) as [b6 Hb6]; [lia|lia|].
  rewrite Hb6. simpl.
  destruct (write_properties_size _ _ _ _ _ Hps Hb6) as (pbs & Hpbs & Hplen).
  pose proof (appended_offset _ _ _ Hpbs) as Ho6.
  assert (Hc6 : capacity b6 = capacity buf) by (by rewrite Hpbs).
  destruct (write_children_returns n h (children nd) cs b6 IH Hcs) as (b7 & Hb7 & Ho7 & Hc7);
    [lia|lia|].
  rewrite Hb7. simpl. unfold trailer_size in *. case_decide; [|by eauto].
  apply (write_padding_returns 13). lia.
Qed.

Lemma bind_ret_l {A B} (a : A) (k : A -> Outcome B) : Ok a ≫= k = k a.
Proof. reflexivity. Qed.

Lemma write_preamble_ok cap :
  27 <= cap ->
  write_preamble (buffer_of cap [])
  = Ok (buffer_of cap (utf8 FBX_MAGIC ++ [0x1A; 0x00] ++ le_bytes 4 FBX_VERSION)).
Proof.
  intros Hcap. unfold write_preamble.
  rewrite writeString_ok by (unfold offset; simpl; lia). simpl.
  rewrite writeUInt8_ok by (unfold offset; simpl; lia). simpl.
  rewrite writeUInt8_ok by (unfold offset; simpl; lia). simpl.
  rewrite writeUInt32LE_ok by (unfold offset, FBX_VERSION; simpl; lia).
  reflexivity.
Qed.

(** [serialize] once the size pass has returned. *)
Lemma serialize_after_sizing fuel (h : Heap) tree treeSize h' buf :
  0 <= treeSize ->
  calculateNodeTreeSize (S fuel) (ASet tree) h = Ok (treeSize, h') ->
  write_children (writeNode (S fuel) h') tree
    (buffer_of (treeSize + 27)
       (utf8 FBX_MAGIC ++ [0x1A; 0x00] ++ le_bytes 4 FBX_VERSION)) = Ok buf ->
  serialize (S fuel) tree h = Ok (buf, h').
Proof.
  intros Hpos Hcalc Hbuf. unfold serialize.
  rewrite Hcalc, bind_ret_l. unfold alloc.
  destruct (Z.ltb_spec (treeSize + 27) 0); [lia|].
  rewrite bind_ret_l.
  change {| capacity := treeSize + 27; written := [] |} with (buffer_of (treeSize + 27) []).
  rewrite write_preamble_ok by lia. rewrite bind_ret_l.
  rewrite Hbuf. reflexivity.
Qed.

Lemma calculateNodeTreeSize_set_returns rank fuel (h : Heap) tree :
  ranked rank h ->
  Forall agreeable h ->
  Forall (fun l => is_Some (h !! l) /\ (rank l < fuel)%nat) tree ->
  exists treeSize h',
    calculateNodeTreeSize (S fuel) (ASet tree) h = Ok (treeSize, h').
Proof.
  intros Hr Ha Htree.
  destruct (size_children_returns
              (fun child => calculateNodeTreeSize fuel (ANode child)) rank fuel 0 tree h)
    as (treeSize & h' & Hcalc); try done.
  { intros c h1 s1 h2. apply calculateNodeTreeSize_shape. }
  { intros c h1 Hr1 Ha1 Hc Hlt. by eapply calculateNodeTreeSize_returns. }
  exists treeSize, h'. exact Hcalc.
Qed.

Lemma roots_fill_buffer fuel (h : Heap) tree treeSize h' :
  Forall agreeable h ->
  calculateNodeTreeSize (S fuel) (ASet tree) h = Ok (treeSize, h') ->
  treeSize + 27 <= 4294967295 ->
  0 <= treeSize /\
  exists buf,
    write_children (writeNode (S fuel) h') tree
      (buffer_of (treeSize + 27)
         (utf8 FBX_MAGIC ++ [0x1A; 0x00] ++ le_bytes 4 FBX_VERSION)) = Ok buf /\
    capacity buf = treeSize + 27 /\
    offset buf = capacity buf.
Proof.
  intros Ha Hcalc Hmax.
  change (size_children (fun child => calculateNodeTreeSize fuel (ANode child)) 0 tree h
          = Ok (treeSize, h')) in Hcalc.
  destruct (size_children_sized _ _ _ _ _ _
              (fun c h1 s1 h2 => calculateNodeTreeSize_sized fuel c h1 s1 h2) Hcalc)
    as (ss & Hss & Hsum & _).
  pose proof (size_children_shape _ _ _ _ _ _
    (fun c h1 s1 h2 => calculateNodeTreeSize_shape fuel (ANode c) h1 s1 h2) Hcalc) as Hshape.
  assert (Hpos : 0 <= Zsum ss).
  { clear -Hss. induction Hss as [|c s cs ss Hc _ IH]; simpl; [lia|].
    apply sized_positive in Hc. lia. }
  split; [lia|].
  remember (buffer_of (treeSize + 27)
              (utf8 FBX_MAGIC ++ [0x1A; 0x00] ++ le_bytes 4 FBX_VERSION)) as buf0 eqn:Hbuf0.
  assert (Hoff0 : offset buf0 = 27) by (by rewrite Hbuf0).
  assert (Hcap0 : capacity buf0 = treeSize + 27) by (by rewrite Hbuf0).
  destruct (write_children_returns (S fuel) h' tree ss buf0) as (buf & Hbuf & Hoff & Hcap).
  { intros c s b Hc. apply writeNode_returns; [|exact Hc].
    eapply Forall_agreeable_shape; eauto. }
  { eapply Forall2_impl; [exact Hss|]. intros c s. apply sized_mono. lia. }
  { lia. }
  { lia. }
  exists buf. split; [exact Hbuf|split; [lia|lia]].
Qed.

Lemma contents_full buf : offset buf = capacity buf -> contents buf = written buf.
Proof.
  unfold contents, offset. intros H.
  replace (Z.to_nat (capacity buf) - length (written buf))%nat with 0%nat by lia.
  apply app_nil_r.
Qed.

(** The invariant of the engine, where it holds: on a heap without cycles
    whose names are counted alike by both passes and whose properties are
    writable, [serialize] returns once the fuel exceeds the rank of every
    root (and the file stays below 4 GiB), and the buffer it returns is
    exactly full: the preamble and the root records take the 27 bytes plus
    the computed size that were allocated. *)
Lemma serialize_fills_buffer rank fuel (h : Heap) tree :
  ranked rank h ->
  Forall agreeable h ->
  Forall (fun l => is_Some (h !! l) /\ (rank l < fuel)%nat) tree ->
  exists treeSize h',
    calculateNodeTreeSize (S fuel) (ASet tree) h = Ok (treeSize, h') /\
    (treeSize + 27 <= 4294967295 ->
     exists buf,
       serialize (S fuel) tree h = Ok (buf, h') /\
       capacity buf = treeSize + 27 /\
       offset buf = capacity buf /\
       contents buf = written buf).
Proof.
  intros Hr Ha Htree.
  destruct (calculateNodeTreeSize_set_returns rank fuel h tree Hr Ha Htree)
    as (treeSize & h' & Hcalc).
  exists treeSize, h'. split; [exact Hcalc|]. intros Hmax.
  destruct (roots_fill_buffer fuel h tree treeSize h' Ha Hcalc Hmax)
    as (Hpos & buf & Hbuf & Hcap & Hfull).
  exists buf. split; [|split; [exact Hcap|split; [exact Hfull|]]].
  - exact (serialize_after_sizing fuel h tree treeSize h' buf Hpos Hcalc Hbuf).
  - exact (contents_full buf Hfull).
Qed.

(** * Further properties of the two passes *)

(** ** The size pass reads the tree and assigns two fields *)

Lemma same_heap_sym (h h' : Heap) : Forall2 same_shape h h' -> Forall2 same_shape h' h.
Proof.
  induction 1 as [|a b h h' (Hn & Hp & Hc) _ IH]; constructor; [|exact IH].
  unfold same_shape. by rewrite Hn, Hp, Hc.
Qed.

Lemma reachable_shape (h h' : Heap) roots l :
  Forall2 same_shape h h' -> reachable h roots l -> reachable h' roots l.
Proof.
  intros Hs. induction 1 as [l Hl|p nd c _ IH Hp Hc].
  - by apply reachable_root.
  - destruct (same_heap_lookup _ _ _ _ Hs Hp) as (nd' & Hp' & _ & _ & Hc').
    eapply reachable_child; [exact IH | exact Hp' | by rewrite <- Hc'].
Qed.

(** What is reachable from a node of the tree is part of the tree. *)
Lemma reachable_from (h : Heap) roots c l :
  reachable h roots c -> reachable h [c] l -> reachable h roots l.
Proof.
  intros Hc. induction 1 as [l Hl|p nd d _ IH Hp Hd].
  - apply list_elem_of_singleton in Hl. by subst.
  - eapply reachable_child; eauto.
Qed.

Lemma size_children_frame calc a cs (h : Heap) s h' l :
  (forall c (h1 : Heap) s1 h2, calc c h1 = Ok (s1, h2) -> Forall2 same_shape h1 h2) ->
  (forall c (h1 : Heap) s1 h2, calc c h1 = Ok (s1, h2) ->
     ~ reachable h1 [c] l -> h2 !! l = h1 !! l) ->
  (forall c, c ∈ cs -> ~ reachable h [c] l) ->
  size_children calc a cs h = Ok (s, h') -> h' !! l = h !! l.
Proof.
  intros Hshape Hframe. revert a h. induction cs as [|c cs IH]; intros a h Hcs; simpl.
  - by intros [= _ <-].
  - intros H. bind_inv H. destruct x as [s1 h1]. simpl in H.
    rewrite (IH _ _ (fun d Hd Hr => Hcs d (list_elem_of_further _ _ _ Hd)
                 (reachable_shape _ _ _ _ (same_heap_sym _ _ (Hshape _ _ _ _ Hx)) Hr)) H).
    apply (Hframe _ _ _ _ Hx). apply Hcs, list_elem_of_here.
Qed.

(** The records the pass does not visit are left as they were. *)
Lemma calculateNodeTreeSize_frame fuel arg (h : Heap) s h' l :
  calculateNodeTreeSize fuel arg h = Ok (s, h') ->
  ~ reachable h (match arg with ANode n => [n] | ASet ns => ns end) l ->
  h' !! l = h !! l.
Proof.
  revert arg h s h'. induction fuel as [|fuel IH]; intros arg h s h'; [done|].
  simpl. destruct arg as [n|nodes].
  - destruct (h !! n) as [nd|] eqn:Hn; [|done]. intros H Hl.
    bind_inv H. bind_inv H. destruct x0 as [s1 h1]. simpl in H. injection H as _ <-.
    assert (l <> n) as Hne.
    { intros ->. apply Hl, reachable_root, list_elem_of_here. }
    rewrite list_lookup_alter_ne by done.
    eapply size_children_frame; [| | |exact Hx0].
    + intros c h2 s2 h3. apply calculateNodeTreeSize_shape.
    + intros c h2 s2 h3 Hcalc. exact (IH (ANode c) _ _ _ Hcalc).
    + intros c Hc Hr. apply Hl. eapply reachable_from; [|exact Hr].
      eapply reachable_child; [apply reachable_root, list_elem_of_here | exact Hn | exact Hc].
  - intros H Hl.
    eapply size_children_frame; [| | |exact H].
    + intros c h2 s2 h3. apply calculateNodeTreeSize_shape.
    + intros c h2 s2 h3 Hcalc. exact (IH (ANode c) _ _ _ Hcalc).
    + intros c Hc Hr. apply Hl. eapply reachable_from; [|exact Hr]. by apply reachable_root.
Qed.

(** X1: the size pass is read-only on the tree. It keeps the number of
    records; of every record it keeps the name, the properties and the
    children (it assigns [size] and [propertySize] only); and a record that
    is not part of the tree under the roots is not touched at all. *)
Theorem size_pass_keeps_tree fuel (h : Heap) roots total h' :
  calculateNodeTreeSize fuel (ASet roots) h = Ok (total, h') ->
  length h' = length h /\
  forall l nd, h !! l = Some nd ->
    exists nd', h' !! l = Some nd' /\
      name nd' = name nd /\ properties nd' = properties nd /\ children nd' = children nd /\
      (~ reachable h roots l -> nd' = nd).
Proof.
  intros Hcalc. pose proof (calculateNodeTreeSize_shape _ _ _ _ _ Hcalc) as Hshape.
  split; [symmetry; exact (Forall2_length _ _ _ Hshape)|].
  intros l nd Hl.
  destruct (same_heap_lookup _ _ _ _ Hshape Hl) as (nd' & Hl' & Hn & Hp & Hc).
  exists nd'. split; [exact Hl'|]. split; [by rewrite Hn|]. split; [by rewrite Hp|].
  split; [by rewrite Hc|]. intros Hnot.
  pose proof (calculateNodeTreeSize_frame _ _ _ _ _ l Hcalc Hnot) as Hsame.
  rewrite Hl, Hl' in Hsame. by injection Hsame.
Qed.

Lemma size_pass_keeps_tree_witness :
  let h : Heap :=
    [ {| name := js "A"; properties := []; children := [1%nat]; size := None;
         propertySize := None |};
      {| name := js "B"; properties := []; children := []; size := None;
         propertySize := None |};
      {| name := js "Apart"; properties := []; children := [0%nat]; size := Some 7;
         propertySize := None |} ] in
  exists total h',
    calculateNodeTreeSize 3 (ASet [0%nat]) h = Ok (total, h') /\
    length h' = length h /\
    forall l nd, h !! l = Some nd ->
      exists nd', h' !! l = Some nd' /\
        name nd' = name nd /\ properties nd' = properties nd /\ children nd' = children nd /\
        (~ reachable h [0%nat] l -> nd' = nd).
Proof.
  intros h.
  destruct (calculateNodeTreeSize 3 (ASet [0%nat]) h) as [[total h']| |] eqn:H1;
    [|by vm_compute in H1|by vm_compute in H1].
  exists total, h'. split; [reflexivity|].
  exact (size_pass_keeps_tree 3 h [0%nat] total h' H1).
Defined.

(** ** What the size pass stores *)


Lemma roots_sized fuel (h : Heap) roots total h' :
  calculateNodeTreeSize fuel (ASet roots) h = Ok (total, h') ->
  exists n ss, Forall2 (sized n h') roots ss /\ total = Zsum ss.
Proof.
  destruct fuel as [|fuel]; [done|]. simpl. intros Hcalc.
  destruct (size_children_sized _ _ _ _ _ _
              (fun c h1 s1 h2 => calculateNodeTreeSize_sized fuel c h1 s1 h2) Hcalc)
    as (ss & Hss & -> & _).
  exists fuel, ss. split; [exact Hss | lia].
Qed.



(** X3: the property-list length of the header is exact whatever the name
    of the node: on a node of a sized tree, the bytes the write pass emits
    for the properties are as many as the stored [propertySize]. *)
Theorem property_list_length_is_exact fuel (h : Heap) roots total h' l nd buf buf' :
  calculateNodeTreeSize fuel (ASet roots) h = Ok (total, h') ->
  reachable h roots l ->
  h' !! l = Some nd ->
  write_properties (properties nd) buf = Ok buf' ->
  exists ps bs,
    propertySize nd = Some ps /\ appended buf buf' bs /\ Z.of_nat (length bs) = ps.
Proof.
  intros Hcalc Hl Hnd Hwrite.
  pose proof (calculateNodeTreeSize_shape _ _ _ _ _ Hcalc) as Hshape.
  destruct (roots_sized _ _ _ _ _ Hcalc) as (n & ss & Hss & _).
  destruct (reachable_sized _ _ _ _ _ _ Hshape Hss Hl)
    as (m & s & nd' & ps & cs & Hnd' & Hps & _ & _ & _ & Hpsz).
  rewrite Hnd in Hnd'. injection Hnd' as <-.
  destruct (write_properties_size _ 0 _ _ _ Hps Hwrite) as (bs & Hbs & Hlen).
  exists ps, bs. split; [done|]. split; [done|]. lia.
Qed.

Lemma property_list_length_is_exact_witness :
  let h : Heap :=
    [ {| name := [233];
         properties := [ {| pid := 0; type := PROPERTY_STRING; value := VString [233; 233] |};
                         {| pid := 1; type := PROPERTY_DOUBLE; value := num 1 |} ];
         children := []; size := None; propertySize := None |} ] in
  let buf := buffer_of 64 [] in
  exists total h' nd buf',
    calculateNodeTreeSize 2 (ASet [0%nat]) h = Ok (total, h') /\
    reachable h [0%nat] 0%nat /\
    h' !! 0%nat = Some nd /\
    write_properties (properties nd) buf = Ok buf' /\
    exists ps bs,
      propertySize nd = Some ps /\ appended buf buf' bs /\ Z.of_nat (length bs) = ps.
Proof.
  intros h buf.
  destruct (calculateNodeTreeSize 2 (ASet [0%nat]) h) as [[total h']| |] eqn:H1;
    [|by vm_compute in H1|by vm_compute in H1].
  assert (H2 : reachable h [0%nat] 0%nat) by (apply reachable_root, list_elem_of_here).
  destruct (h' !! 0%nat) as [nd|] eqn:H3;
    [|vm_compute in H1; injection H1 as <- <-; by vm_compute in H3].
  destruct (write_properties (properties nd) buf) as [buf'| |] eqn:H4;
    [|vm_compute in H1; injection H1 as <- <-; vm_compute in H3; injection H3 as <-;
      by vm_compute in H4
     |vm_compute in H1; injection H1 as <- <-; vm_compute in H3; injection H3 as <-;
      by vm_compute in H4].
  exists total, h', nd, buf'.
  split; [reflexivity|]. split; [exact H2|]. split; [exact H3|]. split; [exact H4|].
  exact (property_list_length_is_exact 2 h [0%nat] total h' 0%nat nd buf buf' H1 H2 H3 H4).
Defined.

(** ** The result of the write pass does not depend on the fuel *)

Lemma write_children_impl (w1 w2 : loc -> BufferWrapper -> Outcome BufferWrapper) cs buf buf' :
  (forall c b b', w1 c b = Ok b' -> w2 c b = Ok b') ->
  write_children w1 cs buf = Ok buf' -> write_children w2 cs buf = Ok buf'.
Proof.
  intros Hw. revert buf. induction cs as [|c cs IH]; intros buf; simpl; [done|].
  intros H. bind_inv H. rewrite (Hw _ _ _ Hx). simpl. by apply IH.
Qed.

Lemma writeNode_mono n m (h : Heap) l buf buf' :
  (n <= m)%nat -> writeNode n h l buf = Ok buf' -> writeNode m h l buf = Ok buf'.
Proof.
  revert m l buf buf'. induction n as [|n IH]; intros m l buf buf' Hnm; [done|].
  destruct m as [|m]; [lia|]. simpl.
  destruct (h !! l) as [nd|]; [|done]. intros H.
  bind_inv H. rewrite Hx. simpl.
  bind_inv H. rewrite Hx0. simpl.
  bind_inv H. rewrite Hx1. simpl.
  bind_inv H. rewrite Hx2. simpl.
  bind_inv H. rewrite Hx3. simpl.
  bind_inv H. rewrite Hx4. simpl.
  bind_inv H. rewrite Hx5. simpl.
  bind_inv H. rewrite Hx6. simpl.
  bind_inv H.
  assert (Hle : (n <= m)%nat) by lia.
  rewrite (write_children_impl _ (writeNode m h) _ _ _
             (fun c b b' => IH m c b b' Hle) Hx7). simpl.
  exact H.
Qed.

(** X4: the two passes agree on trees with ASCII names. Size a tree whose
    names hold code units below 128 only, then write any of its nodes, at
    any depth: a write that returns has appended exactly as many bytes as
    the size stored on the node, and the first four of them are the end
    offset, the cursor before the node plus the stored size, which is where
    the cursor stands after the node. *)
Theorem sizes_agree_on_ascii_names fuel k (h : Heap) roots total h' l nd buf buf' :
  Forall (fun nd => Forall (fun c => c < 128) (name nd)) h ->
  calculateNodeTreeSize fuel (ASet roots) h = Ok (total, h') ->
  reachable h roots l ->
  h' !! l = Some nd ->
  writeNode k h' l buf = Ok buf' ->
  exists s bs,
    size nd = Some s /\
    appended buf buf' bs /\
    Z.of_nat (length bs) = s /\
    take 4 bs = le_bytes 4 (offset buf + s) /\
    offset buf' = offset buf + s.
Proof.
  intros Hascii Hcalc Hl Hnd Hwrite.
  pose proof (calculateNodeTreeSize_shape _ _ _ _ _ Hcalc) as Hshape.
  destruct (roots_sized _ _ _ _ _ Hcalc) as (n & ss & Hss & _).
  destruct (reachable_sized _ _ _ _ _ _ Hshape Hss Hl) as (m & s & Hsized).
  assert (Hnames : Forall (fun nd => Z.of_nat (length (utf8 (name nd))) = js_length (name nd)) h').
  { apply Forall_lookup_2. intros i x Hx.
    destruct (same_heap_lookup _ _ _ _ (same_heap_sym _ _ Hshape) Hx) as (x0 & Hx0 & Hn & _).
    rewrite Hn. rewrite utf8_ascii; [done|]. exact (Forall_lookup_1 _ _ _ _ Hascii Hx0). }
  destruct (sized_stored _ _ _ _ Hsized) as (nd' & Hnd' & Hsz).
  rewrite Hnd in Hnd'. injection Hnd' as <-.
  exists s.
  assert (Hm : (S m <= Nat.max (S m) k)%nat) by lia.
  assert (Hk : (k <= Nat.max (S m) k)%nat) by lia.
  destruct (writeNode_emits_size (Nat.max (S m) k) h' Hnames l s buf buf'
              (sized_mono _ _ _ _ _ Hm Hsized)
              (writeNode_mono _ _ _ _ _ _ Hk Hwrite)) as (bs & Hbs).
  exists bs. split; [exact Hsz | exact Hbs].
Qed.

Lemma sizes_agree_on_ascii_names_witness :
  let h : Heap :=
    [ {| name := js "Model";
         properties := [ {| pid := 0; type := PROPERTY_STRING; value := VString [233; 233] |} ];
         children := [1%nat]; size := None; propertySize := None |};
      {| name := js "Version";
         properties := [ {| pid := 1; type := PROPERTY_INT_32; value := num 232 |} ];
         children := []; size := None; propertySize := None |} ] in
  let buf := buffer_of 128 (repeat 0 27) in
  exists total h' nd buf',
    Forall (fun nd => Forall (fun c => c < 128) (name nd)) h /\
    calculateNodeTreeSize 3 (ASet [0%nat]) h = Ok (total, h') /\
    reachable h [0%nat] 0%nat /\
    h' !! 0%nat = Some nd /\
    writeNode 2 h' 0%nat buf = Ok buf' /\
    exists s bs,
      size nd = Some s /\
      appended buf buf' bs /\
      Z.of_nat (length bs) = s /\
      take 4 bs = le_bytes 4 (offset buf + s) /\
      offset buf' = offset buf + s.
Proof.
  intros h buf.
  assert (H0 : Forall (fun nd => Forall (fun c => c < 128) (name nd)) h).
  { repeat constructor. }
  destruct (calculateNodeTreeSize 3 (ASet [0%nat]) h) as [[total h']| |] eqn:H1;
    [|by vm_compute in H1|by vm_compute in H1].
  assert (H2 : reachable h [0%nat] 0%nat) by (apply reachable_root, list_elem_of_here).
  destruct (h' !! 0%nat) as [nd|] eqn:H3;
    [|vm_compute in H1; injection H1 as <- <-; by vm_compute in H3].
  destruct (writeNode 2 h' 0%nat buf) as [buf'| |] eqn:H4;
    [|vm_compute in H1; injection H1 as <- <-; by vm_compute in H4
     |vm_compute in H1; injection H1 as <- <-; by vm_compute in H4].
  exists total, h', nd, buf'.
  split; [exact H0|]. split; [reflexivity|]. split; [exact H2|]. split; [exact H3|].
  split; [exact H4|].
  exact (sizes_agree_on_ascii_names 3 2 h [0%nat] total h' 0%nat nd buf buf' H0 H1 H2 H3 H4).
Defined.

(** ** Sizing a sized tree *)

Lemma store_sizes_same s ps nd :
  size nd = Some s -> propertySize nd = Some ps -> store_sizes s ps nd = nd.
Proof. destruct nd. simpl. by intros -> ->. Qed.

Lemma alter_same {A} (f : A -> A) (xs : list A) i x :
  xs !! i = Some x -> f x = x -> alter f i xs = xs.
Proof.
  intros Hi Hf. apply list_eq. intros j. destruct (decide (i = j)) as [<-|Hne].
  - by rewrite list_lookup_alter_eq, Hi; simpl; rewrite Hf.
  - by rewrite list_lookup_alter_ne.
Qed.

Lemma size_children_fixed n (h : Heap) a cs ss :
  (forall c s, sized n h c s -> calculateNodeTreeSize n (ANode c) h = Ok (s, h)) ->
  Forall2 (sized n h) cs ss ->
  size_children (fun child => calculateNodeTreeSize n (ANode child)) a cs h
  = Ok (a + Zsum ss, h).
Proof.
  intros Hcalc Hcs. revert a. induction Hcs as [|c s cs ss Hc _ IH]; intros a; simpl.
  - by rewrite Z.add_0_r.
  - rewrite (Hcalc _ _ Hc). simpl. rewrite IH. do 2 f_equal. lia.
Qed.

(** A sized node is a fixed point of the size pass. *)
Lemma sized_fixed_point n (h : Heap) l s :
  sized n h l s -> calculateNodeTreeSize n (ANode l) h = Ok (s, h).
Proof.
  revert l s. induction n as [|n IH]; intros l s; [done|].
  intros (nd & ps & cs & Hl & Hps & Hcs & Hs & Hsz & Hpsz). simpl. rewrite Hl.
  rewrite size_properties_shift, Hps. simpl.
  rewrite (size_children_fixed n h _ _ cs IH Hcs). simpl.
  assert (Hsize : (if decide (0 < length (children nd))%nat
                   then 0 + (4 + 4 + 4 + 1 + js_length (name nd)) + ps + Zsum cs + 13
                   else 0 + (4 + 4 + 4 + 1 + js_length (name nd)) + ps + Zsum cs) = s).
  { rewrite Hs. unfold trailer_size. case_decide; lia. }
  rewrite Hsize.
  replace (0 + (4 + 4 + 4 + 1 + js_length (name nd)) + ps
           - (0 + (4 + 4 + 4 + 1 + js_length (name nd)))) with ps by lia.
  by rewrite (alter_same _ _ _ _ Hl (store_sizes_same _ _ _ Hsz Hpsz)).
Qed.

(** X5: the size pass can be run again. A second pass over the tree the
    first one has sized returns the same total and changes nothing: every
    node gets the sizes it already has. *)
Theorem size_pass_idempotent fuel (h : Heap) roots total h' :
  calculateNodeTreeSize fuel (ASet roots) h = Ok (total, h') ->
  calculateNodeTreeSize fuel (ASet roots) h' = Ok (total, h').
Proof.
  destruct fuel as [|fuel]; [done|]. simpl. intros Hcalc.
  destruct (size_children_sized _ _ _ _ _ _
              (fun c h1 s1 h2 => calculateNodeTreeSize_sized fuel c h1 s1 h2) Hcalc)
    as (ss & Hss & -> & _).
  exact (size_children_fixed fuel h' 0 roots ss (sized_fixed_point fuel h') Hss).
Qed.

Lemma size_pass_idempotent_witness :
  let h : Heap :=
    [ {| name := js "A"; properties := []; children := [1%nat; 2%nat]; size := None;
         propertySize := None |};
      {| name := js "B"; properties := []; children := [2%nat]; size := None;
         propertySize := None |};
      {| name := js "Shared";
         properties := [ {| pid := 0; type := PROPERTY_BOOLEAN; value := VBoolean true |} ];
         children := []; size := None; propertySize := None |} ] in
  exists total h',
    calculateNodeTreeSize 4 (ASet [0%nat]) h = Ok (total, h') /\
    calculateNodeTreeSize 4 (ASet [0%nat]) h' = Ok (total, h').
Proof.
  intros h.
  destruct (calculateNodeTreeSize 4 (ASet [0%nat]) h) as [[total h']| |] eqn:H1;
    [|by vm_compute in H1|by vm_compute in H1].
  exists total, h'. split; [reflexivity|].
  exact (size_pass_idempotent 4 h [0%nat] total h' H1).
Defined.

(** ** Cycles *)

(** Descendants depend on the children only. *)
Lemma descendant_shape (h h' : Heap) p d :
  Forall2 same_shape h h' -> descendant h p d -> descendant h' p d.
Proof.
  intros Hs. induction 1 as [p nd c Hp Hc|p nd c d Hp Hc _ IH];
    destruct (same_heap_lookup _ _ _ _ Hs Hp) as (nd' & Hp' & _ & _ & Hc').
  - eapply descendant_child; [exact Hp' | by rewrite <- Hc'].
  - eapply descendant_below; [exact Hp' | by rewrite <- Hc' | exact IH].
Qed.

Lemma descendant_trans (h : Heap) a b c :
  descendant h a b -> descendant h b c -> descendant h a c.
Proof.
  induction 1 as [p nd x Hp Hx|p nd x d Hp Hx _ IH]; intros Hbc.
  - eapply descendant_below; eauto.
  - eapply descendant_below; eauto.
Qed.

(** From a node above a cycle one can step to a child above a cycle. *)
Lemma descendant_step (h : Heap) l c :
  descendant h l c -> descendant h c c ->
  exists nd c', h !! l = Some nd /\ c' ∈ children nd /\ descendant h c' c.
Proof.
  intros Hlc Hcc. destruct Hlc as [p nd x Hp Hx|p nd x d Hp Hx Hxd].
  - exists nd, x. auto.
  - exists nd, x. auto.
Qed.

Lemma size_children_blocked (P : Heap -> loc -> Prop) calc a cs (h : Heap) c r :
  (forall (h1 h2 : Heap) d, Forall2 same_shape h1 h2 -> P h1 d -> P h2 d) ->
  (forall d (h1 : Heap) s1 h2, calc d h1 = Ok (s1, h2) -> Forall2 same_shape h1 h2) ->
  (forall d (h1 : Heap) r, P h1 d -> calc d h1 <> Ok r) ->
  c ∈ cs -> P h c ->
  size_children calc a cs h <> Ok r.
Proof.
  intros HP Hshape Hcalc. revert a h. induction cs as [|d cs IH]; intros a h Hc Hh.
  - by apply elem_of_nil in Hc.
  - simpl. intros H. bind_inv H. destruct x as [s1 h1]. simpl in H.
    apply elem_of_cons in Hc as [->|Hc].
    + exact (Hcalc _ _ _ Hh Hx).
    + exact (IH _ _ Hc (HP _ _ _ (Hshape _ _ _ _ Hx) Hh) H).
Qed.

Lemma calculateNodeTreeSize_cycle fuel (h : Heap) l c r :
  descendant h l c -> descendant h c c ->
  calculateNodeTreeSize fuel (ANode l) h <> Ok r.
Proof.
  revert h l r. induction fuel as [|fuel IH]; intros h l r Hlc Hcc; [done|].
  destruct (descendant_step _ _ _ Hlc Hcc) as (nd & c' & Hl & Hc' & Hc'c).
  simpl. rewrite Hl. intros H. bind_inv H. bind_inv H.
  revert Hx0.
  apply (size_children_blocked (fun h d => descendant h d c /\ descendant h c c)
           _ _ _ _ c').
  - intros h1 h2 d Hs [H1 H2]. eauto using descendant_shape.
  - intros d h1 s1 h2. apply calculateNodeTreeSize_shape.
  - intros d h1 r1 [H1 H2]. by apply IH.
  - exact Hc'.
  - done.
Qed.

Lemma write_children_blocked (P : loc -> Prop)
    (write : loc -> BufferWrapper -> Outcome BufferWrapper) cs buf c r :
  (forall d b r, P d -> write d b <> Ok r) ->
  c ∈ cs -> P c ->
  write_children write cs buf <> Ok r.
Proof.
  intros Hwrite. revert buf. induction cs as [|d cs IH]; intros buf Hc Hp.
  - by apply elem_of_nil in Hc.
  - simpl. intros H. bind_inv H.
    apply elem_of_cons in Hc as [->|Hc].
    + exact (Hwrite _ _ _ Hp Hx).
    + exact (IH _ Hc Hp H).
Qed.

Lemma writeNode_cycle fuel (h : Heap) l c buf r :
  descendant h l c -> descendant h c c ->
  writeNode fuel h l buf <> Ok r.
Proof.
  intros Hlc Hcc. revert l buf r Hlc. induction fuel as [|fuel IH]; intros l buf r Hlc; [done|].
  destruct (descendant_step _ _ _ Hlc Hcc) as (nd & c' & Hl & Hc' & Hc'c).
  simpl. rewrite Hl. intros H.
  do 8 bind_inv H. bind_inv H.
  revert Hx7.
  apply (write_children_blocked (fun d => descendant h d c) _ _ _ c').
  - intros d b r1 Hd. by apply IH.
  - exact Hc'.
  - exact Hc'c.
Qed.

(** A cycle below a node of the tree is below one of the roots. *)
Lemma reachable_descendant (h : Heap) roots l c :
  reachable h roots l -> descendant h l c ->
  exists root, root ∈ roots /\ descendant h root c.
Proof.
  induction 1 as [l Hl|p nd x _ IH Hp Hx]; intros Hlc.
  - eauto.
  - apply IH. eapply descendant_below; eauto.
Qed.

(** X6: neither pass guards against cycles. If some node of the tree is
    its own descendant (which [addChild] does not prevent: it accepts the
    node itself or one of its ancestors as a child), then, whatever the
    depth of calls allowed, the size pass does not return on the roots, and
    the write pass does not return on any root above the cycle: each
    recurses until the call stack is exhausted, unless it throws before. *)
Theorem cycles_never_return (h : Heap) roots c :
  reachable h roots c ->
  descendant h c c ->
  (forall fuel r, calculateNodeTreeSize fuel (ASet roots) h <> Ok r) /\
  (exists root, root ∈ roots /\ descendant h root c /\
     forall fuel buf r, writeNode fuel h root buf <> Ok r).
Proof.
  intros Hc Hcc.
  destruct (reachable_descendant _ _ _ _ Hc Hcc) as (root & Hroot & Hrc). split.
  - intros [|fuel] r; [done|]. simpl.
    apply (size_children_blocked (fun h d => descendant h d c /\ descendant h c c)
             _ _ _ _ root).
    + intros h1 h2 d Hs [H1 H2]. eauto using descendant_shape.
    + intros d h1 s1 h2. apply calculateNodeTreeSize_shape.
    + intros d h1 r1 [H1 H2]. by apply calculateNodeTreeSize_cycle with c.
    + exact Hroot.
    + done.
  - exists root. split; [done|]. split; [done|].
    intros fuel buf r. by apply writeNode_cycle with c.
Qed.

Lemma cycles_never_return_witness :
  let m := (a ← new_FBXNodeRecord (js "A") None [];
            b ← addChild_new a (new_FBXNodeRecord (js "B") None []);
            addChild b [a];;
            mret a) fresh_runtime in
  let h := heap m.2 in
  reachable h [m.1] 1%nat /\
  descendant h 1%nat 1%nat /\
  (forall fuel r, calculateNodeTreeSize fuel (ASet [m.1]) h <> Ok r) /\
  (exists root, root ∈ [m.1] /\ descendant h root 1%nat /\
     forall fuel buf r, writeNode fuel h root buf <> Ok r).
Proof.
  intros m h.
  assert (H1 : reachable h [m.1] 1%nat).
  { eapply reachable_child; [apply reachable_root, list_elem_of_here | reflexivity |].
    apply list_elem_of_here. }
  assert (H2 : descendant h 1%nat 1%nat).
  { eapply descendant_below; [reflexivity | apply list_elem_of_here |].
    eapply descendant_child; [reflexivity | apply list_elem_of_here]. }
  split; [exact H1|]. split; [exact H2|].
  exact (cycles_never_return h [m.1] 1%nat H1 H2).
Defined.

(** ** The write pass only appends *)

Lemma grown_refl buf : grown buf buf.
Proof. split; [exists []; apply appended_nil | done]. Qed.

Lemma appended_capacity buf buf' bs : appended buf buf' bs -> capacity buf' = capacity buf.
Proof. by intros ->. Qed.

Lemma grown_trans b1 b2 b3 : grown b1 b2 -> grown b2 b3 -> grown b1 b3.
Proof.
  intros [[xs Hxs] H12] [[ys Hys] H23]. split; [|auto].
  exists (xs ++ ys). by eapply appended_trans.
Qed.

Lemma put_grown bs buf buf' : put bs buf = Ok buf' -> grown buf buf'.
Proof.
  intros H. pose proof (put_appended _ _ _ H) as Happ.
  apply put_inv in H as [-> Hfit]. split; [by exists bs|].
  intros _. rewrite offset_buffer_of, length_app_Z. unfold buffer_of, offset in *. simpl. lia.
Qed.

Lemma put_int_grown n lo hi v buf buf' : put_int n lo hi v buf = Ok buf' -> grown buf buf'.
Proof. unfold put_int. case_match; [done|]. apply put_grown. Qed.

Lemma put_int_of_float_grown n lo hi f buf buf' :
  put_int_of_float n lo hi f buf = Ok buf' -> grown buf buf'.
Proof. unfold put_int_of_float. case_match; [done|]. apply put_grown. Qed.

Lemma write_property_grown p buf buf' : write_property p buf = Ok buf' -> grown buf buf'.
Proof.
  unfold write_property. intros H. bind_inv H. apply put_int_grown in Hx.
  eapply grown_trans; [exact Hx|]. clear Hx.
  destruct (type p); repeat bind_inv H;
    repeat match goal with
           | Hw : writeUInt32LE _ _ = Ok _ |- _ => apply put_int_grown in Hw
           end;
    try (destruct (value p); try done);
    first [ by apply put_int_of_float_grown in H
          | by apply put_int_grown in H
          | by apply put_grown in H
          | by (eapply grown_trans; [eassumption|]; apply put_grown in H)
          | by (injection H as <-; apply grown_refl) ].
Qed.

Lemma write_properties_grown ps buf buf' :
  write_properties ps buf = Ok buf' -> grown buf buf'.
Proof.
  revert buf. induction ps as [|p ps IH]; intros buf; simpl.
  - intros [= <-]. apply grown_refl.
  - intros H. bind_inv H. eapply grown_trans; [by eapply write_property_grown | by apply IH].
Qed.

Lemma write_padding_grown n buf buf' : write_padding n buf = Ok buf' -> grown buf buf'.
Proof.
  revert buf. induction n as [|n IH]; intros buf; simpl.
  - intros [= <-]. apply grown_refl.
  - intros H. bind_inv H. eapply grown_trans; [by eapply put_int_grown | by apply IH].
Qed.

Lemma write_children_grown write cs buf buf' :
  (forall c b b', write c b = Ok b' -> grown b b') ->
  write_children write cs buf = Ok buf' -> grown buf buf'.
Proof.
  intros Hw. revert buf. induction cs as [|c cs IH]; intros buf; simpl.
  - intros [= <-]. apply grown_refl.
  - intros H. bind_inv H. eapply grown_trans; [by eapply Hw | by apply IH].
Qed.

Lemma writeNode_grown fuel (h : Heap) l buf buf' :
  writeNode fuel h l buf = Ok buf' -> grown buf buf'.
Proof.
  revert l buf buf'. induction fuel as [|fuel IH]; intros l buf buf'; [done|].
  simpl. destruct (h !! l) as [nd|]; [|done]. intros H.
  bind_inv H. bind_inv H. apply put_int_grown in Hx0.
  bind_inv H. apply put_int_grown in Hx1.
  bind_inv H. bind_inv H. apply put_int_grown in Hx3.
  bind_inv H. apply put_int_grown in Hx4.
  bind_inv H. apply put_grown in Hx5.
  bind_inv H. apply write_properties_grown in Hx6.
  bind_inv H. apply (write_children_grown _ _ _ _ (IH)) in Hx7.
  assert (grown x7 buf') as Hlast.
  { case_decide; [by apply (write_padding_grown 13) in H | injection H as <-; apply grown_refl]. }
  eauto 10 using grown_trans.
Qed.

Lemma write_preamble_inv buf buf' :
  write_preamble buf = Ok buf' ->
  appended buf buf' (utf8 FBX_MAGIC ++ [0x1A; 0x00] ++ le_bytes 4 FBX_VERSION) /\
  offset buf' <= capacity buf'.
Proof.
  unfold write_preamble. intros H.
  bind_inv H. apply put_appended in Hx.
  bind_inv H. apply put_int_appended in Hx0.
  bind_inv H. apply put_int_appended in Hx1.
  pose proof (put_int_grown _ _ _ _ _ _ H) as [_ Hfit].
  pose proof H as H'. apply put_int_inv in H' as (_ & _ & Hroom).
  apply put_int_appended in H.
  split.
  - exact (appended_trans _ _ _ _ _ Hx (appended_trans _ _ _ _ _ Hx0
             (appended_trans _ _ _ _ _ Hx1 H))).
  - rewrite (appended_offset _ _ _ H), (appended_capacity _ _ _ H), le_bytes_length. lia.
Qed.

Lemma length_contents buf :
  0 <= offset buf <= capacity buf -> Z.of_nat (length (contents buf)) = capacity buf.
Proof.
  unfold contents, offset. intros H. rewrite length_app_Z, repeat_length. lia.
Qed.

Lemma serialize_inv fuel tree (h : Heap) buf h' :
  serialize fuel tree h = Ok (buf, h') ->
  exists treeSize bs,
    calculateNodeTreeSize fuel (ASet tree) h = Ok (treeSize, h') /\
    capacity buf = treeSize + 27 /\
    written buf = (utf8 FBX_MAGIC ++ [0x1A; 0x00] ++ le_bytes 4 FBX_VERSION) ++ bs /\
    offset buf <= capacity buf.
Proof.
  unfold serialize. intros H.
  bind_inv H. destruct x as [treeSize h1]. simpl in H.
  bind_inv H. bind_inv H. bind_inv H. injection H as <- <-.
  unfold alloc in Hx0. destruct (Z.ltb_spec (treeSize + 27) 0); [done|].
  injection Hx0 as <-.
  apply write_preamble_inv in Hx1 as [Hpre Hfit].
  apply (write_children_grown _ _ _ _ (writeNode_grown fuel h1)) in Hx2 as [[bs Hbs] Hfit'].
  revert Hpre. generalize (utf8 FBX_MAGIC ++ [0x1A; 0x00] ++ le_bytes 4 FBX_VERSION).
  intros pre Hpre.
  pose proof (appended_trans _ _ _ _ _ Hpre Hbs) as Hall.
  exists treeSize, bs. split; [exact Hx|].
  split; [rewrite (appended_capacity _ _ _ Hall); reflexivity|].
  split; [rewrite Hall; unfold buffer_of; cbn [written app]; reflexivity | auto].
Qed.

(** X7: the framing of the file does not depend on the tree. Whenever the
    serializer returns, the buffer it hands over is as long as the size
    pass said plus the 27 bytes of the preamble, and starts with the
    preamble: the magic, 0x1A, 0x00 and the version. *)
Theorem serialize_framing fuel tree (h : Heap) buf h' :
  serialize fuel tree h = Ok (buf, h') ->
  exists treeSize,
    calculateNodeTreeSize fuel (ASet tree) h = Ok (treeSize, h') /\
    Z.of_nat (length (contents buf)) = treeSize + 27 /\
    take 27 (contents buf) = utf8 FBX_MAGIC ++ [0x1A; 0x00] ++ le_bytes 4 FBX_VERSION.
Proof.
  intros (treeSize & bs & Hcalc & Hcap & Hwritten & Hfit)%serialize_inv.
  exists treeSize. split; [exact Hcalc|].
  assert (Hlen : length (utf8 FBX_MAGIC ++ [0x1A; 0x00] ++ le_bytes 4 FBX_VERSION) = 27%nat)
    by (vm_compute; reflexivity).
  revert Hwritten Hlen. generalize (utf8 FBX_MAGIC ++ [0x1A; 0x00] ++ le_bytes 4 FBX_VERSION).
  intros pre Hwritten Hlen.
  split.
  - rewrite length_contents; [done|]. split; [apply offset_nonneg | exact Hfit].
  - unfold contents. rewrite Hwritten, <- !app_assoc. by apply take_app_length'.
Qed.

Lemma serialize_framing_witness :
  let h : Heap :=
    [ {| name := [233]; properties := []; children := []; size := None;
         propertySize := None |};
      {| name := js "B";
         properties := [ {| pid := 0; type := PROPERTY_FLOAT; value := num 1 |} ];
         children := []; size := None; propertySize := None |} ] in
  exists buf h',
    serialize 2 [1%nat] h = Ok (buf, h') /\
    exists treeSize,
      calculateNodeTreeSize 2 (ASet [1%nat]) h = Ok (treeSize, h') /\
      Z.of_nat (length (contents buf)) = treeSize + 27 /\
      take 27 (contents buf) = utf8 FBX_MAGIC ++ [0x1A; 0x00] ++ le_bytes 4 FBX_VERSION.
Proof.
  intros h.
  destruct (serialize 2 [1%nat] h) as [[buf h']| |] eqn:H1;
    [|by vm_compute in H1|by vm_compute in H1].
  exists buf, h'. split; [reflexivity|].
  exact (serialize_framing 2 [1%nat] h buf h' H1).
Defined.




(** ** The constructor *)

Lemma Set_add_property_fresh p (ps : list Property) (bound : nat) :
  Forall (fun q => (pid q < bound)%nat) ps -> (bound <= pid p)%nat ->
  Set_add_property p ps = ps ++ [p].
Proof.
  intros Hps Hp. apply Set_add_property_new.
  induction Hps as [|q ps Hq _ IH]; simpl; [apply not_elem_of_nil|].
  apply not_elem_of_cons. split; [lia | exact IH].
Qed.

Lemma for_of_cons {A} (f : A -> Build unit) x xs r :
  for_of (x :: xs) f r = for_of xs f (f x r).2.
Proof. cbn [for_of]. unfold mbind, Build_bind. by destruct (f x r). Qed.

Lemma add_one_property this t v r :
  (p ← new_property t v; update this (add_property p)) r
  = (tt, {| heap := alter (add_property {| pid := nextId r; type := t; value := v |}) this (heap r);
            nextId := S (nextId r);
            dateCalls := dateCalls r; randomCalls := randomCalls r |}).
Proof. reflexivity. Qed.

(** The properties [addProperty] adds for the values [vs] to a node whose
    property objects are older than any it makes. *)
Lemma addProperty_heap this t vs r nd :
  heap r !! this = Some nd ->
  Forall (fun q => (pid q < nextId r)%nat) (properties nd) ->
  (addProperty this t vs r).2
  = {| heap := <[this := {| name := name nd;
                            properties := properties nd ++
                              imap (fun i v => {| pid := nextId r + i; type := t; value := v |}) vs;
                            children := children nd; size := size nd;
                            propertySize := propertySize nd |}]> (heap r);
       nextId := nextId r + length vs;
       dateCalls := dateCalls r; randomCalls := randomCalls r |}.
Proof.
  unfold addProperty. revert r nd. induction vs as [|v vs IH]; intros r nd Hthis Hids.
  - simpl. rewrite app_nil_r, Nat.add_0_r. destruct r as [hp ni dc rc]; simpl in *.
    f_equal. symmetry. apply list_insert_id. rewrite Hthis. by destruct nd.
  - rewrite for_of_cons, add_one_property. cbn [snd].
    set (p := {| pid := nextId r; type := t; value := v |}).
    assert (Hadd : add_property p nd
                   = {| name := name nd; properties := properties nd ++ [p];
                        children := children nd; size := size nd;
                        propertySize := propertySize nd |}).
    { unfold add_property. by rewrite (Set_add_property_fresh p _ (nextId r)). }
    rewrite (IH _ (add_property p nd)).
    + cbn [heap nextId dateCalls randomCalls]. rewrite Hadd.
      cbn [name properties children size propertySize]. f_equal.
      * rewrite <- app_assoc. cbn [imap app]. unfold compose.
        rewrite Nat.add_0_r.
        rewrite (imap_ext _ (fun i v0 => {| pid := nextId r + S i; type := t; value := v0 |}))
          by (intros; f_equal; lia).
        apply list_eq. intros j. destruct (decide (j = this)) as [->|Hne].
        -- rewrite !list_lookup_insert_eq; [done| |rewrite length_alter];
             by apply lookup_lt_Some in Hthis.
        -- rewrite !list_lookup_insert_ne by done. by rewrite list_lookup_alter_ne.
      * simpl. lia.
    + cbn [heap]. by rewrite list_lookup_alter_eq, Hthis.
    + cbn [nextId]. rewrite Hadd. cbn [properties].
      apply Forall_app. split.
      * eapply Forall_impl; [exact Hids|]. simpl. lia.
      * repeat constructor.
Qed.

Lemma new_FBXNodeRecord_unfold nm t vs r :
  new_FBXNodeRecord nm (Some t) vs r
  = (length (heap r),
     (addProperty (length (heap r)) t vs
        {| heap := heap r ++ [ {| name := nm; properties := []; children := [];
                                  size := None; propertySize := None |} ];
           nextId := nextId r; dateCalls := dateCalls r; randomCalls := randomCalls r |}).2).
Proof.
  unfold new_FBXNodeRecord, mbind, Build_bind. cbn [new_object].
  by destruct (addProperty _ _ _ _).
Qed.

(** X9: what the constructor allocates. [new FBXNodeRecord(name, type,
    v1, ..., vn)] allocates one record, after the existing ones, with the
    name given, no children, no sizes, and one property per value, in the
    order of the values and all of the type given; values that are equal
    are not merged (each gets a property object of its own), and no other
    record changes. Without a type, the values are dropped. *)
Theorem constructor_adds_one_property_per_value nm t vs (r : Runtime) :
  let m := new_FBXNodeRecord nm (Some t) vs r in
  m.1 = length (heap r) /\
  heap m.2 = heap r ++
    [ {| name := nm;
         properties := imap (fun i v => {| pid := nextId r + i; type := t; value := v |}) vs;
         children := []; size := None; propertySize := None |} ] /\
  nextId m.2 = (nextId r + length vs)%nat /\
  (new_FBXNodeRecord nm None vs r).1 = length (heap r) /\
  heap (new_FBXNodeRecord nm None vs r).2 = heap r ++
    [ {| name := nm; properties := []; children := []; size := None;
         propertySize := None |} ].
Proof.
  cbn zeta. rewrite new_FBXNodeRecord_unfold. cbn [fst snd].
  set (nd := {| name := nm; properties := []; children := []; size := None;
                propertySize := None |}).
  rewrite (addProperty_heap (length (heap r)) t vs
             {| heap := heap r ++ [nd]; nextId := nextId r; dateCalls := dateCalls r;
                randomCalls := randomCalls r |} nd (lookup_snoc _ _))
    by constructor.
  subst nd. cbn [heap nextId name properties children size propertySize app].
  split; [done|]. split; [|done].
  rewrite list_insert_alter, alter_snoc. reflexivity.
Qed.

(** ** The builder makes trees both passes accept *)

Lemma agreeable_add_property p nd :
  writable p = true -> agreeable nd -> agreeable (add_property p nd).
Proof.
  intros Hp (Hn & Hl & Hps). repeat split; [done|done|]. simpl.
  unfold Set_add_property. case_decide; [done|].
  apply Forall_app. split; [done|]. by apply Forall_singleton.
Qed.

Lemma agreeable_add_child c nd : agreeable nd -> agreeable (add_child c nd).
Proof. by intros (Hn & Hl & Hps). Qed.

Lemma tidy_new_object (h : Heap) nd :
  tidy h -> agreeable nd -> children nd = [] -> tidy (h ++ [nd]).
Proof.
  intros [Ha Hc] Hnd Hkids. split.
  - apply Forall_app. split; [done|]. by apply Forall_singleton.
  - intros l x c Hl Hx. rewrite length_app. simpl.
    destruct (decide (l < length h)%nat) as [Hlt|Hge].
    + rewrite lookup_app_l in Hl by done. specialize (Hc _ _ _ Hl Hx). lia.
    + rewrite lookup_app_r in Hl by lia.
      destruct (l - length h)%nat; simpl in Hl; [|done].
      injection Hl as <-. rewrite Hkids in Hx. by apply elem_of_nil in Hx.
Qed.

Lemma tidy_add_property (h : Heap) this p :
  tidy h -> writable p = true -> tidy (alter (add_property p) this h).
Proof.
  intros [Ha Hc] Hp. split.
  - apply Forall_alter; [done|]. intros nd _. by apply agreeable_add_property.
  - intros l x c Hl Hx. rewrite length_alter.
    destruct (decide (this = l)) as [->|Hne].
    + rewrite list_lookup_alter_eq in Hl. destruct (h !! l) as [nd|] eqn:E; [|done].
      injection Hl as <-. exact (Hc _ _ _ E Hx).
    + rewrite list_lookup_alter_ne in Hl by done. eauto.
Qed.

Lemma tidy_add_child (h : Heap) this c :
  tidy h -> (this < c < length h)%nat -> tidy (alter (add_child c) this h).
Proof.
  intros [Ha Hc] Hlt. split.
  - apply Forall_alter; [done|]. intros nd _. by apply agreeable_add_child.
  - intros l x d Hl Hx. rewrite length_alter.
    destruct (decide (this = l)) as [->|Hne].
    + rewrite list_lookup_alter_eq in Hl. destruct (h !! l) as [nd|] eqn:E; [|done].
      injection Hl as <-. simpl in Hx. unfold Set_add in Hx.
      case_decide; [by eauto|].
      apply elem_of_app in Hx as [Hx|Hx]; [by eauto|].
      apply list_elem_of_singleton in Hx as ->. done.
    + rewrite list_lookup_alter_ne in Hl by done. eauto.
Qed.

(** *** Rules *)

Lemma proceeds_ret {A} n (a : A) : proceeds n (mret a).
Proof. by intros r Ht Hn. Qed.

Lemma proceeds_bind {A B} n (m : Build A) (k : A -> Build B) :
  proceeds n m -> (forall a, proceeds n (k a)) -> proceeds n (m ≫= k).
Proof.
  intros Hm Hk r Ht Hn. unfold mbind, Build_bind.
  specialize (Hm r Ht Hn). destruct (m r) as [a r1]. simpl in Hm.
  destruct Hm as [Ht1 Hn1]. exact (Hk a r1 Ht1 Hn1).
Qed.

Lemma proceeds_keeps_heap {A} n (m : Build A) : keeps_heap m -> proceeds n m.
Proof. intros Hm r Ht Hn. by rewrite Hm. Qed.

Lemma proceeds_for_of {A} n (xs : list A) (f : A -> Build unit) :
  (forall x, proceeds n (f x)) -> proceeds n (for_of xs f).
Proof.
  intros Hf. induction xs as [|x xs IH]; simpl; [apply proceeds_ret|].
  apply proceeds_bind; [apply Hf | by intros _].
Qed.

Lemma proceeds_add_property n this p :
  writable p = true -> proceeds n (update this (add_property p)).
Proof.
  intros Hp r Ht Hn. simpl. rewrite length_alter. split; [|done].
  by apply tidy_add_property.
Qed.

Lemma writable_pid i j t v :
  writable {| pid := i; type := t; value := v |} = writable {| pid := j; type := t; value := v |}.
Proof. reflexivity. Qed.

Lemma proceeds_addProperty n this t vs :
  Forall (fun v => writable {| pid := 0; type := t; value := v |} = true) vs ->
  proceeds n (addProperty this t vs).
Proof.
  intros Hvs. unfold addProperty.
  induction Hvs as [|v vs Hv _ IH]; simpl; [apply proceeds_ret|].
  apply proceeds_bind; [|by intros _].
  intros r Ht Hn. rewrite add_one_property. simpl. rewrite length_alter. split; [|done].
  apply tidy_add_property; [done|]. by rewrite (writable_pid _ 0).
Qed.

Lemma short_ascii_agreeable nm :
  short_ascii nm ->
  agreeable {| name := nm; properties := []; children := []; size := None;
               propertySize := None |}.
Proof.
  intros [Hascii Hlen]. split; [|split; [done | constructor]].
  simpl. by rewrite utf8_ascii.
Qed.

Lemma allocates_new n nm t vs :
  short_ascii nm ->
  match t with
  | Some t => Forall (fun v => writable {| pid := 0; type := t; value := v |} = true) vs
  | None => True
  end ->
  allocates n (new_FBXNodeRecord nm t vs).
Proof.
  intros Hnm Hvs r Ht Hn. unfold new_FBXNodeRecord, mbind, Build_bind. cbn [new_object].
  set (nd := {| name := nm; properties := []; children := []; size := None;
                propertySize := None |}).
  set (r1 := {| heap := heap r ++ [nd]; nextId := nextId r; dateCalls := dateCalls r;
                randomCalls := randomCalls r |}).
  assert (Ht1 : tidy (heap r1)).
  { simpl. apply tidy_new_object; [done | by apply short_ascii_agreeable | done]. }
  assert (Hn1 : (S (length (heap r)) <= length (heap r1))%nat).
  { simpl. rewrite length_app. simpl. lia. }
  destruct t as [t|].
  - pose proof (proceeds_addProperty _ (length (heap r)) t vs Hvs r1 Ht1 Hn1) as [Ht2 Hn2].
    destruct (addProperty _ _ _ r1) as [u r2]. simpl in *. split; [done | lia].
  - simpl in *. split; [done | lia].
Qed.

Lemma allocates_node n (m : Build loc) (k : loc -> Build loc) :
  allocates n m ->
  (forall this, (n <= this)%nat -> hands_back this (S this) (k this)) ->
  allocates n (m ≫= k).
Proof.
  intros Hm Hk r Ht Hn. unfold mbind, Build_bind.
  specialize (Hm r Ht Hn). destruct (m r) as [this r1]. simpl in Hm.
  destruct Hm as [Ht1 [Hn1 Hlt]].
  specialize (Hk this Hn1 r1 Ht1 Hlt). destruct (k this r1) as [l r2]. simpl in *.
  destruct Hk as (Ht2 & -> & Hn2). split; [done | lia].
Qed.

Lemma allocates_keeps {A} n (m : Build A) (k : A -> Build loc) :
  keeps_heap m -> (forall a, allocates n (k a)) -> allocates n (m ≫= k).
Proof.
  intros Hm Hk r Ht Hn. unfold mbind, Build_bind.
  specialize (Hm r). destruct (m r) as [a r1]. simpl in Hm.
  apply Hk; by rewrite Hm.
Qed.

Lemma allocates_date n clock (k : Date -> Build loc) :
  (forall i, allocates n (k (clock i))) -> allocates n (new_Date clock ≫= k).
Proof. intros Hk r Ht Hn. unfold mbind, Build_bind. simpl. by apply Hk. Qed.

Lemma hands_back_ret l n : hands_back l n (mret l).
Proof. by intros r Ht Hn. Qed.

Lemma hands_back_step {A} l n (m : Build A) (k : A -> Build loc) :
  proceeds n m -> (forall a, hands_back l n (k a)) -> hands_back l n (m ≫= k).
Proof.
  intros Hm Hk r Ht Hn. unfold mbind, Build_bind.
  specialize (Hm r Ht Hn). destruct (m r) as [a r1]. simpl in Hm.
  destruct Hm as [Ht1 Hn1]. exact (Hk a r1 Ht1 Hn1).
Qed.

Lemma hands_back_date l n clock (k : Date -> Build loc) :
  (forall i, hands_back l n (k (clock i))) -> hands_back l n (new_Date clock ≫= k).
Proof. intros Hk r Ht Hn. unfold mbind, Build_bind. simpl. by apply Hk. Qed.

Lemma hands_back_alloc l n (m : Build loc) (k : loc -> Build loc) :
  allocates n m ->
  (forall c, (n <= c)%nat -> hands_back l (S c) (k c)) ->
  hands_back l n (m ≫= k).
Proof.
  intros Hm Hk r Ht Hn. unfold mbind, Build_bind.
  specialize (Hm r Ht Hn). destruct (m r) as [c r1]. simpl in Hm.
  destruct Hm as [Ht1 [Hn1 Hlt]].
  specialize (Hk c Hn1 r1 Ht1 Hlt). destruct (k c r1) as [l' r2]. simpl in *.
  destruct Hk as (Ht2 & -> & Hn2). split; [done|]. split; [done | lia].
Qed.

Lemma tidy_addChild parent cs r :
  tidy (heap r) ->
  Forall (fun c => (parent < c < length (heap r))%nat) cs ->
  tidy (heap (addChild parent cs r).2) /\
  length (heap (addChild parent cs r).2) = length (heap r).
Proof.
  rewrite addChild_heap. generalize (heap r). clear r.
  induction cs as [|c cs IH]; intros h Ht Hcs; simpl; [done|].
  inversion Hcs as [|? ? Hc Hrest]; subst.
  destruct (IH (alter (add_child c) parent h)) as [Ht' Hlen].
  - by apply tidy_add_child.
  - rewrite length_alter. exact Hrest.
  - split; [done|]. by rewrite Hlen, length_alter.
Qed.

Lemma allocates_addChild_new n parent make :
  (parent < n)%nat -> allocates n make -> allocates n (addChild_new parent make).
Proof.
  intros Hp Hm r Ht Hn. unfold addChild_new, mbind, Build_bind.
  specialize (Hm r Ht Hn). destruct (make r) as [c r1]. simpl in Hm.
  destruct Hm as [Ht1 Hc].
  assert (Hcs : Forall (fun c => (parent < c < length (heap r1))%nat) [c]).
  { repeat constructor; lia. }
  destruct (tidy_addChild parent [c] r1 Ht1 Hcs) as [Ht2 Hlen].
  destruct (addChild parent [c] r1) as [u r2]. simpl in *. split; [done | lia].
Qed.

Lemma hands_back_child l n parent make (k : loc -> Build loc) :
  (parent < n)%nat ->
  allocates n make ->
  (forall c, (n <= c)%nat -> hands_back l (S c) (k c)) ->
  hands_back l n (addChild_new parent make ≫= k).
Proof. intros Hp Hm. apply hands_back_alloc. by apply allocates_addChild_new. Qed.

Lemma proceeds_child n parent make :
  (parent < n)%nat -> allocates n make ->
  proceeds n (addChild_new parent make;; mret tt).
Proof.
  intros Hp Hm r Ht Hn. unfold mbind, Build_bind.
  destruct (allocates_addChild_new n parent make Hp Hm r Ht Hn) as [Ht1 Hc].
  destruct (addChild_new parent make r) as [c r1]. simpl in *. split; [done | lia].
Qed.

Lemma hands_back_attach_all l n parent (m : Build (list loc)) (k : Build loc) :
  (parent < n)%nat ->
  allocates_all n m ->
  hands_back l n k ->
  hands_back l n (cs ← m; addChild parent cs;; k).
Proof.
  intros Hp Hm Hk r Ht Hn. unfold mbind, Build_bind.
  specialize (Hm r Ht Hn). destruct (m r) as [cs r1]. simpl in Hm.
  destruct Hm as (Ht1 & Hn1 & Hcs).
  assert (Hcs' : Forall (fun c => (parent < c < length (heap r1))%nat) cs).
  { eapply Forall_impl; [exact Hcs|]. simpl. lia. }
  destruct (tidy_addChild parent cs r1 Ht1 Hcs') as [Ht2 Hlen].
  destruct (addChild parent cs r1) as [u r2]. simpl in *.
  apply Hk; [done | lia].
Qed.

Lemma allocates_all_map_of {A} (xs : list A) (f : A -> Build loc) :
  (forall n x, allocates n (f x)) -> forall n, allocates_all n (map_of xs f).
Proof.
  intros Hf. induction xs as [|x xs IH]; intros n r Ht Hn; simpl.
  - split; [done|]. split; [done | constructor].
  - unfold mbind, Build_bind.
    specialize (Hf n x r Ht Hn). destruct (f x r) as [c r1]. simpl in Hf.
    destruct Hf as [Ht1 Hc].
    specialize (IH (length (heap r1)) r1 Ht1 (le_n _)).
    destruct (map_of xs f r1) as [cs r2]. simpl in *.
    destruct IH as (Ht2 & Hn2 & Hcs). split; [done|]. split; [lia|].
    constructor; [lia|]. eapply Forall_impl; [exact Hcs|]. simpl. lia.
Qed.

Lemma allocates_all_cons n (m : Build loc) (k : Build (list loc)) :
  allocates n m -> (forall n, allocates_all n k) ->
  allocates_all n (c ← m; cs ← k; mret (c :: cs)).
Proof.
  intros Hm Hk r Ht Hn. unfold mbind, Build_bind.
  specialize (Hm r Ht Hn). destruct (m r) as [c r1]. simpl in Hm.
  destruct Hm as [Ht1 Hc].
  specialize (Hk (length (heap r1)) r1 Ht1 (le_n _)). destruct (k r1) as [cs r2]. simpl in *.
  destruct Hk as (Ht2 & Hn2 & Hcs). split; [done|]. split; [lia|].
  constructor; [lia|]. eapply Forall_impl; [exact Hcs|]. simpl. lia.
Qed.

(** *** Side conditions *)

Lemma short_ascii_check nm :
  forallb (fun c => c <? 128) nm && (js_length nm <=? 255) = true -> short_ascii nm.
Proof.
  intros [Hall Hlen]%andb_prop. split; [|lia].
  apply Forall_forall. intros c Hc. rewrite forallb_forall in Hall.
  apply list_elem_of_In in Hc. specialize (Hall _ Hc). lia.
Qed.

(** The numbers a calendar date is made of fit an Int32 field. *)
Lemma int32_writable i n :
  0 <= n <= 9999 ->
  writable {| pid := i; type := PROPERTY_INT_32; value := int n |} = true.
Proof.
  intros Hn.
  assert (Hall : forallb (fun n => writable {| pid := 0; type := PROPERTY_INT_32;
                                             value := int n |})
                   (map Z.of_nat (seq 0 (Z.to_nat 10000))) = true) by (vm_compute; reflexivity).
  rewrite forallb_forall in Hall. rewrite (writable_pid i 0). apply Hall.
  apply in_map_iff. exists (Z.to_nat n). split; [lia|]. apply in_seq. lia.
Qed.

Ltac name_ok := apply short_ascii_check; vm_compute; reflexivity.

Ltac values_ok :=
  cbv beta iota;
  lazymatch goal with
  | |- True => exact I
  | |- Forall _ _ =>
    repeat (apply List.Forall_cons;
            [first [ reflexivity
                   | assumption
                   | apply int32_writable;
                     match goal with
                     | H : forall i, calendar (_ i) |- context [?clock ?i] =>
                       let Hc := fresh in
                       pose proof (H i) as Hc; unfold calendar in Hc; lia
                     end ]|]);
    apply List.Forall_nil
  end.

Lemma proceeds_for_of_Forall {A} n (xs : list A) (f : A -> Build unit) :
  Forall (fun x => proceeds n (f x)) xs -> proceeds n (for_of xs f).
Proof.
  induction 1 as [|x xs Hx _ IH]; simpl; [apply proceeds_ret|].
  apply proceeds_bind; [exact Hx | by intros _].
Qed.

(** *** The [FBXProperty_] constructors *)

Ltac property_step :=
  lazymatch goal with
  | |- hands_back _ _ (mret _) => apply hands_back_ret
  | |- hands_back _ _ (mbind _ (addProperty _ _ _)) =>
    apply hands_back_step; [apply proceeds_addProperty; values_ok | intros _]
  end.

Ltac property_node :=
  apply allocates_node;
    [ apply allocates_new; [name_ok | values_ok]
    | intros ? ?; repeat property_step ].

Lemma allocates_FBXProperty_Boolean n nm state : allocates n (new_FBXProperty_Boolean nm state).
Proof. unfold new_FBXProperty_Boolean. destruct state; property_node. Qed.

Lemma allocates_FBXProperty_Vector3D n nm x y z : allocates n (new_FBXProperty_Vector3D nm x y z).
Proof. unfold new_FBXProperty_Vector3D. property_node. Qed.

Lemma allocates_FBXProperty_ColorRGB n nm x y z : allocates n (new_FBXProperty_ColorRGB nm x y z).
Proof. unfold new_FBXProperty_ColorRGB. property_node. Qed.

Lemma allocates_FBXProperty_URL n nm url : allocates n (new_FBXProperty_URL nm url).
Proof. unfold new_FBXProperty_URL. property_node. Qed.

Lemma allocates_FBXProperty_Enum n nm v :
  writable {| pid := 0; type := PROPERTY_INT_32; value := num v |} = true ->
  allocates n (new_FBXProperty_Enum nm v).
Proof. intros Hv. unfold new_FBXProperty_Enum. property_node. Qed.

Lemma allocates_FBXProperty_Double n nm v : allocates n (new_FBXProperty_Double nm v).
Proof. unfold new_FBXProperty_Double. property_node. Qed.

Lemma allocates_FBXProperty_KTime n nm v :
  writable {| pid := 0; type := PROPERTY_INT_64; value := num v |} = true ->
  allocates n (new_FBXProperty_KTime nm v).
Proof. intros Hv. unfold new_FBXProperty_KTime. property_node. Qed.

Lemma allocates_FBXProperty_KString n nm v : allocates n (new_FBXProperty_KString nm v).
Proof. unfold new_FBXProperty_KString. property_node. Qed.

Lemma allocates_FBXProperty_Integer n nm v :
  writable {| pid := 0; type := PROPERTY_INT_32; value := num v |} = true ->
  allocates n (new_FBXProperty_Integer nm v).
Proof. intros Hv. unfold new_FBXProperty_Integer. property_node. Qed.

Lemma allocates_FBXProperty_Object n nm : allocates n (new_FBXProperty_Object nm).
Proof. unfold new_FBXProperty_Object. property_node. Qed.

Lemma allocates_FBXProperty_LCLVector n nm x y z :
  allocates n (new_FBXProperty_LCLVector nm x y z).
Proof. unfold new_FBXProperty_LCLVector. property_node. Qed.

Lemma allocates_all_createCompound nm props n : allocates_all n (createCompound nm props).
Proof.
  unfold createCompound. apply allocates_all_cons.
  - apply allocates_new; [name_ok | values_ok].
  - apply allocates_all_map_of. intros n' [key v].
    apply allocates_new; [name_ok | values_ok].
Qed.

(** *** The builders *)

Ltac alloc :=
  lazymatch goal with
  | |- allocates _ (new_FBXNodeRecord _ _ _) => apply allocates_new; [name_ok | values_ok]
  | |- allocates _ (new_FBXProperty_Boolean _ _) => apply allocates_FBXProperty_Boolean
  | |- allocates _ (new_FBXProperty_Vector3D _ _ _ _) => apply allocates_FBXProperty_Vector3D
  | |- allocates _ (new_FBXProperty_ColorRGB _ _ _ _) => apply allocates_FBXProperty_ColorRGB
  | |- allocates _ (new_FBXProperty_URL _ _) => apply allocates_FBXProperty_URL
  | |- allocates _ (new_FBXProperty_Enum _ _) => apply allocates_FBXProperty_Enum; reflexivity
  | |- allocates _ (new_FBXProperty_Double _ _) => apply allocates_FBXProperty_Double
  | |- allocates _ (new_FBXProperty_KTime _ _) => apply allocates_FBXProperty_KTime; reflexivity
  | |- allocates _ (new_FBXProperty_KString _ _) => apply allocates_FBXProperty_KString
  | |- allocates _ (new_FBXProperty_Integer _ _) =>
    apply allocates_FBXProperty_Integer; reflexivity
  | |- allocates _ (new_FBXProperty_Object _) => apply allocates_FBXProperty_Object
  | |- allocates _ (new_FBXProperty_LCLVector _ _ _ _) => apply allocates_FBXProperty_LCLVector
  | |- allocates _ _ => auto
  end.

Ltac builder_body_step :=
  lazymatch goal with
  | |- hands_back _ _ (mret _) => apply hands_back_ret
  | |- hands_back _ _ (mbind _ (addProperty _ _ _)) =>
    apply hands_back_step; [apply proceeds_addProperty; values_ok | intros _]
  | |- hands_back _ _ (mbind _ (addChild_new _ _)) =>
    apply hands_back_child; [lia | alloc | intros ? ?]
  | |- hands_back _ _ (mbind _ (for_of _ _)) =>
    apply hands_back_step;
      [ apply proceeds_for_of_Forall;
        repeat (apply List.Forall_cons; [cbv beta; apply proceeds_child; [lia | alloc]|]);
        apply List.Forall_nil
      | intros _ ]
  | |- hands_back _ _ (mbind _ (new_Date _)) => apply hands_back_date; intros ?
  | |- hands_back _ _ (mbind _ (createCompound _ _)) =>
    apply hands_back_attach_all; [lia | apply allocates_all_createCompound | ]
  | |- hands_back _ _ (let _ := _ in _) => cbv zeta
  end.

Ltac builder_body :=
  apply allocates_node;
    [ apply allocates_new; [name_ok | values_ok]
    | intros ? ?; repeat builder_body_step ].

Section BuilderTidy.

Variable path_basename : jsstring -> jsstring.
Variable manifest : Manifest.
Variable clock : nat -> Date.
Variable random : nat -> float.
Variable this : FBXWriter.
Hypothesis clock_calendar : forall i, calendar (clock i).

Lemma allocates_buildCreationTimeStampNode n : allocates n (buildCreationTimeStampNode clock).
Proof.
  unfold buildCreationTimeStampNode. apply allocates_date. intros i. builder_body.
Qed.

Lemma allocates_buildSceneInfoNode n :
  allocates n (buildSceneInfoNode path_basename manifest clock this).
Proof. unfold buildSceneInfoNode. builder_body. Qed.

Lemma allocates_buildExtendedHeaderNode n :
  allocates n (buildExtendedHeaderNode path_basename manifest clock this).
Proof.
  pose proof allocates_buildCreationTimeStampNode.
  pose proof allocates_buildSceneInfoNode.
  unfold buildExtendedHeaderNode. builder_body.
Qed.

Lemma allocates_buildFileIDNode n : allocates n (buildFileIDNode random).
Proof.
  unfold buildFileIDNode. apply allocates_keeps.
  - apply keeps_heap_repeatM, keeps_heap_bind; [apply keeps_heap_Math_random|].
    intros x. apply keeps_heap_ret.
  - intros buf. alloc.
Qed.

Lemma allocates_buildCreationTimeNode n : allocates n (buildCreationTimeNode clock).
Proof. unfold buildCreationTimeNode. apply allocates_date. intros i. cbv zeta. alloc. Qed.

Lemma allocates_buildCreatorNode n : allocates n (buildCreatorNode manifest).
Proof. unfold buildCreatorNode. alloc. Qed.

Lemma allocates_buildGlobalSettingsNode n : allocates n buildGlobalSettingsNode.
Proof. unfold buildGlobalSettingsNode. builder_body. Qed.

Lemma allocates_buildDocumentsNode n : allocates n buildDocumentsNode.
Proof. unfold buildDocumentsNode. builder_body. Qed.

Lemma allocates_buildDefinitionsNode n : allocates n buildDefinitionsNode.
Proof. unfold buildDefinitionsNode. builder_body. Qed.

Lemma allocates_buildTakesNode n : allocates n buildTakesNode.
Proof. unfold buildTakesNode. builder_body. Qed.

Lemma allocates_buildConnectionsNode n : allocates n buildConnectionsNode.
Proof. unfold buildConnectionsNode. alloc. Qed.

Lemma allocates_buildObjectsNode n : allocates n buildObjectsNode.
Proof. unfold buildObjectsNode. alloc. Qed.

End BuilderTidy.

(** ** What an export takes from its surroundings *)

Lemma consumes_eq {A} a b c e a' b' c' e' (m : Build A) :
  consumes a b c e m -> a = a' -> b = b' -> c = c' -> e = e' -> consumes a' b' c' e' m.
Proof. by intros H <- <- <- <-. Qed.

Lemma consumes_ret {A} (x : A) : consumes 0 0 0 0 (mret x).
Proof. intros r. simpl. lia. Qed.

Lemma consumes_bind {A B} a b c e a' b' c' e' (m : Build A) (k : A -> Build B) :
  consumes a b c e m -> (forall x, consumes a' b' c' e' (k x)) ->
  consumes (a + a') (b + b') (c + c') (e + e') (m ≫= k).
Proof.
  intros Hm Hk r. unfold mbind, Build_bind.
  specialize (Hm r). destruct (m r) as [x r1]. specialize (Hk x r1).
  destruct (k x r1) as [y r2]. simpl in *. lia.
Qed.

Lemma consumes_new_object nd : consumes 0 0 1 0 (new_object nd).
Proof. intros r. simpl. rewrite length_app. simpl. lia. Qed.

Lemma consumes_new_property t v : consumes 0 0 0 1 (new_property t v).
Proof. intros r. simpl. lia. Qed.

Lemma consumes_update l f : consumes 0 0 0 0 (update l f).
Proof. intros r. simpl. rewrite length_alter. lia. Qed.

Lemma consumes_new_Date clock : consumes 1 0 0 0 (new_Date clock).
Proof. intros r. simpl. lia. Qed.

Lemma consumes_Math_random random : consumes 0 1 0 0 (Math_random random).
Proof. intros r. simpl. lia. Qed.

Lemma consumes_for_of {A} a b c e (xs : list A) (f : A -> Build unit) :
  (forall x, consumes a b c e (f x)) ->
  consumes (length xs * a) (length xs * b) (length xs * c) (length xs * e) (for_of xs f).
Proof.
  intros Hf. induction xs as [|x xs IH]; [apply consumes_ret|].
  cbn [for_of length]. eapply consumes_eq;
    [apply consumes_bind; [apply Hf | intros _; exact IH] | simpl; lia..].
Qed.

Lemma consumes_map_of {A B} a b c e (xs : list A) (f : A -> Build B) :
  (forall x, consumes a b c e (f x)) ->
  consumes (length xs * a) (length xs * b) (length xs * c) (length xs * e) (map_of xs f).
Proof.
  intros Hf. induction xs as [|x xs IH]; [apply consumes_ret|].
  cbn [map_of length]. eapply consumes_eq;
    [apply consumes_bind; [apply Hf | intros y; apply consumes_bind;
                                       [exact IH | intros ys; apply consumes_ret]]
    | simpl; lia..].
Qed.

Lemma consumes_repeatM {A} a b c e n (m : Build A) :
  consumes a b c e m -> consumes (n * a) (n * b) (n * c) (n * e) (repeatM n m).
Proof.
  intros Hm. induction n as [|n IH]; [apply consumes_ret|].
  cbn [repeatM]. eapply consumes_eq;
    [apply consumes_bind; [apply Hm | intros y; apply consumes_bind;
                                       [exact IH | intros ys; apply consumes_ret]]
    | simpl; lia..].
Qed.

Lemma consumes_addProperty this t vs : consumes 0 0 0 (length vs) (addProperty this t vs).
Proof.
  unfold addProperty. eapply consumes_eq; [apply (consumes_for_of 0 0 0 1)|lia..].
  intros v. eapply consumes_eq;
    [apply consumes_bind; [apply consumes_new_property | intros p; apply consumes_update]
    |reflexivity..].
Qed.

Lemma consumes_addChild this cs : consumes 0 0 0 0 (addChild this cs).
Proof.
  unfold addChild. eapply consumes_eq;
    [apply consumes_bind; [apply (consumes_for_of 0 0 0 0); intros c; apply consumes_update
                          |intros _; apply consumes_ret] | lia..].
Qed.

Lemma consumes_new_FBXNodeRecord nm t vs :
  consumes 0 0 1 (match t with Some _ => length vs | None => 0 end)
           (new_FBXNodeRecord nm t vs).
Proof.
  unfold new_FBXNodeRecord. destruct t as [t|].
  - eapply consumes_eq;
      [apply consumes_bind;
         [apply consumes_new_object
         |intros this; apply consumes_bind;
            [apply consumes_addProperty | intros _; apply consumes_ret]]
      | lia..].
  - eapply consumes_eq;
      [apply consumes_bind;
         [apply consumes_new_object
         |intros this; apply consumes_bind;
            [apply consumes_ret | intros _; apply consumes_ret]]
      | lia..].
Qed.

Lemma consumes_addChild_new {a b c e} parent make :
  consumes a b c e make -> consumes a b c e (addChild_new parent make).
Proof.
  intros Hm. unfold addChild_new. eapply consumes_eq;
    [apply consumes_bind; [exact Hm | intros child; apply consumes_bind;
                                        [apply consumes_addChild | intros _; apply consumes_ret]]
    | lia..].
Qed.

Ltac consumes_step :=
  lazymatch goal with
  | |- consumes _ _ _ _ (mret _) => apply consumes_ret
  | |- consumes _ _ _ _ (mbind _ _) => eapply consumes_bind; [|intros ?]
  | |- consumes _ _ _ _ (addProperty _ _ _) =>
    eapply consumes_eq; [apply consumes_addProperty | lazy; reflexivity ..]
  | |- consumes _ _ _ _ (addChild _ _) => apply consumes_addChild
  | |- consumes _ _ _ _ (addChild_new _ _) => eapply consumes_addChild_new
  | |- consumes _ _ _ _ (new_FBXNodeRecord _ _ _) =>
    eapply consumes_eq; [apply consumes_new_FBXNodeRecord | lazy; reflexivity ..]
  | |- consumes _ _ _ _ (new_Date _) => apply consumes_new_Date
  | |- consumes _ _ _ _ (Math_random _) => apply consumes_Math_random
  | |- consumes _ _ _ _ (for_of _ _) => eapply consumes_for_of; intros ?
  | |- consumes _ _ _ _ (map_of _ _) => eapply consumes_map_of; intros ?
  | |- consumes _ _ _ _ (repeatM _ _) => eapply consumes_repeatM
  | |- consumes _ _ _ _ (let _ := _ in _) => cbv zeta
  | |- consumes _ _ _ _ (match ?x with (_, _) => _ end) => destruct x
  end.

Ltac consumes_all := eapply consumes_eq; [repeat consumes_step | vm_compute; reflexivity ..].

Lemma consumes_FBXProperty_Boolean nm state :
  consumes 0 0 1 5 (new_FBXProperty_Boolean nm state).
Proof. unfold new_FBXProperty_Boolean. consumes_all. Qed.

Lemma consumes_FBXProperty_Vector3D nm x y z :
  consumes 0 0 1 7 (new_FBXProperty_Vector3D nm x y z).
Proof. unfold new_FBXProperty_Vector3D. consumes_all. Qed.

Lemma consumes_FBXProperty_ColorRGB nm x y z :
  consumes 0 0 1 7 (new_FBXProperty_ColorRGB nm x y z).
Proof. unfold new_FBXProperty_ColorRGB. consumes_all. Qed.

Lemma consumes_FBXProperty_URL nm url : consumes 0 0 1 4 (new_FBXProperty_URL nm url).
Proof. unfold new_FBXProperty_URL. consumes_all. Qed.

Lemma consumes_FBXProperty_Enum nm v : consumes 0 0 1 5 (new_FBXProperty_Enum nm v).
Proof. unfold new_FBXProperty_Enum. consumes_all. Qed.

Lemma consumes_FBXProperty_Double nm v : consumes 0 0 1 5 (new_FBXProperty_Double nm v).
Proof. unfold new_FBXProperty_Double. consumes_all. Qed.

Lemma consumes_FBXProperty_KTime nm v : consumes 0 0 1 5 (new_FBXProperty_KTime nm v).
Proof. unfold new_FBXProperty_KTime. consumes_all. Qed.

Lemma consumes_FBXProperty_KString nm v : consumes 0 0 1 5 (new_FBXProperty_KString nm v).
Proof. unfold new_FBXProperty_KString. consumes_all. Qed.

Lemma consumes_FBXProperty_Integer nm v : consumes 0 0 1 5 (new_FBXProperty_Integer nm v).
Proof. unfold new_FBXProperty_Integer. consumes_all. Qed.

Lemma consumes_FBXProperty_Object nm : consumes 0 0 1 4 (new_FBXProperty_Object nm).
Proof. unfold new_FBXProperty_Object. consumes_all. Qed.

Lemma consumes_FBXProperty_LCLVector nm x y z :
  consumes 0 0 1 7 (new_FBXProperty_LCLVector nm x y z).
Proof. unfold new_FBXProperty_LCLVector. consumes_all. Qed.

Lemma consumes_createCompound nm props :
  consumes 0 0 (S (length props)) (4 + length props * 5) (createCompound nm props).
Proof.
  unfold createCompound. eapply consumes_eq.
  - eapply consumes_bind; [apply consumes_new_FBXNodeRecord|]. intros compound.
    eapply consumes_bind; [|intros rest; apply consumes_ret].
    eapply (consumes_map_of 0 0 1 5). intros [key v]. apply consumes_new_FBXNodeRecord.
  - lia.
  - lia.
  - lia.
  - simpl. lia.
Qed.

Ltac consumes_builder_step :=
  lazymatch goal with
  | |- consumes _ _ _ _ (new_FBXProperty_Boolean _ _) => apply consumes_FBXProperty_Boolean
  | |- consumes _ _ _ _ (new_FBXProperty_Vector3D _ _ _ _) => apply consumes_FBXProperty_Vector3D
  | |- consumes _ _ _ _ (new_FBXProperty_ColorRGB _ _ _ _) => apply consumes_FBXProperty_ColorRGB
  | |- consumes _ _ _ _ (new_FBXProperty_URL _ _) => apply consumes_FBXProperty_URL
  | |- consumes _ _ _ _ (new_FBXProperty_Enum _ _) => apply consumes_FBXProperty_Enum
  | |- consumes _ _ _ _ (new_FBXProperty_Double _ _) => apply consumes_FBXProperty_Double
  | |- consumes _ _ _ _ (new_FBXProperty_KTime _ _) => apply consumes_FBXProperty_KTime
  | |- consumes _ _ _ _ (new_FBXProperty_KString _ _) => apply consumes_FBXProperty_KString
  | |- consumes _ _ _ _ (new_FBXProperty_Integer _ _) => apply consumes_FBXProperty_Integer
  | |- consumes _ _ _ _ (new_FBXProperty_Object _) => apply consumes_FBXProperty_Object
  | |- consumes _ _ _ _ (new_FBXProperty_LCLVector _ _ _ _) => apply consumes_FBXProperty_LCLVector
  | |- consumes _ _ _ _ (createCompound _ _) =>
    eapply consumes_eq; [apply consumes_createCompound | lazy; reflexivity ..]
  | |- _ => consumes_step
  end.

Ltac consumes_builder :=
  eapply consumes_eq; [repeat consumes_builder_step | vm_compute; reflexivity ..].

Section BuilderConsumes.

Variable path_basename : jsstring -> jsstring.
Variable manifest : Manifest.
Variable clock : nat -> Date.
Variable random : nat -> float.
Variable this : FBXWriter.

Lemma consumes_buildCreationTimeStampNode :
  consumes 1 0 9 8 (buildCreationTimeStampNode clock).
Proof. unfold buildCreationTimeStampNode. consumes_builder. Qed.

Lemma consumes_buildSceneInfoNode :
  consumes 1 0 25 72 (buildSceneInfoNode path_basename manifest clock this).
Proof. unfold buildSceneInfoNode. consumes_builder. Qed.

Lemma consumes_buildExtendedHeaderNode :
  consumes 2 0 39 84 (buildExtendedHeaderNode path_basename manifest clock this).
Proof.
  unfold buildExtendedHeaderNode.
  eapply consumes_eq;
    [repeat lazymatch goal with
            | |- consumes _ _ _ _ (buildCreationTimeStampNode _) =>
              apply consumes_buildCreationTimeStampNode
            | |- consumes _ _ _ _ (buildSceneInfoNode _ _ _ _) =>
              apply consumes_buildSceneInfoNode
            | |- _ => consumes_builder_step
            end
    | vm_compute; reflexivity ..].
Qed.

Lemma consumes_buildFileIDNode : consumes 0 16 1 1 (buildFileIDNode random).
Proof. unfold buildFileIDNode. consumes_builder. Qed.

Lemma consumes_buildCreationTimeNode : consumes 1 0 1 1 (buildCreationTimeNode clock).
Proof. unfold buildCreationTimeNode. consumes_builder. Qed.

Lemma consumes_buildCreatorNode : consumes 0 0 1 1 (buildCreatorNode manifest).
Proof. unfold buildCreatorNode. consumes_builder. Qed.

Lemma consumes_buildGlobalSettingsNode : consumes 0 0 19 83 buildGlobalSettingsNode.
Proof. unfold buildGlobalSettingsNode. consumes_builder. Qed.

Lemma consumes_buildDocumentsNode : consumes 0 0 2 1 buildDocumentsNode.
Proof. unfold buildDocumentsNode. consumes_builder. Qed.

Lemma consumes_buildDefinitionsNode : consumes 0 0 90 435 buildDefinitionsNode.
Proof. unfold buildDefinitionsNode. consumes_builder. Qed.

Lemma consumes_buildTakesNode : consumes 0 0 2 1 buildTakesNode.
Proof. unfold buildTakesNode. consumes_builder. Qed.

Lemma consumes_buildConnectionsNode : consumes 0 0 1 0 buildConnectionsNode.
Proof. unfold buildConnectionsNode. consumes_builder. Qed.

Lemma consumes_buildObjectsNode : consumes 0 0 1 0 buildObjectsNode.
Proof. unfold buildObjectsNode. consumes_builder. Qed.

Lemma consumes_add_root {a b c e} roots make :
  consumes a b c e make -> consumes a b c e (add_root roots make).
Proof.
  intros Hm. unfold add_root. eapply consumes_eq;
    [apply consumes_bind; [exact Hm | intros node; apply consumes_ret] | lia..].
Qed.

Lemma consumes_buildNodeTree :
  consumes 3 16 158 607 (buildNodeTree path_basename manifest clock random this).
Proof.
  unfold buildNodeTree. cbv zeta.
  eapply consumes_eq;
    [repeat lazymatch goal with
            | |- consumes _ _ _ _ (mret _) => apply consumes_ret
            | |- consumes _ _ _ _ (mbind _ _) =>
              eapply consumes_bind; [eapply consumes_add_root|intros ?]
            end
    | ..].
  - apply consumes_buildExtendedHeaderNode.
  - apply consumes_buildFileIDNode.
  - apply consumes_buildCreationTimeNode.
  - apply consumes_buildCreatorNode.
  - apply consumes_buildGlobalSettingsNode.
  - apply consumes_buildDocumentsNode.
  - apply consumes_new_FBXNodeRecord.
  - apply consumes_buildDefinitionsNode.
  - apply consumes_buildObjectsNode.
  - apply consumes_buildConnectionsNode.
  - apply consumes_buildTakesNode.
  - reflexivity.
  - reflexivity.
  - reflexivity.
  - reflexivity.
Qed.

End BuilderConsumes.

(** X10: what an export takes from its surroundings does not depend on
    the inputs. Whatever the manifest, the clock, the random source, the
    destination and the runtime, [buildNodeTree] reads the clock exactly
    three times (the creation time stamp, the scene information and the
    creation time each take a reading of their own, so the timestamps of
    one file need not agree), draws exactly sixteen random numbers,
    allocates exactly 158 node records and makes exactly 607 property
    objects. *)
Theorem buildNodeTree_takes_three_readings (path_basename : jsstring -> jsstring)
    (manifest : Manifest) (clock : nat -> Date) (random : nat -> float) (this : FBXWriter)
    (r : Runtime) :
  let m := buildNodeTree path_basename manifest clock random this r in
  dateCalls m.2 = (dateCalls r + 3)%nat /\
  randomCalls m.2 = (randomCalls r + 16)%nat /\
  length (heap m.2) = (length (heap r) + 158)%nat /\
  nextId m.2 = (nextId r + 607)%nat.
Proof. exact (consumes_buildNodeTree path_basename manifest clock random this r). Qed.

(** *** The whole tree *)

Lemma add_root_tidy n roots make :
  (forall n, allocates n make) ->
  hoare (roots_tidy n roots) (add_root roots make) (roots_tidy n).
Proof.
  intros Hmake r (Ht & Hn & Hroots). unfold add_root, mbind, Build_bind.
  destruct (Hmake (length (heap r)) r Ht (le_n _)) as [Ht1 Hc].
  destruct (make r) as [c r1]. simpl in *.
  split; [done|]. split; [lia|].
  unfold Set_add. case_decide.
  - eapply Forall_impl; [exact Hroots|]. simpl. lia.
  - apply Forall_app. split.
    + eapply Forall_impl; [exact Hroots|]. simpl. lia.
    + apply Forall_singleton. lia.
Qed.

Lemma buildNodeTree_roots_tidy path_basename manifest clock random this n :
  (forall i, calendar (clock i)) ->
  hoare (roots_tidy n [])
        (buildNodeTree path_basename manifest clock random this)
        (roots_tidy n).
Proof.
  intros Hclock. unfold buildNodeTree.
  eapply hoare_bind; [apply add_root_tidy|intros ?].
  { intros ?. by apply allocates_buildExtendedHeaderNode. }
  eapply hoare_bind; [apply add_root_tidy|intros ?].
  { intros ?. apply allocates_buildFileIDNode. }
  eapply hoare_bind; [apply add_root_tidy|intros ?].
  { intros ?. apply allocates_buildCreationTimeNode. }
  eapply hoare_bind; [apply add_root_tidy|intros ?].
  { intros ?. apply allocates_buildCreatorNode. }
  eapply hoare_bind; [apply add_root_tidy|intros ?].
  { intros ?. apply allocates_buildGlobalSettingsNode. }
  eapply hoare_bind; [apply add_root_tidy|intros ?].
  { intros ?. apply allocates_buildDocumentsNode. }
  eapply hoare_bind; [apply add_root_tidy|intros ?].
  { intros ?. alloc. }
  eapply hoare_bind; [apply add_root_tidy|intros ?].
  { intros ?. apply allocates_buildDefinitionsNode. }
  eapply hoare_bind; [apply add_root_tidy|intros ?].
  { intros ?. apply allocates_buildObjectsNode. }
  eapply hoare_bind; [apply add_root_tidy|intros ?].
  { intros ?. apply allocates_buildConnectionsNode. }
  eapply hoare_bind; [apply add_root_tidy|intros ?].
  { intros ?. apply allocates_buildTakesNode. }
  apply hoare_ret.
Qed.

Lemma tidy_nil : tidy [].
Proof. split; [constructor|]. by intros l nd c Hl. Qed.

Lemma tidy_descendant (h : Heap) l d : tidy h -> descendant h l d -> (l < d < length h)%nat.
Proof.
  intros [_ Horder]. induction 1 as [p nd c Hp Hc|p nd c d Hp Hc _ IH].
  - eauto.
  - specialize (Horder _ _ _ Hp Hc). lia.
Qed.

Lemma tidy_ranked (h : Heap) : tidy h -> ranked (fun l => (length h - l)%nat) h.
Proof.
  intros [_ Horder] l nd c Hl Hc. specialize (Horder _ _ _ Hl Hc). split; [|lia].
  apply lookup_lt_is_Some. lia.
Qed.

(** X11: the tree the builder makes is one both passes accept. Whatever
    the manifest, the destination and the random numbers, and for every
    clock that gives calendar dates, [buildNodeTree] run on tidy records
    leaves them tidy: every record has an ASCII name of at most 255 code
    units and properties whose values have the shape and the range of
    their types (none is array-typed), and every child was allocated after
    its parent, so that no record is its own descendant. The roots it
    returns are records of that heap, and the records that existed are
    still there. *)
Theorem buildNodeTree_tidy (path_basename : jsstring -> jsstring) (manifest : Manifest)
    (clock : nat -> Date) (random : nat -> float) (this : FBXWriter) (r : Runtime) :
  (forall i, calendar (clock i)) ->
  tidy (heap r) ->
  let m := buildNodeTree path_basename manifest clock random this r in
  tidy (heap m.2) /\
  (length (heap r) <= length (heap m.2))%nat /\
  Forall (fun l => is_Some (heap m.2 !! l)) m.1 /\
  (forall l, ~ descendant (heap m.2) l l) /\
  (forall l, ~ has_array_property (heap m.2) l).
Proof.
  intros Hclock Ht m.
  destruct (buildNodeTree_roots_tidy path_basename manifest clock random this
              (length (heap r)) Hclock r) as (Ht' & Hlen & Hroots).
  { split; [done|]. split; [done | constructor]. }
  fold m in Ht', Hlen, Hroots.
  split; [done|]. split; [done|]. split; [|split].
  - eapply Forall_impl; [exact Hroots|]. intros l Hl. by apply lookup_lt_is_Some.
  - intros l Hl. apply (tidy_descendant _ _ _ Ht') in Hl. lia.
  - intros l Hl. destruct Ht' as [Hagree _].
    induction Hl as [l nd p Hnd Hp Harr|l nd c Hnd Hc _ IH]; [|done].
    pose proof (Forall_lookup_1 _ _ _ _ Hagree Hnd) as (_ & _ & Hprops).
    rewrite Forall_forall in Hprops. specialize (Hprops _ Hp).
    unfold writable in Hprops. by destruct (type p).
Qed.

Lemma buildNodeTree_tidy_witness :
  let m := buildNodeTree posix_basename {| version := js "0.1.20"; flavour := js "win-x64" |}
             (clock_at 10) (fun _ => 0x1p-1%float) {| out := js "export/model.fbx" |}
             fresh_runtime in
  tidy (heap m.2) /\
  (length (heap fresh_runtime) <= length (heap m.2))%nat /\
  Forall (fun l => is_Some (heap m.2 !! l)) m.1 /\
  (forall l, ~ descendant (heap m.2) l l) /\
  (forall l, ~ has_array_property (heap m.2) l).
Proof.
  apply (buildNodeTree_tidy posix_basename {| version := js "0.1.20"; flavour := js "win-x64" |}
           (clock_at 10) (fun _ => 0x1p-1%float) {| out := js "export/model.fbx" |}
           fresh_runtime).
  - intros i. unfold calendar, clock_at. simpl. lia.
  - exact tidy_nil.
Defined.

(** X12: an export goes through. Whatever the file system, the manifest,
    the destination and the random numbers, for every clock that gives
    calendar dates: when [write] does not skip (overwriting is enabled or
    the file does not exist) and the directory can be created, the size
    pass returns on the tree just built, and unless the file would pass
    what a 32-bit offset can express, [write] does nothing else than hand
    [writeToFile] the destination and a buffer that holds the preamble
    followed by exactly as many bytes as the size pass counted. Neither
    pass throws, no write falls outside the buffer and no byte of it is
    left unwritten. (The depth of calls allowed only has to exceed the
    number of records: those there were and the 158 of the tree.) *)
Theorem write_hands_over_a_full_buffer
    (FileSystem : Type)
    (fileExists : jsstring -> FileSystem -> bool)
    (createDirectory : jsstring -> FileSystem -> Outcome FileSystem)
    (writeToFile : jsstring -> list byte -> FileSystem -> Outcome FileSystem)
    (path_dirname path_basename : jsstring -> jsstring)
    (manifest : Manifest) (clock : nat -> Date) (random : nat -> float)
    (this : FBXWriter) (fuel : nat) (overwrite : bool) (w : World FileSystem)
    (d : FileSystem) :
  (forall i, calendar (clock i)) ->
  tidy (heap (runtime w)) ->
  negb overwrite && fileExists (out this) (disk w) = false ->
  createDirectory (path_dirname (out this)) (disk w) = Ok d ->
  (length (heap (runtime w)) + 158 < fuel)%nat ->
  let m := buildNodeTree path_basename manifest clock random this (runtime w) in
  exists treeSize h',
    calculateNodeTreeSize (S fuel) (ASet m.1) (heap m.2) = Ok (treeSize, h') /\
    (treeSize + 27 <= 4294967295 ->
     exists bs,
       Z.of_nat (length bs) = treeSize /\
       write fileExists createDirectory writeToFile path_dirname path_basename
             manifest clock random this (S fuel) overwrite w
       = (d' ← writeToFile (out this)
                  ((utf8 FBX_MAGIC ++ [0x1A; 0x00] ++ le_bytes 4 FBX_VERSION) ++ bs) d;
          mret {| runtime := with_heap h' m.2; disk := d' |})).
Proof.
  intros Hclock Ht Hskip Hdir Hfuel m.
  pose proof (consumes_buildNodeTree path_basename manifest clock random this (runtime w))
    as (_ & _ & Hrecords & _).
  fold m in Hrecords.
  destruct (buildNodeTree_roots_tidy path_basename manifest clock random this
              0 Hclock (runtime w)) as (Ht' & _ & Hroots).
  { split; [done|]. split; [lia | constructor]. }
  fold m in Ht', Hroots.
  destruct (serialize_fills_buffer (fun l => (length (heap m.2) - l)%nat) fuel (heap m.2) m.1)
    as (treeSize & h' & Hcalc & Hser).
  { by apply tidy_ranked. }
  { by destruct Ht'. }
  { eapply Forall_impl; [exact Hroots|]. intros l Hl. split; [|lia].
    by apply lookup_lt_is_Some. }
  exists treeSize, h'. split; [exact Hcalc|]. intros Hmax.
  destruct (Hser Hmax) as (buf & Hbuf & Hcap & Hfull & Hcontents).
  destruct (serialize_inv _ _ _ _ _ Hbuf) as (treeSize' & bs & _ & _ & Hwritten & _).
  exists bs. split.
  - assert (Hlen : length (utf8 FBX_MAGIC ++ [0x1A; 0x00] ++ le_bytes 4 FBX_VERSION) = 27%nat)
      by (vm_compute; reflexivity).
    revert Hwritten Hlen. generalize (utf8 FBX_MAGIC ++ [0x1A; 0x00] ++ le_bytes 4 FBX_VERSION).
    intros pre Hwritten Hlen.
    unfold offset in Hfull. rewrite Hwritten, length_app_Z, Hlen in Hfull. lia.
  - unfold write. rewrite Hskip, Hdir, bind_ret_l.
    fold m. destruct m as [tree r1]. cbn [fst snd] in *.
    rewrite Hbuf, bind_ret_l, Hcontents, Hwritten. reflexivity.
Qed.

Lemma write_hands_over_a_full_buffer_witness :
  let manifest := {| version := js "0.1.20"; flavour := js "win-x64" |} in
  let this := {| out := js "export/model.fbx" |} in
  let random := fun _ : nat => 0x1p-1%float in
  let w := {| runtime := fresh_runtime; disk := {| files := []; directories := [] |} |} in
  let d := {| files := []; directories := [js "export"] |} in
  let m := buildNodeTree posix_basename manifest (clock_at 10) random this (runtime w) in
  exists treeSize h',
    calculateNodeTreeSize (S 200) (ASet m.1) (heap m.2) = Ok (treeSize, h') /\
    (treeSize + 27 <= 4294967295 ->
     exists bs,
       Z.of_nat (length bs) = treeSize /\
       write simple_fileExists simple_createDirectory simple_writeToFile
             posix_dirname posix_basename manifest (clock_at 10) random this (S 200) true w
       = (d' ← simple_writeToFile (out this)
                  ((utf8 FBX_MAGIC ++ [0x1A; 0x00] ++ le_bytes 4 FBX_VERSION) ++ bs) d;
          mret {| runtime := with_heap h' m.2; disk := d' |})).
Proof.
  intros manifest this random w d.
  apply (write_hands_over_a_full_buffer SimpleFS simple_fileExists simple_createDirectory
           simple_writeToFile posix_dirname posix_basename manifest (clock_at 10) random
           this 200 true w d).
  - intros i. unfold calendar, clock_at. simpl. lia.
  - exact tidy_nil.
  - reflexivity.
  - vm_compute. reflexivity.
  - simpl. lia.
Defined.

(** ** The write pass never stays below the stored size *)

Lemma utf8_cons_cons c d (rest : jsstring) :
  utf8 (c :: d :: rest) =
  if c <? 128 then utf8_1 c ++ utf8 (d :: rest)
  else if c <? 2048 then utf8_2 c ++ utf8 (d :: rest)
  else if is_high_surrogate c then
    if is_low_surrogate d
    then utf8_4 (65536 + Z.shiftl (c - 55296) 10 + (d - 56320)) ++ utf8 rest
    else utf8_replacement ++ utf8 (d :: rest)
  else if is_low_surrogate c then utf8_replacement ++ utf8 (d :: rest)
  else utf8_3 c ++ utf8 (d :: rest).
Proof. reflexivity. Qed.

(** UTF-8 takes at least one byte per UTF-16 code unit. *)
Lemma utf8_length_ge_aux n (s : jsstring) :
  (length s <= n)%nat -> (length s <= length (utf8 s))%nat.
Proof.
  revert s. induction n as [|n IH]; intros s Hn.
  - destruct s; [done | simpl in Hn; lia].
  - destruct s as [|c [|d rest]]; [done| |].
    + cbn [utf8]. repeat case_match; simpl; lia.
    + assert (H1 : (length (d :: rest) <= length (utf8 (d :: rest)))%nat)
        by (apply IH; simpl in *; lia).
      assert (H2 : (length rest <= length (utf8 rest))%nat)
        by (apply IH; simpl in *; lia).
      rewrite utf8_cons_cons.
      revert H1 H2. generalize (utf8 (d :: rest)) (utf8 rest). intros u1 u2 H1 H2.
      simpl in H1. simpl length at 1.
      repeat case_match; rewrite length_app; simpl; lia.
Qed.

Lemma utf8_length_ge (s : jsstring) : js_length s <= Z.of_nat (length (utf8 s)).
Proof. unfold js_length. pose proof (utf8_length_ge_aux (length s) s (le_n _)). lia. Qed.

Lemma descendant_inv (h : Heap) l nd d :
  h !! l = Some nd -> descendant h l d ->
  exists c, c ∈ children nd /\ (d = c \/ descendant h c d).
Proof.
  intros Hl Hd. destruct Hd as [p nd' c Hp Hc|p nd' c d Hp Hc Hcd];
    rewrite Hl in Hp; injection Hp as <-; eauto.
Qed.

Lemma write_children_at_least (P : loc -> Z -> Prop) (Bad : loc -> Prop)
    (write : loc -> BufferWrapper -> Outcome BufferWrapper) cs ss buf buf' :
  (forall c s b b', P c s -> write c b = Ok b' ->
     exists bs, appended b b' bs /\ s <= Z.of_nat (length bs) /\
       (Bad c -> s < Z.of_nat (length bs))) ->
  Forall2 P cs ss ->
  write_children write cs buf = Ok buf' ->
  exists bs, appended buf buf' bs /\ Zsum ss <= Z.of_nat (length bs) /\
    (forall c, c ∈ cs -> Bad c -> Zsum ss < Z.of_nat (length bs)).
Proof.
  intros Hw Hcs. revert buf. induction Hcs as [|c s cs ss Hc _ IH]; intros buf; simpl.
  - intros [= <-]. exists []. split; [apply appended_nil|]. split; [simpl; lia|].
    intros c Hc. by apply elem_of_nil in Hc.
  - intros H. bind_inv H.
    destruct (Hw _ _ _ _ Hc Hx) as (bs1 & Hbs1 & Hlen1 & Hbad1).
    destruct (IH _ H) as (bs2 & Hbs2 & Hlen2 & Hbad2).
    exists (bs1 ++ bs2). split; [by eapply appended_trans|].
    rewrite length_app_Z. split; [lia|].
    intros d [->|Hd]%elem_of_cons Hbad.
    + specialize (Hbad1 Hbad). lia.
    + specialize (Hbad2 _ Hd Hbad). lia.
Qed.

Lemma writeNode_at_least n (h : Heap) l s buf buf' :
  sized n h l s ->
  writeNode n h l buf = Ok buf' ->
  exists bs, appended buf buf' bs /\ s <= Z.of_nat (length bs) /\
    ((exists d nd, (d = l \/ descendant h l d) /\ h !! d = Some nd /\
        js_length (name nd) < Z.of_nat (length (utf8 (name nd)))) ->
     s < Z.of_nat (length bs)) /\
    take 4 bs = le_bytes 4 (offset buf + s).
Proof.
  revert l s buf buf'. induction n as [|n IH]; intros l s buf buf'; [done|].
  intros (nd & ps & cs & Hl & Hps & Hcs & Hs & Hsz & Hpsz). simpl. rewrite Hl, Hsz, Hpsz. simpl.
  intros H. bind_inv H. apply put_int_appended in Hx.
  bind_inv H. apply put_int_appended in Hx0.
  bind_inv H. apply put_int_appended in Hx1.
  bind_inv H. apply put_int_appended in Hx2.
  bind_inv H. apply put_appended in Hx3.
  bind_inv H. destruct (write_properties_size _ 0 _ _ _ Hps Hx4) as (pbs & Hpbs & Hplen).
  bind_inv H.
  destruct (write_children_at_least (sized n h)
              (fun c => exists d ndd, (d = c \/ descendant h c d) /\ h !! d = Some ndd /\
                 js_length (name ndd) < Z.of_nat (length (utf8 (name ndd))))
              _ _ _ _ _
              (fun c s b b' Hc Hw =>
                 match IH c s b b' Hc Hw with
                 | ex_intro _ bs (conj Ha (conj Hlen (conj Hbad _))) =>
                   ex_intro _ bs (conj Ha (conj Hlen Hbad))
                 end) Hcs Hx5)
    as (cbs & Hcbs & Hclen & Hcbad).
  assert (exists tbs, appended x5 buf' tbs /\ Z.of_nat (length tbs) = trailer_size nd)
    as (tbs & Htbs & Htlen).
  { unfold trailer_size. case_decide.
    - apply (write_padding_appended 13) in H. eexists. split; [done|]. by rewrite repeat_length.
    - injection H as <-. exists []. split; [apply appended_nil | done]. }
  pose proof (appended_trans _ _ _ _ _ Hx (appended_trans _ _ _ _ _ Hx0
    (appended_trans _ _ _ _ _ Hx1 (appended_trans _ _ _ _ _ Hx2
    (appended_trans _ _ _ _ _ Hx3 (appended_trans _ _ _ _ _ Hpbs
    (appended_trans _ _ _ _ _ Hcbs Htbs))))))) as Hall.
  eexists. split; [exact Hall|].
  pose proof (utf8_length_ge (name nd)) as Hname.
  rewrite !length_app_Z, !le_bytes_length. split; [lia|]. split.
  - intros (d & ndd & [->|Hd] & Hndd & Hbad).
    + rewrite Hl in Hndd. injection Hndd as <-. lia.
    + destruct (descendant_inv _ _ _ _ Hl Hd) as (c & Hc & Hcd).
      assert (Zsum cs < Z.of_nat (length cbs)); [|lia].
      apply (Hcbad c Hc). exists d, ndd. split; [|done].
      destruct Hcd as [->|Hcd]; auto.
  - rewrite take_app_length'; [done | by rewrite le_bytes_length].
Qed.

(** X13: the write pass never emits less than the size pass counted, and
    emits more as soon as a name is not ASCII. Size a tree, then write any
    of its nodes: a write that returns has appended at least as many bytes
    as the size stored on the node, and strictly more if the node, or a
    node below it, has a name that takes more UTF-8 bytes than it has
    UTF-16 code units; the end offset written for such a node falls short
    of where the node ends. *)
Theorem write_pass_never_undershoots fuel k (h : Heap) roots total h' l nd buf buf' :
  calculateNodeTreeSize fuel (ASet roots) h = Ok (total, h') ->
  reachable h roots l ->
  h' !! l = Some nd ->
  writeNode k h' l buf = Ok buf' ->
  exists s bs,
    size nd = Some s /\
    appended buf buf' bs /\
    take 4 bs = le_bytes 4 (offset buf + s) /\
    s <= Z.of_nat (length bs) /\
    ((exists d ndd, (d = l \/ descendant h' l d) /\ h' !! d = Some ndd /\
        js_length (name ndd) < Z.of_nat (length (utf8 (name ndd)))) ->
     offset buf + s < offset buf').
Proof.
  intros Hcalc Hl Hnd Hwrite.
  pose proof (calculateNodeTreeSize_shape _ _ _ _ _ Hcalc) as Hshape.
  destruct (roots_sized _ _ _ _ _ Hcalc) as (n & ss & Hss & _).
  destruct (reachable_sized _ _ _ _ _ _ Hshape Hss Hl) as (m & s & Hsized).
  destruct (sized_stored _ _ _ _ Hsized) as (nd' & Hnd' & Hsz).
  rewrite Hnd in Hnd'. injection Hnd' as <-.
  assert (Hm : (S m <= Nat.max (S m) k)%nat) by lia.
  assert (Hk : (k <= Nat.max (S m) k)%nat) by lia.
  pose proof (writeNode_mono _ _ _ _ _ _ Hk Hwrite) as Hwrite'.
  destruct (writeNode_at_least _ h' l s buf buf' (sized_mono _ _ _ _ _ Hm Hsized) Hwrite')
    as (bs & Hbs & Hlen & Hbad & Htake).
  exists s, bs. split; [exact Hsz|]. split; [exact Hbs|]. split; [exact Htake|].
  split; [exact Hlen|].
  intros Hd. specialize (Hbad Hd). rewrite (appended_offset _ _ _ Hbs). lia.
Qed.

Lemma write_pass_never_undershoots_witness :
  let h : Heap :=
    [ {| name := js "Model"; properties := []; children := [1%nat]; size := None;
         propertySize := None |};
      {| name := [233]; properties := []; children := []; size := None;
         propertySize := None |} ] in
  let buf := buffer_of 128 (repeat 0 27) in
  exists total h' nd buf',
    calculateNodeTreeSize 3 (ASet [0%nat]) h = Ok (total, h') /\
    reachable h [0%nat] 0%nat /\
    h' !! 0%nat = Some nd /\
    writeNode 2 h' 0%nat buf = Ok buf' /\
    exists s bs,
      size nd = Some s /\
      appended buf buf' bs /\
      take 4 bs = le_bytes 4 (offset buf + s) /\
      s <= Z.of_nat (length bs) /\
      ((exists d ndd, (d = 0%nat \/ descendant h' 0%nat d) /\ h' !! d = Some ndd /\
          js_length (name ndd) < Z.of_nat (length (utf8 (name ndd)))) ->
       offset buf + s < offset buf').
Proof.
  intros h buf.
  destruct (calculateNodeTreeSize 3 (ASet [0%nat]) h) as [[total h']| |] eqn:H1;
    [|by vm_compute in H1|by vm_compute in H1].
  assert (H2 : reachable h [0%nat] 0%nat) by (apply reachable_root, list_elem_of_here).
  destruct (h' !! 0%nat) as [nd|] eqn:H3;
    [|vm_compute in H1; injection H1 as <- <-; by vm_compute in H3].
  destruct (writeNode 2 h' 0%nat buf) as [buf'| |] eqn:H4;
    [|vm_compute in H1; injection H1 as <- <-; by vm_compute in H4
     |vm_compute in H1; injection H1 as <- <-; by vm_compute in H4].
  exists total, h', nd, buf'.
  split; [reflexivity|]. split; [exact H2|]. split; [exact H3|]. split; [exact H4|].
  exact (write_pass_never_undershoots 3 2 h [0%nat] total h' 0%nat nd buf buf' H1 H2 H3 H4).
Defined.

(** ** The timestamp string *)

Lemma Number_toString_digits n :
  0 <= n <= 9999 ->
  js_length (Number_toString n) = digits n /\
  Forall (fun c => c < 128) (Number_toString n).
Proof.
  intros Hn.
  assert (Hall : forallb (fun n => (js_length (Number_toString n) =? digits n)
                                   && forallb (fun c => c <? 128) (Number_toString n))
                   (map Z.of_nat (seq 0 (Z.to_nat 10000))) = true) by (vm_compute; reflexivity).
  rewrite forallb_forall in Hall.
  destruct (andb_prop _ _ (Hall n ltac:(apply in_map_iff; exists (Z.to_nat n);
                                         split; [lia | apply in_seq; lia]))) as [H1 H2].
  split; [lia|]. apply Forall_forall. intros c Hc. rewrite forallb_forall in H2.
  apply list_elem_of_In in Hc. specialize (H2 _ Hc). lia.
Qed.

Lemma padStart_length (s : jsstring) (target : nat) c :
  (length s <= target)%nat -> length (padStart s target [c]) = target.
Proof.
  intros Hs. unfold padStart. rewrite length_app, length_take.
  assert (Hpad : forall k, length (concat (repeat [c] k)) = k).
  { induction k as [|k IH]; simpl; [done | by rewrite IH]. }
  rewrite Hpad. lia.
Qed.

Lemma padStart_ascii (s : jsstring) (target : nat) c :
  c < 128 -> Forall (fun c => c < 128) s -> Forall (fun c => c < 128) (padStart s target [c]).
Proof.
  intros Hc Hs. unfold padStart. apply Forall_app. split; [|done].
  apply Forall_take. generalize (target - length s)%nat.
  induction n as [|k IH]; simpl; [constructor | by constructor].
Qed.

Lemma util_format_timestamp a1 a2 a3 a4 a5 a6 a7 :
  util_format (js "%s/%s/%s %s:%s:%s:%s") [a1; a2; a3; a4; a5; a6; a7]
  = format_arg_text a1 ++ js "/" ++ format_arg_text a2 ++ js "/" ++ format_arg_text a3
    ++ js " " ++ format_arg_text a4 ++ js ":" ++ format_arg_text a5 ++ js ":"
    ++ format_arg_text a6 ++ js ":" ++ format_arg_text a7 ++ [].
Proof. reflexivity. Qed.

(** X14: the CreationTime record. For a clock reading whose UTC date and
    time are those of a calendar with a four-digit year,
    [buildCreationTimeNode] allocates one record named CreationTime with a
    single string property of the form Y/MM/DD H:MM:SS:mmm: month, day,
    minutes and seconds are padded to two digits and the milliseconds to
    three, but the hour is not padded. The day is the one of the local
    time zone ([getDate]), every other field is UTC. The string is ASCII
    and has 23 code units from 10 o'clock on and 22 before. *)
Theorem creation_time_pads_all_but_the_hour (clock : nat -> Date) (r : Runtime) :
  let d := clock (dateCalls r) in
  utc_calendar d ->
  let m := buildCreationTimeNode clock r in
  exists s,
    heap m.2 = heap r ++
      [ {| name := js "CreationTime";
           properties := [ {| pid := nextId r; type := PROPERTY_STRING; value := VString s |} ];
           children := []; size := None; propertySize := None |} ] /\
    s = Number_toString (getUTCFullYear d) ++ js "/"
        ++ padStart (Number_toString (getUTCMonth d + 1)) 2 (js "0") ++ js "/"
        ++ padStart (Number_toString (getDate d)) 2 (js "0") ++ js " "
        ++ Number_toString (getUTCHours d) ++ js ":"
        ++ padStart (Number_toString (getUTCMinutes d)) 2 (js "0") ++ js ":"
        ++ padStart (Number_toString (getUTCSeconds d)) 2 (js "0") ++ js ":"
        ++ padStart (Number_toString (getUTCMilliseconds d)) 3 (js "0") /\
    js_length s = (if getUTCHours d <? 10 then 22 else 23) /\
    Forall (fun c => c < 128) s.
Proof.
  intros d (Hy & Hmo & Hd & Hh & Hmi & Hs & Hms) m.
  destruct (Number_toString_digits (getUTCFullYear d)) as [Ly Ay]; [lia|].
  destruct (Number_toString_digits (getUTCMonth d + 1)) as [Lmo Amo]; [lia|].
  destruct (Number_toString_digits (getDate d)) as [Ld Ad]; [lia|].
  destruct (Number_toString_digits (getUTCHours d)) as [Lh Ah]; [lia|].
  destruct (Number_toString_digits (getUTCMinutes d)) as [Lmi Ami]; [lia|].
  destruct (Number_toString_digits (getUTCSeconds d)) as [Ls As]; [lia|].
  destruct (Number_toString_digits (getUTCMilliseconds d)) as [Lms Ams]; [lia|].
  unfold digits, js_length in *.
  eexists. split; [|split; [reflexivity|]].
  - subst m. unfold buildCreationTimeNode, mbind, Build_bind. cbn [new_Date].
    cbv zeta. rewrite new_FBXNodeRecord_unfold. cbn [fst snd].
    set (nd := {| name := js "CreationTime"; properties := []; children := []; size := None;
                  propertySize := None |}).
    rewrite (addProperty_heap (length (heap r)) PROPERTY_STRING _
               {| heap := heap r ++ [nd]; nextId := nextId r; dateCalls := S (dateCalls r);
                  randomCalls := randomCalls r |} nd (lookup_snoc _ _))
      by constructor.
    subst nd. cbn [heap nextId name properties children size propertySize app imap].
    rewrite list_insert_alter, alter_snoc, Nat.add_0_r, util_format_timestamp.
    cbn [format_arg_text]. rewrite app_nil_r. reflexivity.
  - change (js "0") with [48]. change (js "/") with [47]. change (js " ") with [32].
    change (js ":") with [58].
    assert (Pmo : length (padStart (Number_toString (getUTCMonth d + 1)) 2 [48]) = 2%nat)
      by (apply padStart_length; clear - Lmo Hmo; repeat case_match; lia).
    assert (Pd : length (padStart (Number_toString (getDate d)) 2 [48]) = 2%nat)
      by (apply padStart_length; clear - Ld Hd; repeat case_match; lia).
    assert (Pmi : length (padStart (Number_toString (getUTCMinutes d)) 2 [48]) = 2%nat)
      by (apply padStart_length; clear - Lmi Hmi; repeat case_match; lia).
    assert (Ps : length (padStart (Number_toString (getUTCSeconds d)) 2 [48]) = 2%nat)
      by (apply padStart_length; clear - Ls Hs; repeat case_match; lia).
    assert (Pms : length (padStart (Number_toString (getUTCMilliseconds d)) 3 [48]) = 3%nat)
      by (apply padStart_length; clear - Lms Hms; repeat case_match; lia).
    pose proof (padStart_ascii _ 2 48 ltac:(lia) Amo) as Qmo.
    pose proof (padStart_ascii _ 2 48 ltac:(lia) Ad) as Qd.
    pose proof (padStart_ascii _ 2 48 ltac:(lia) Ami) as Qmi.
    pose proof (padStart_ascii _ 2 48 ltac:(lia) As) as Qs.
    pose proof (padStart_ascii _ 3 48 ltac:(lia) Ams) as Qms.
    revert Pmo Pd Pmi Ps Pms Qmo Qd Qmi Qs Qms.
    generalize (padStart (Number_toString (getUTCMonth d + 1)) 2 [48])
               (padStart (Number_toString (getDate d)) 2 [48])
               (padStart (Number_toString (getUTCMinutes d)) 2 [48])
               (padStart (Number_toString (getUTCSeconds d)) 2 [48])
               (padStart (Number_toString (getUTCMilliseconds d)) 3 [48]).
    revert Ly Ay Lh Ah.
    generalize (Number_toString (getUTCFullYear d)) (Number_toString (getUTCHours d)).
    intros sy sh Ly Ay Lh Ah pmo pd pmi ps pms Pmo Pd Pmi Ps Pms Qmo Qd Qmi Qs Qms.
    split.
    + rewrite !length_app, Pmo, Pd, Pmi, Ps, Pms. simpl length.
      clear - Ly Hy Lh Hh. repeat case_match; lia.
    + repeat (apply Forall_app; split); try assumption; by repeat constructor.
Qed.

Lemma creation_time_pads_all_but_the_hour_witness :
  let d := clock_at 9 (dateCalls fresh_runtime) in
  let m := buildCreationTimeNode (clock_at 9) fresh_runtime in
  exists s,
    heap m.2 = heap fresh_runtime ++
      [ {| name := js "CreationTime";
           properties := [ {| pid := nextId fresh_runtime; type := PROPERTY_STRING;
                              value := VString s |} ];
           children := []; size := None; propertySize := None |} ] /\
    s = Number_toString (getUTCFullYear d) ++ js "/"
        ++ padStart (Number_toString (getUTCMonth d + 1)) 2 (js "0") ++ js "/"
        ++ padStart (Number_toString (getDate d)) 2 (js "0") ++ js " "
        ++ Number_toString (getUTCHours d) ++ js ":"
        ++ padStart (Number_toString (getUTCMinutes d)) 2 (js "0") ++ js ":"
        ++ padStart (Number_toString (getUTCSeconds d)) 2 (js "0") ++ js ":"
        ++ padStart (Number_toString (getUTCMilliseconds d)) 3 (js "0") /\
    js_length s = (if getUTCHours d <? 10 then 22 else 23) /\
    Forall (fun c => c < 128) s.
Proof.
  apply (creation_time_pads_all_but_the_hour (clock_at 9) fresh_runtime).
  unfold utc_calendar, clock_at. simpl. lia.
Defined.

(** ** Strings and binary values *)

(** X15: strings and binary values are length-prefixed, and the prefix
    counts the payload. A write of a String or Binary property that returns
    has appended the type code, the number of payload bytes as a 32-bit
    little-endian integer, and the payload: the UTF-8 bytes of the string,
    or the bytes of the buffer. The value then has the shape of its type,
    the payload is shorter than 2^32, and the size pass counts exactly
    these 1 + 4 + payload bytes for the property. *)
Theorem length_prefix_counts_payload (p : Property) buf buf' :
  type p = PROPERTY_STRING \/ type p = PROPERTY_BINARY ->
  write_property p buf = Ok buf' ->
  exists payload,
    (type p = PROPERTY_STRING -> exists s, value p = VString s /\ payload = utf8 s) /\
    (type p = PROPERTY_BINARY -> value p = VBuffer payload) /\
    Z.of_nat (length payload) <= 4294967295 /\
    appended buf buf'
      ([type_code (type p)] ++ le_bytes 4 (Z.of_nat (length payload)) ++ payload) /\
    size_property 0 p = Ok (1 + (4 + Z.of_nat (length payload))).
Proof.
  destruct p as [i t v]. simpl. unfold write_property, size_property. simpl.
  intros [-> | ->] H; simpl in *.
  - bind_inv H. apply put_int_appended in Hx.
    bind_inv H. bind_inv H.
    destruct v as [f|s|b|b]; try done. simpl in Hx0. injection Hx0 as <-.
    pose proof Hx1 as Hlen. apply put_int_inv in Hlen as (_ & Hlen & _).
    apply put_int_appended in Hx1. apply put_appended in H.
    exists (utf8 s). split; [by eauto|]. split; [done|]. split; [lia|]. split; [|done].
    exact (appended_trans _ _ _ _ _ Hx (appended_trans _ _ _ _ _ Hx1 H)).
  - bind_inv H. apply put_int_appended in Hx.
    bind_inv H. bind_inv H.
    destruct v as [f|s|b|bl]; try done. simpl in Hx0. injection Hx0 as <-.
    pose proof Hx1 as Hlen. apply put_int_inv in Hlen as (_ & Hlen & _).
    apply put_int_appended in Hx1. apply put_appended in H.
    exists b. split; [done|]. split; [done|]. split; [lia|]. split; [|done].
    exact (appended_trans _ _ _ _ _ Hx (appended_trans _ _ _ _ _ Hx1 H)).
Qed.

Lemma length_prefix_counts_payload_witness :
  let p := {| pid := 0; type := PROPERTY_STRING; value := VString [233; 120] |} in
  let buf := buffer_of 16 [] in
  exists buf',
    write_property p buf = Ok buf' /\
    exists payload,
      (type p = PROPERTY_STRING -> exists s, value p = VString s /\ payload = utf8 s) /\
      (type p = PROPERTY_BINARY -> value p = VBuffer payload) /\
      Z.of_nat (length payload) <= 4294967295 /\
      appended buf buf'
        ([type_code (type p)] ++ le_bytes 4 (Z.of_nat (length payload)) ++ payload) /\
      size_property 0 p = Ok (1 + (4 + Z.of_nat (length payload))).
Proof.
  intros p buf.
  destruct (write_property p buf) as [buf'| |] eqn:H1;
    [|by vm_compute in H1|by vm_compute in H1].
  exists buf'. split; [reflexivity|].
  exact (length_prefix_counts_payload p buf buf' (or_introl eq_refl) H1).
Defined.

(** ** Reading the end offsets back *)

Lemma le_value_le_bytes v : 0 <= v <= 4294967295 -> le_value (le_bytes 4 v) = v.
Proof.
  intros Hv. unfold le_bytes, le_value. simpl.
  change 255 with (Z.ones 8). rewrite !Z.land_ones by lia.
  rewrite !Z.shiftr_div_pow2 by lia.
  change (2 ^ (8 * Z.of_nat 0)) with 1. change (2 ^ (8 * Z.of_nat 1)) with 256.
  change (2 ^ (8 * Z.of_nat 2)) with (256 * 256).
  change (2 ^ (8 * Z.of_nat 3)) with (256 * 256 * 256).
  change (2 ^ 8) with 256. rewrite Z.div_1_r.
  rewrite <- !Z.div_div by lia.
  pose proof (Z.div_mod v 256 ltac:(lia)) as E1.
  pose proof (Z.div_mod (v / 256) 256 ltac:(lia)) as E2.
  pose proof (Z.div_mod (v / 256 / 256) 256 ltac:(lia)) as E3.
  pose proof (Z.div_mod (v / 256 / 256 / 256) 256 ltac:(lia)) as E4.
  pose proof (Z.mod_pos_bound v 256 ltac:(lia)) as B1.
  pose proof (Z.mod_pos_bound (v / 256) 256 ltac:(lia)) as B2.
  pose proof (Z.mod_pos_bound (v / 256 / 256) 256 ltac:(lia)) as B3.
  pose proof (Z.mod_pos_bound (v / 256 / 256 / 256) 256 ltac:(lia)) as B4.
  revert E1 E2 E3 E4 B1 B2 B3 B4.
  generalize (v mod 256) ((v / 256) mod 256) ((v / 256 / 256) mod 256)
             ((v / 256 / 256 / 256) mod 256) (v / 256 / 256 / 256 / 256).
  generalize (v / 256 / 256 / 256). generalize (v / 256 / 256). generalize (v / 256).
  intros. lia.
Qed.

Lemma writeNode_end_offset_range n (h : Heap) l s buf buf' :
  sized n h l s -> writeNode n h l buf = Ok buf' -> 0 <= offset buf + s <= 4294967295.
Proof.
  destruct n as [|n]; [done|].
  intros (nd & ps & cs & Hl & _ & _ & _ & Hsz & _). simpl. rewrite Hl, Hsz. simpl.
  intros H. bind_inv H. by apply put_int_inv in Hx as (_ & Hrange & _).
Qed.

(** The roots are written one after the other, each starting with its end
    offset, which is where the next one starts. *)
Lemma write_children_chain n (h : Heap) cs ss buf buf' :
  Forall (fun nd => Z.of_nat (length (utf8 (name nd))) = js_length (name nd)) h ->
  Forall2 (sized n h) cs ss ->
  write_children (writeNode n h) cs buf = Ok buf' ->
  offset buf' = offset buf + Zsum ss /\
  forall i, (i < length cs)%nat ->
    take 4 (drop (Z.to_nat (offset buf + Zsum (take i ss))) (written buf'))
    = le_bytes 4 (offset buf + Zsum (take (S i) ss)) /\
    0 <= offset buf + Zsum (take (S i) ss) <= 4294967295.
Proof.
  intros Hnames Hcs. revert buf. induction Hcs as [|c s cs ss Hc Hrest IH]; intros buf; simpl.
  - intros [= <-]. split; [lia|]. intros i Hi. lia.
  - intros H. bind_inv H.
    destruct (writeNode_emits_size n h Hnames c s buf x Hc Hx) as (bs & Hbs & Hlen & Htake & Hoff).
    destruct (IH _ H) as [Hoff' Hchain].
    split; [lia|].
    pose proof (writeNode_end_offset_range _ _ _ _ _ _ Hc Hx) as Hrange.
    intros [|i] Hi.
    + rewrite take_0. simpl Zsum. rewrite !Z.add_0_r. split; [|exact Hrange].
      destruct (write_children_grown _ _ _ _ (writeNode_grown n h) H) as [[rest Hrest'] _].
      rewrite Hrest', Hbs. unfold buffer_of. cbn [written capacity].
      unfold offset. rewrite Nat2Z.id, <- app_assoc, drop_app_length.
      pose proof (sized_positive _ _ _ _ Hc) as Hpos.
      rewrite take_app_le by lia. exact Htake.
    + assert (Hi' : (i < length cs)%nat) by (simpl in Hi; lia).
      destruct (Hchain i Hi') as [Hbytes Hr]. cbn [take].
      change (Zsum (s :: ?l)) with (s + Zsum l).
      replace (offset buf + (s + Zsum (take i ss))) with (offset x + Zsum (take i ss)) by lia.
      replace (offset buf + (s + Zsum (take (S i) ss)))
        with (offset x + Zsum (take (S i) ss)) by lia.
      split; [exact Hbytes | exact Hr].
Qed.

(** X16: the end offsets lead from root to root. When the names are ASCII
    and the serializer returns, a reader that starts after the 27-byte
    preamble and reads the 32-bit end offset at the start of each root
    record finds there the position where the next root record starts, and
    at the last one the length of the file; the file holds nothing else. *)
Theorem end_offsets_lead_from_root_to_root fuel tree (h : Heap) buf h' :
  Forall (fun nd => Forall (fun c => c < 128) (name nd)) h ->
  serialize fuel tree h = Ok (buf, h') ->
  exists ss,
    Forall2 (fun root s => size <$> h' !! root = Some (Some s)) tree ss /\
    (forall i, (i < length tree)%nat ->
       u32_at (contents buf) (27 + Zsum (take i ss)) = 27 + Zsum (take (S i) ss)) /\
    Z.of_nat (length (contents buf)) = 27 + Zsum ss.
Proof.
  intros Hascii Hser.
  destruct (serialize_inv _ _ _ _ _ Hser) as (treeSize & bs & Hcalc & Hcap & Hwritten & Hfit).
  pose proof (calculateNodeTreeSize_shape _ _ _ _ _ Hcalc) as Hshape.
  destruct (roots_sized _ _ _ _ _ Hcalc) as (n & ss & Hss & ->).
  assert (Hnames : Forall (fun nd => Z.of_nat (length (utf8 (name nd))) = js_length (name nd)) h').
  { apply Forall_lookup_2. intros i x Hx.
    destruct (same_heap_lookup _ _ _ _ (same_heap_sym _ _ Hshape) Hx) as (x0 & Hx0 & Hn & _).
    rewrite Hn. rewrite utf8_ascii; [done|]. exact (Forall_lookup_1 _ _ _ _ Hascii Hx0). }
  exists ss. split.
  { eapply Forall2_impl; [exact Hss|]. intros c sc (ndc & Hlc & Hndc)%sized_stored.
    rewrite Hlc. simpl. by rewrite Hndc. }
  unfold serialize in Hser. rewrite Hcalc, bind_ret_l in Hser.
  bind_inv Hser. bind_inv Hser. bind_inv Hser. injection Hser as <-.
  unfold alloc in Hx. destruct (Z.ltb_spec (Zsum ss + 27) 0); [done|]. injection Hx as <-.
  apply write_preamble_inv in Hx0 as [Hpre _].
  assert (Hoff0 : offset x0 = 27).
  { rewrite (appended_offset _ _ _ Hpre). by vm_compute. }
  clear Hpre.
  set (N := Nat.max n fuel).
  assert (Hss' : Forall2 (sized N h') tree ss).
  { eapply Forall2_impl; [exact Hss|]. intros c sc. apply sized_mono. lia. }
  assert (Hx1' : write_children (writeNode N h') tree x0 = Ok x1).
  { eapply write_children_impl; [|exact Hx1]. intros c b b'. apply writeNode_mono. lia. }
  destruct (write_children_chain N h' tree ss x0 x1 Hnames Hss' Hx1') as [Hoff Hchain].
  rewrite Hoff0 in Hoff, Hchain.
  assert (Hfull : contents x1 = written x1).
  { apply contents_full. lia. }
  split.
  - intros i Hi. destruct (Hchain i Hi) as [Hbytes Hrange].
    unfold u32_at. rewrite Hfull, Hbytes. by apply le_value_le_bytes.
  - rewrite Hfull. unfold offset in Hoff. lia.
Qed.

Lemma end_offsets_lead_from_root_to_root_witness :
  let h : Heap :=
    [ {| name := js "Documents"; properties := []; children := [1%nat]; size := None;
         propertySize := None |};
      {| name := js "Count";
         properties := [ {| pid := 0; type := PROPERTY_INT_32; value := num 0 |} ];
         children := []; size := None; propertySize := None |};
      {| name := js "References"; properties := []; children := []; size := None;
         propertySize := None |} ] in
  exists buf h',
    serialize 3 [0%nat; 2%nat] h = Ok (buf, h') /\
    exists ss,
      Forall2 (fun root s => size <$> h' !! root = Some (Some s)) [0%nat; 2%nat] ss /\
      (forall i, (i < length [0%nat; 2%nat])%nat ->
         u32_at (contents buf) (27 + Zsum (take i ss)) = 27 + Zsum (take (S i) ss)) /\
      Z.of_nat (length (contents buf)) = 27 + Zsum ss.
Proof.
  intros h.
  assert (H0 : Forall (fun nd => Forall (fun c => c < 128) (name nd)) h).
  { repeat constructor. }
  destruct (serialize 3 [0%nat; 2%nat] h) as [[buf h']| |] eqn:H1;
    [|by vm_compute in H1|by vm_compute in H1].
  exists buf, h'. split; [reflexivity|].
  exact (end_offsets_lead_from_root_to_root 3 [0%nat; 2%nat] h buf h' H0 H1).
Defined.

(** ** Reading a record header back *)

Lemma u32_at_app (before : list byte) v (rest : list byte) :
  0 <= v <= 4294967295 ->
  u32_at (before ++ le_bytes 4 v ++ rest) (Z.of_nat (length before)) = v.
Proof.
  intros Hv. unfold u32_at. rewrite Nat2Z.id, drop_app_length.
  rewrite take_app_length' by (by rewrite le_bytes_length). by apply le_value_le_bytes.
Qed.

(** X17: a record header reads back. Whenever the write pass returns on a
    node, a reader finds at the offset where the node was written: the end
    offset (that offset plus the stored size), the number of properties and
    the stored property-list length as 32-bit little-endian integers, then
    one byte holding the number of UTF-8 bytes of the name, which is at
    most 255, then these bytes. *)
Theorem header_reads_back k (h : Heap) l nd buf buf' :
  h !! l = Some nd ->
  writeNode k h l buf = Ok buf' ->
  exists sz psz,
    size nd = Some sz /\
    propertySize nd = Some psz /\
    u32_at (written buf') (offset buf) = offset buf + sz /\
    u32_at (written buf') (offset buf + 4) = Z.of_nat (length (properties nd)) /\
    u32_at (written buf') (offset buf + 8) = psz /\
    written buf' !! Z.to_nat (offset buf + 12) = Some (Z.of_nat (length (utf8 (name nd)))) /\
    (length (utf8 (name nd)) <= 255)%nat /\
    take (length (utf8 (name nd))) (drop (Z.to_nat (offset buf + 13)) (written buf'))
    = utf8 (name nd).
Proof.
  intros Hl. destruct k as [|k]; [done|]. simpl. rewrite Hl.
  intros H. apply bind_Ok in H as (sz & Hsz & H).
  destruct (size nd) as [sz'|]; [injection Hsz as ->|done].
  apply bind_Ok in H as (b1 & H1 & H). pose proof (put_int_inv _ _ _ _ _ _ H1) as (_ & R1 & _).
  apply put_int_appended in H1.
  apply bind_Ok in H as (b2 & H2 & H). pose proof (put_int_inv _ _ _ _ _ _ H2) as (_ & R2 & _).
  apply put_int_appended in H2.
  apply bind_Ok in H as (psz & Hpsz & H).
  destruct (propertySize nd) as [psz'|]; [injection Hpsz as ->|done].
  apply bind_Ok in H as (b3 & H3 & H). pose proof (put_int_inv _ _ _ _ _ _ H3) as (_ & R3 & _).
  apply put_int_appended in H3.
  apply bind_Ok in H as (b4 & H4 & H). pose proof (put_int_inv _ _ _ _ _ _ H4) as (_ & R4 & _).
  apply put_int_appended in H4.
  apply bind_Ok in H as (b5 & H5 & H). apply put_appended in H5.
  assert (grown b5 buf') as [[rest Hrest] _].
  { apply bind_Ok in H as (b6 & H6 & H). apply write_properties_grown in H6.
    apply bind_Ok in H as (b7 & H7 & H).
    apply (write_children_grown _ _ _ _ (writeNode_grown k h)) in H7.
    eapply grown_trans; [exact H6|]. eapply grown_trans; [exact H7|].
    case_decide; [by apply (write_padding_grown 13) in H | injection H as <-; apply grown_refl]. }
  pose proof (appended_trans _ _ _ _ _ H1 (appended_trans _ _ _ _ _ H2
    (appended_trans _ _ _ _ _ H3 (appended_trans _ _ _ _ _ H4
    (appended_trans _ _ _ _ _ H5 Hrest))))) as Hall.
  exists sz, psz. split; [done|]. split; [done|].
  assert (Hw : written buf' = written buf ++ le_bytes 4 (offset buf + sz) ++
            le_bytes 4 (Z.of_nat (length (properties nd))) ++ le_bytes 4 psz ++
            le_bytes 1 (Z.of_nat (length (utf8 (name nd)))) ++ utf8 (name nd) ++ rest).
  { rewrite Hall. reflexivity. }
  rewrite Hw. clear Hall Hw Hrest H1 H2 H3 H4 H5 H.
  unfold offset in *. revert R1. generalize (written buf). intros before R1.
  split; [by apply u32_at_app|]. split.
  { replace (Z.of_nat (length before) + 4)
      with (Z.of_nat (length (before ++ le_bytes 4 (Z.of_nat (length before) + sz))))
      by (rewrite length_app_Z, le_bytes_length; lia).
    rewrite (app_assoc before). by apply u32_at_app. }
  split.
  { replace (Z.of_nat (length before) + 8)
      with (Z.of_nat (length ((before ++ le_bytes 4 (Z.of_nat (length before) + sz))
                               ++ le_bytes 4 (Z.of_nat (length (properties nd))))))
      by (rewrite !length_app_Z, !le_bytes_length; lia).
    rewrite (app_assoc before), (app_assoc (before ++ _)). by apply u32_at_app. }
  assert (Hbyte : le_bytes 1 (Z.of_nat (length (utf8 (name nd))))
                  = [Z.of_nat (length (utf8 (name nd)))]).
  { unfold le_bytes. simpl. rewrite Z.shiftr_0_r. change 255 with (Z.ones 8).
    rewrite Z.land_ones by lia. f_equal. apply Z.mod_small. lia. }
  rewrite Hbyte. clear Hbyte.
  assert (LA : length (le_bytes 4 (Z.of_nat (length before) + sz)) = 4%nat)
    by apply le_bytes_length.
  assert (LB : length (le_bytes 4 (Z.of_nat (length (properties nd)))) = 4%nat)
    by apply le_bytes_length.
  assert (LC : length (le_bytes 4 psz) = 4%nat) by apply le_bytes_length.
  revert LA LB LC.
  generalize (le_bytes 4 (Z.of_nat (length before) + sz))
             (le_bytes 4 (Z.of_nat (length (properties nd)))) (le_bytes 4 psz).
  intros A B C LA LB LC. split; [|split; [lia|]].
  - replace (before ++ A ++ B ++ C ++ [Z.of_nat (length (utf8 (name nd)))] ++ utf8 (name nd) ++ rest)
      with ((before ++ A ++ B ++ C) ++ Z.of_nat (length (utf8 (name nd))) :: utf8 (name nd) ++ rest)
      by (by rewrite <- !app_assoc).
    apply list_lookup_middle. rewrite !length_app. lia.
  - replace (before ++ A ++ B ++ C ++ [Z.of_nat (length (utf8 (name nd)))] ++ utf8 (name nd) ++ rest)
      with ((before ++ A ++ B ++ C ++ [Z.of_nat (length (utf8 (name nd)))]) ++ utf8 (name nd) ++ rest)
      by (by rewrite <- !app_assoc).
    replace (Z.to_nat (Z.of_nat (length before) + 13))
      with (length (before ++ A ++ B ++ C ++ [Z.of_nat (length (utf8 (name nd)))]))
      by (rewrite !length_app; simpl; lia).
    rewrite drop_app_length. by rewrite take_app_length.
Qed.

Lemma header_reads_back_witness :
  let h : Heap :=
    [ {| name := [233; 120];
         properties := [ {| pid := 0; type := PROPERTY_DOUBLE; value := num 1 |} ];
         children := []; size := Some 31; propertySize := Some 9 |} ] in
  let buf := buffer_of 64 (repeat 0 27) in
  exists nd buf',
    h !! 0%nat = Some nd /\
    writeNode 1 h 0%nat buf = Ok buf' /\
    exists sz psz,
      size nd = Some sz /\
      propertySize nd = Some psz /\
      u32_at (written buf') (offset buf) = offset buf + sz /\
      u32_at (written buf') (offset buf + 4) = Z.of_nat (length (properties nd)) /\
      u32_at (written buf') (offset buf + 8) = psz /\
      written buf' !! Z.to_nat (offset buf + 12) = Some (Z.of_nat (length (utf8 (name nd)))) /\
      (length (utf8 (name nd)) <= 255)%nat /\
      take (length (utf8 (name nd))) (drop (Z.to_nat (offset buf + 13)) (written buf'))
      = utf8 (name nd).
Proof.
  intros h buf.
  destruct (h !! 0%nat) as [nd|] eqn:H1; [|by vm_compute in H1].
  destruct (writeNode 1 h 0%nat buf) as [buf'| |] eqn:H2;
    [|by vm_compute in H2|by vm_compute in H2].
  exists nd, buf'. split; [reflexivity|]. split; [reflexivity|].
  exact (header_reads_back 1 h 0%nat nd buf buf' H1 H2).
Defined.
